(** * CrowdDynamics: a shallow embedding of the simulation core

    The development follows the Python sources of the repository:

    - [crowddynamics/core/interactions/distance.py]  (geometry kernels),
    - [crowddynamics/core/interactions.py]           (interaction driver),
    - [source/core/force_agents.py]                  (power-law social force),
    - [source/field/wall.py], [crowd_dynamics/parameters.py]
                                                     (walls, random placement),
    - [crowddynamics/multiagent/algorithms.py],
      [crowddynamics/core/steering/navigation.py],
      [crowddynamics/core/motion/force.py]           (simulation phases).

    Floating point numbers are read as exact real numbers.  The two places
    where the code leaves the reals are kept explicit: a division by zero
    (a [ZeroDivisionError], or a non-finite value) makes the computation
    fail, and [np.nan] as the initial value of a running minimum is [None].
    Array accesses out of range fail as well.  Failure is [None] in the
    option monad.  Where the rounding of the code decides a branch, the
    kernel is given once more over binary64 numbers (module [F64]). *)

From Stdlib Require Import ZArith Reals Zfloor Lra Lia.
From Stdlib Require Floats.
From stdpp Require Import base option list.

Local Open Scope R_scope.

(** ** Decidable comparisons on real numbers *)

#[global] Instance R_eq_dec : EqDecision R := Req_EM_T.
#[global] Instance Rlt_decision (a b : R) : Decision (a < b) := Rlt_dec a b.
#[global] Instance Rle_decision (a b : R) : Decision (a <= b) := Rle_dec a b.
#[global] Instance Rgt_decision (a b : R) : Decision (a > b) := Rgt_dec a b.
#[global] Arguments R_eq_dec : simpl never.
#[global] Arguments Rlt_decision : simpl never.
#[global] Arguments Rle_decision : simpl never.
#[global] Arguments Rgt_decision : simpl never.

(** Scalar division as the code performs it: dividing by zero fails. *)
Definition rdiv (a d : R) : option R :=
  if decide (d = 0) then None else Some (a / d).

(** A monadic left fold: the body of a [for] loop that may fail. *)
Fixpoint foldM {A S : Type} (f : S -> A -> option S) (s : S) (l : list A)
  : option S :=
  match l with
  | [] => Some s
  | a :: l' => s' ← f s a; foldM f s' l'
  end.

(** ** Vector2 primitives *)

Module Vector2D.

(** A [float64[2]] array. *)
Definition vec : Type := R * R.

(** [np.zeros(2)] *)
Definition zeros : vec := (0, 0).

Definition vadd (a b : vec) : vec := (a.1 + b.1, a.2 + b.2).
Definition vsub (a b : vec) : vec := (a.1 - b.1, a.2 - b.2).
Definition vneg (a : vec) : vec := (- a.1, - a.2).
Definition smul (c : R) (a : vec) : vec := (c * a.1, c * a.2).

(** [x / d] for an array [x] and a scalar [d]. *)
Definition vdiv (x : vec) (d : R) : option vec :=
  if decide (d = 0) then None else Some (x.1 / d, x.2 / d).

(** Modelled from the spec: the module [crowddynamics.core.vector2D] is not
    among the sources; section 4.1 gives [dot(a,b)], [cross(a,b)] (the
    scalar [a_x b_y - a_y b_x]), [length], [rotate90([x,y]) = [-y, x]] and
    [rotate270([x,y]) = [y, -x]]. *)
Definition dot2d (a b : vec) : R := a.1 * b.1 + a.2 * b.2.
Definition cross2d (a b : vec) : R := a.1 * b.2 - a.2 * b.1.
Definition length (a : vec) : R := sqrt (a.1 * a.1 + a.2 * a.2).
Definition rotate90 (a : vec) : vec := (- a.2, a.1).
Definition rotate270 (a : vec) : vec := (a.2, - a.1).

(** [np.sign] *)
Definition sign (x : R) : R :=
  if decide (x < 0) then -1 else if decide (0 < x) then 1 else 0.

End Vector2D.
Export Vector2D.

Declare Scope vec_scope.
Delimit Scope vec_scope with V.
Infix "^+" := vadd (at level 50, left associativity) : vec_scope.
Infix "^-" := vsub (at level 50, left associativity) : vec_scope.
Infix "^*" := smul (at level 40, left associativity) : vec_scope.
Local Open Scope vec_scope.

(** ** Geometry kernels: [crowddynamics/core/interactions/distance.py] *)

Module Distance.

(** A tuple of three values: torso, left shoulder, right shoulder. *)
Definition triple (A : Type) : Type := A * A * A.

(** [t[k]] for [k] in [0, 1, 2]. *)
Definition tget {A : Type} (t : triple A) (k : nat) : A :=
  match k with
  | O => t.1.1
  | S O => t.1.2
  | _ => t.2
  end.

(** [enumerate(zip(x, r))] *)
Definition enumerate_zip {A B : Type} (x : triple A) (r : triple B)
  : list (nat * (A * B)) :=
  [ (0%nat, (tget x 0, tget r 0));
    (1%nat, (tget x 1, tget r 1));
    (2%nat, (tget x 2, tget r 2)) ].

(** [h < h_min or np.isnan(h_min)], the running minimum being [None] while
    it is still [np.nan]. *)
Definition below_min (h : R) (h_min : option R) : bool :=
  match h_min with
  | None => true
  | Some m => bool_decide (h < m)
  end.

Definition distance_circle_circle (x0 : vec) (r0 : R) (x1 : vec) (r1 : R)
  : option (R * vec) :=
  let x := x0 ^- x1 in
  let d := length x in
  let r_tot := r0 + r1 in
  let h := d - r_tot in
  n ← (if decide (d = 0) then Some zeros else vdiv x d);
  Some (h, n).

(** The loop state of [distance_three_circle]. *)
Record min3 : Type := Min3 {
  h_min : option R;
  normal : vec;
  i_min : nat;
  j_min : nat
}.

Definition min3_init : min3 := Min3 None zeros 0 0.

Definition distance_three_circle_loop
    (x0 : triple vec) (r0 : triple R) (x1 : triple vec) (r1 : triple R)
  : option min3 :=
  foldM (fun st '(i, (xi, ri)) =>
    foldM (fun st '(j, (xj, rj)) =>
      '(h, n) ← distance_circle_circle xi ri xj rj;
      if below_min h (h_min st)
      then Some (Min3 (Some h) n i j)
      else Some st)
    st (enumerate_zip x1 r1))
  min3_init (enumerate_zip x0 r0).

(** The returned [h_min] is [None] when it is still [np.nan]. *)
Definition distance_three_circle
    (x0 : triple vec) (r0 : triple R) (x1 : triple vec) (r1 : triple R)
  : option (option R * vec * vec * vec) :=
  st ← distance_three_circle_loop x0 r0 x1 r1;
  let r_moment0 :=
    tget x0 (i_min st) ^+ tget r0 (i_min st) ^* normal st ^- tget x0 0 in
  let r_moment1 :=
    tget x0 (j_min st) ^- tget r1 (j_min st) ^* normal st ^- tget x1 0 in
  Some (h_min st, normal st, r_moment0, r_moment1).

(** [p] is the pair of end points of the segment: [p[0]], [p[1]].  The
    tests are decided on the exact values; with the circle centred on an
    end point the first or second of them is taken at equality, where the
    rounded values of the code may fall on either side (module [F64]
    below). *)
Definition distance_circle_line (x : vec) (r : R) (p : vec * vec)
  : option (R * vec) :=
  let d := p.2 ^- p.1 in
  let l_w := length d in
  t_w ← vdiv d l_w;
  let n_w := rotate90 t_w in
  let q := (x ^- p.1, x ^- p.2) in
  let l_t := - dot2d t_w q.2 - dot2d t_w q.1 in
  '(d_iw, n_iw) ←
    (if decide (l_t > l_w) then
       let d_iw := length q.1 in
       n_iw ← vdiv q.1 d_iw; Some (d_iw, n_iw)
     else if decide (l_t < - l_w) then
       let d_iw := length q.2 in
       n_iw ← vdiv q.2 d_iw; Some (d_iw, n_iw)
     else
       let l_n := dot2d n_w q.1 in
       let d_iw := Rabs l_n in
       let n_iw := sign l_n ^* n_w in
       Some (d_iw, n_iw));
  let h_iw := d_iw - r in
  Some (h_iw, n_iw).

(** The loop state of [distance_three_circle_line]. *)
Record min1 : Type := Min1 {
  h_min1 : option R;
  normal1 : vec;
  i_min1 : nat
}.

Definition distance_three_circle_line
    (x : triple vec) (r : triple R) (p : vec * vec)
  : option (option R * vec * vec) :=
  st ← foldM (fun st '(i, (x_, r_)) =>
          '(h, n) ← distance_circle_line x_ r_ p;
          if below_min h (h_min1 st)
          then Some (Min1 (Some h) n i)
          else Some st)
        (Min1 None zeros 0) (enumerate_zip x r);
  let r_moment :=
    tget x (i_min1 st) ^- tget r (i_min1 st) ^* normal1 st ^- tget x 0 in
  Some (h_min1 st, normal1 st, r_moment).

End Distance.
Export Distance.

(** ** The segment kernel in binary64 arithmetic *)

(** [distance_circle_line] once more, over the binary64 numbers the code
    computes with ([float64]): every operation rounds, a division by zero
    gives an infinity or nan, and a comparison with nan is false. *)
Module F64.

Import PrimFloat.

Definition fvec : Type := float * float.

Definition fsub (a b : fvec) : fvec := (sub a.1 b.1, sub a.2 b.2).
Definition fdiv (a : fvec) (d : float) : fvec := (div a.1 d, div a.2 d).
Definition fsmul (c : float) (a : fvec) : fvec := (mul c a.1, mul c a.2).

(** Modelled from the spec: [dot], [length] and [rotate90] of the module
    [crowddynamics.core.vector] (section 4.1), in binary64. *)
Definition dot (a b : fvec) : float := add (mul a.1 b.1) (mul a.2 b.2).
Definition length (a : fvec) : float :=
  sqrt (add (mul a.1 a.1) (mul a.2 a.2)).
Definition rotate90 (a : fvec) : fvec := (opp a.2, a.1).

(** [np.sign]: nan for nan. *)
Definition sign (x : float) : float :=
  if ltb x 0%float then (-1)%float
  else if ltb 0%float x then 1%float
  else if eqb x 0%float then 0%float
  else x.

Definition distance_circle_line (x : fvec) (r : float) (p : fvec * fvec)
  : float * fvec :=
  let d := fsub p.2 p.1 in
  let l_w := length d in
  let t_w := fdiv d l_w in
  let n_w := rotate90 t_w in
  let q := (fsub x p.1, fsub x p.2) in
  let l_t := sub (opp (dot t_w q.2)) (dot t_w q.1) in
  let '(d_iw, n_iw) :=
    if ltb l_w l_t then
      let d_iw := length q.1 in
      let n_iw := fdiv q.1 d_iw in
      (d_iw, n_iw)
    else if ltb l_t (opp l_w) then
      let d_iw := length q.2 in
      let n_iw := fdiv q.2 d_iw in
      (d_iw, n_iw)
    else
      let l_n := dot n_w q.1 in
      let d_iw := abs l_n in
      let n_iw := fsmul (sign l_n) n_w in
      (d_iw, n_iw) in
  let h_iw := sub d_iw r in
  (h_iw, n_iw).

(** The segment from (0, 0) to (1, 5), its length [l_w] and the
    projection [l_t] of a circle of radius 1/4 centred on its first end
    point, as the code computes them. *)
Definition slanted : fvec * fvec := ((0, 0), (1, 5))%float.
Definition slanted_l_w : float := length (fsub slanted.2 slanted.1).
Definition slanted_l_t : float :=
  let t_w := fdiv (fsub slanted.2 slanted.1) slanted_l_w in
  sub (opp (dot t_w (fsub slanted.1 slanted.2)))
      (dot t_w (fsub slanted.1 slanted.1)).
Definition slanted_end_point : float * fvec :=
  distance_circle_line slanted.1 0.25%float slanted.

End F64.

(** ** The agent store *)

Module Agents.

(** Modelled from the spec: the class of the [agent] object handled by
    [interactions.py] and [algorithms.py] is not among the sources.  The
    record lists the attributes those files read and write (section 3.1:
    a structure of arrays, one entry per agent, plus whole-population
    tunables). *)
Record Agent : Type := Build_Agent {
  size : nat;
  three_circle : bool;
  orientable : bool;
  active : list bool;
  mass : list R;
  radius : list R;
  r_t : list R;
  r_s : list R;
  position : list vec;
  position_ls : list vec;
  position_rs : list vec;
  velocity : list vec;
  angle : list R;
  angular_velocity : list R;
  target_angle : list R;
  inertia_rot : list R;
  target_velocity : list R;
  target_direction : list vec;
  force : list vec;
  torque : list R;
  tau_adj : R;
  tau_rot : R;
  mu : R;
  kappa : R;
  damping : R;
  std_rand_force : R;
  std_rand_torque : R;
  sight_soc : R;
  sight_wall : R;
  neighbor_radius : R;
  neighbors : list (list nat);
  neighbor_distances : list (list R);
  neighbor_distances_max : list R
}.

(** The fields the simulation phases write. *)
Definition update_agent
    (f_dir : list vec -> list vec)
    (f_force : list vec -> list vec)
    (f_torque : list R -> list R)
    (f_nb : list (list nat) -> list (list nat))
    (f_nd : list (list R) -> list (list R))
    (f_nm : list R -> list R)
    (a : Agent) : Agent :=
  {| size := size a;
     three_circle := three_circle a;
     orientable := orientable a;
     active := active a;
     mass := mass a;
     radius := radius a;
     r_t := r_t a;
     r_s := r_s a;
     position := position a;
     position_ls := position_ls a;
     position_rs := position_rs a;
     velocity := velocity a;
     angle := angle a;
     angular_velocity := angular_velocity a;
     target_angle := target_angle a;
     inertia_rot := inertia_rot a;
     target_velocity := target_velocity a;
     target_direction := f_dir (target_direction a);
     force := f_force (force a);
     torque := f_torque (torque a);
     tau_adj := tau_adj a;
     tau_rot := tau_rot a;
     mu := mu a;
     kappa := kappa a;
     damping := damping a;
     std_rand_force := std_rand_force a;
     std_rand_torque := std_rand_torque a;
     sight_soc := sight_soc a;
     sight_wall := sight_wall a;
     neighbor_radius := neighbor_radius a;
     neighbors := f_nb (neighbors a);
     neighbor_distances := f_nd (neighbor_distances a);
     neighbor_distances_max := f_nm (neighbor_distances_max a) |}.

Definition keep {A : Type} (x : A) : A := x.

Definition set_target_direction (d : list vec) : Agent -> Agent :=
  update_agent (fun _ => d) keep keep keep keep keep.
Definition set_force (f : list vec) : Agent -> Agent :=
  update_agent keep (fun _ => f) keep keep keep keep.
Definition set_torque (t : list R) : Agent -> Agent :=
  update_agent keep keep (fun _ => t) keep keep keep.
Definition set_neighbors (nb : list (list nat)) (nd : list (list R))
    (nm : list R) : Agent -> Agent :=
  update_agent keep keep keep (fun _ => nb) (fun _ => nd) (fun _ => nm).

(** [a[i] = x]: a store into an array fails out of range. *)
Definition store {A : Type} (i : nat) (x : A) (l : list A)
  : option (list A) :=
  if decide (i < List.length l)%nat then Some (<[i := x]> l) else None.

(** Modelled from the spec: [agent.indices()], the indices of the active
    agents in ascending order (section 3.1). *)
Definition indices (a : Agent) : list nat :=
  filter (fun i => active a !! i = Some true) (seq 0 (size a)).

(** [np.argmax]: the first index of a maximal entry; an empty array
    raises [ValueError]. *)
Fixpoint argmax_from (k best_i : nat) (best : R) (l : list R) : nat :=
  match l with
  | [] => best_i
  | x :: l' =>
      if decide (best < x) then argmax_from (S k) k x l'
      else argmax_from (S k) best_i best l'
  end.

Definition argmax (l : list R) : option nat :=
  match l with
  | [] => None
  | x :: l' => Some (argmax_from 1 0 x l')
  end.

(** [np.max] *)
Definition amax (l : list R) : option R :=
  match l with
  | [] => None
  | x :: l' => Some (foldl Rmax x l')
  end.

End Agents.
Export Agents.

(** ** The interaction driver: [crowddynamics/core/interactions.py] *)

Module Interactions.

Definition force_contact (h : R) (n v t : vec) (mu kappa damping : R)
  : vec :=
  (- h) ^* (mu ^* n ^- (kappa * dot2d v t) ^* t)
  ^+ (damping * dot2d v n) ^* n.

(** [agent.force[i] += f] *)
Definition add_force (i : nat) (f : vec) (agent : Agent) : option Agent :=
  fi ← force agent !! i;
  Some (set_force (<[i := fi ^+ f]> (force agent)) agent).

(** [agent.torque[i] += m] *)
Definition add_torque (i : nat) (m : R) (agent : Agent) : option Agent :=
  ti ← torque agent !! i;
  Some (set_torque (<[i := ti + m]> (torque agent)) agent).

(** The loop state of [agent_agent_distance_three_circle].  The array
    [normal] holds [x / d]: for [d = 0] it holds nan, written [None], and
    the loop goes on. *)
Record minpair : Type := MinPair {
  mp_positions : vec * vec;
  mp_radius : R * R;
  mp_relative_distance : option R;
  mp_normal : option vec
}.

Definition agent_agent_distance_three_circle (agent : Agent) (i j : nat)
  : option (vec * option R * vec * vec) :=
  p_i ← position agent !! i;
  ls_i ← position_ls agent !! i;
  rs_i ← position_rs agent !! i;
  p_j ← position agent !! j;
  ls_j ← position_ls agent !! j;
  rs_j ← position_rs agent !! j;
  let x_i := [p_i; ls_i; rs_i] in
  let x_j := [p_j; ls_j; rs_j] in
  rt_i ← r_t agent !! i;
  rs_i ← r_s agent !! i;
  rt_j ← r_t agent !! j;
  rs_j ← r_s agent !! j;
  let r_i := [rt_i; rs_i; rs_i] in
  let r_j := [rt_j; rs_j; rs_j] in
  st ← foldM (fun st '(xi, ri) =>
          foldM (fun st '(xj, rj) =>
            let x := xi ^- xj in
            let d := length x in
            let r_tot := ri + rj in
            let h := d - r_tot in
            if below_min h (mp_relative_distance st) then
              let normal := vdiv x d in
              Some (MinPair (xi, xj) (ri, rj) (Some h) normal)
            else Some st)
          st (zip x_j r_j))
        (MinPair (zeros, zeros) (0, 0) None (Some zeros)) (zip x_i r_i);
  normal ← mp_normal st;
  let r_moment_i :=
    (mp_positions st).1 ^+ (mp_radius st).1 ^* normal ^- p_i in
  let r_moment_j :=
    (mp_positions st).2 ^- (mp_radius st).2 ^* normal ^- p_j in
  Some (normal, mp_relative_distance st, r_moment_i, r_moment_j).

(** One of the two neighbour blocks of [agent_agent_interaction]: agent
    [j] at distance [h] is offered to the neighbour buffer of agent [i]. *)
Definition neighbor_insert (i j : nat) (h : R) (agent : Agent)
  : option Agent :=
  m ← neighbor_distances_max agent !! i;
  if decide (h < m) then
    row_d ← neighbor_distances agent !! i;
    ind ← argmax row_d;
    row_n ← neighbors agent !! i;
    row_n' ← store ind j row_n;
    let row_d' := <[ind := h]> row_d in
    m' ← amax row_d';
    Some (set_neighbors
            (<[i := row_n']> (neighbors agent))
            (<[i := row_d']> (neighbor_distances agent))
            (<[i := m']> (neighbor_distances_max agent))
            agent)
  else Some agent.

Section Kernels.

(** The social force kernels of the module [power_law] and the wall
    object are not among the sources: they are parameters of the
    driver.  A kernel returns fresh arrays (or fails). *)
Variable force_social_circular : Agent -> nat -> nat -> option (vec * vec).
Variable force_social_three_circle :
  Agent -> nat -> nat -> option (vec * vec).
Variable Wall : Type.
Variable wall_size : Wall -> nat.
Variable distance_with_normal : Wall -> nat -> vec -> option (R * vec).
Variable force_social_linear_wall :
  nat -> nat -> Agent -> Wall -> option vec.

(** The part of [agent_agent_interaction] guarded by
    [if d <= agent.sight_soc]; it returns the agent and the value of
    [h] after the block. *)
Definition agent_agent_forces (i j : nat) (x : vec) (d h : R)
    (agent : Agent) : option (Agent * R) :=
  '(n, h, r_moment_i, r_moment_j, force_i, force_j) ←
    (if three_circle agent then
       '(n, h, r_moment_i, r_moment_j) ←
         agent_agent_distance_three_circle agent i j;
       h ← h;
       '(force_i, force_j) ← force_social_three_circle agent i j;
       Some (n, h, r_moment_i, r_moment_j, force_i, force_j)
     else
       '(force_i, force_j) ← force_social_circular agent i j;
       n ← vdiv x d;
       Some (n, h, zeros, zeros, force_i, force_j));
  '(force_i, force_j) ←
    (if decide (h < 0) then
       let t := rotate270 n in
       v_i ← velocity agent !! i;
       v_j ← velocity agent !! j;
       let v := v_i ^- v_j in
       let force_c :=
         force_contact h n v t (mu agent) (kappa agent) (damping agent) in
       Some (force_i ^+ force_c, force_j ^- force_c)
     else Some (force_i, force_j));
  agent ← add_force i force_i agent;
  agent ← add_force j force_j agent;
  agent ←
    (if orientable agent then
       agent ← add_torque i (cross2d r_moment_i force_i) agent;
       add_torque j (cross2d r_moment_j force_j) agent
     else Some agent);
  Some (agent, h).

Definition agent_agent_interaction (i j : nat) (agent : Agent)
  : option Agent :=
  x_i ← position agent !! i;
  x_j ← position agent !! j;
  let x := x_i ^- x_j in
  let d := length x in
  r_i ← radius agent !! i;
  r_j ← radius agent !! j;
  let r_tot := r_i + r_j in
  let h := d - r_tot in
  '(agent, h) ←
    (if decide (d <= sight_soc agent)
     then agent_agent_forces i j x d h agent
     else Some (agent, h));
  if decide (neighbor_radius agent > 0 ∧ h < neighbor_radius agent) then
    agent ← neighbor_insert i j h agent;
    neighbor_insert j i h agent
  else Some agent.

(** [ind[:-1]] is [removelast ind], [ind[l + 1:]] is [drop (l + 1) ind]. *)
Definition agent_agent (agent : Agent) : option Agent :=
  let ind := indices agent in
  foldM (fun agent '(l, i) =>
    foldM (fun agent j => agent_agent_interaction i j agent)
          agent (drop (l + 1) ind))
  agent (zip (seq 0 (List.length (removelast ind))) (removelast ind)).

Definition agent_wall_distance (agent : Agent) (wall : Wall) (i w : nat)
  : option (option R * vec * vec) :=
  p_i ← position agent !! i;
  ls_i ← position_ls agent !! i;
  rs_i ← position_rs agent !! i;
  let x_i := [p_i; ls_i; rs_i] in
  rt_i ← r_t agent !! i;
  rs_i ← r_s agent !! i;
  let r_i := [rt_i; rs_i; rs_i] in
  '(relative_distance, position, normal, radius) ←
    foldM (fun '(relative_distance, position, normal, radius) '(xi, ri) =>
        '(d, n) ← distance_with_normal wall w xi;
        let h := d - ri in
        if below_min h relative_distance
        then Some (Some h, xi, n, ri)
        else Some (relative_distance, position, normal, radius))
      (None, zeros, zeros, 0) (zip x_i r_i);
  let r_moment_i := position ^- radius ^* normal ^- p_i in
  Some (relative_distance, normal, r_moment_i).

Definition agent_wall_interaction (i w : nat) (agent : Agent)
    (wall : Wall) : option Agent :=
  x ← position agent !! i;
  r_tot ← radius agent !! i;
  '(d, n) ← distance_with_normal wall w x;
  let h := d - r_tot in
  if decide (h <= sight_wall agent) then
    '(h, n, r_moment_i, force) ←
      (if three_circle agent then
         '(h, n, r_moment_i) ← agent_wall_distance agent wall i w;
         h ← h;
         let r_moment_i := zeros in
         force ← force_social_linear_wall i w agent wall;
         Some (h, n, r_moment_i, force)
       else
         let r_moment_i := zeros in
         force ← force_social_linear_wall i w agent wall;
         Some (h, n, r_moment_i, force));
    force ←
      (if decide (h < 0) then
         let t := rotate270 n in
         v_i ← velocity agent !! i;
         let force_c :=
           force_contact h n v_i t (mu agent) (kappa agent)
                         (damping agent) in
         Some (force ^+ force_c)
       else Some force);
    agent ← add_force i force agent;
    if orientable agent
    then add_torque i (cross2d r_moment_i force) agent
    else Some agent
  else Some agent.

Definition agent_wall (agent : Agent) (wall : Wall) : option Agent :=
  foldM (fun agent i =>
    foldM (fun agent w => agent_wall_interaction i w agent wall)
          agent (seq 0 (wall_size wall)))
  agent (indices agent).

End Kernels.

End Interactions.
Export Interactions.

(** ** The power-law social force: [source/core/force_agents.py] *)

Module ForceAgents.

(** [tau ** m] is taken with [m = 2.0], as the code fixes it. *)
Definition f_soc_ij (x_ij v_ij : vec) (r_ij k tau_0 f_max : R)
  : option vec :=
  let force := zeros in
  let a := dot2d v_ij v_ij in
  let b := - dot2d x_ij v_ij in
  let c := dot2d x_ij x_ij - r_ij ^ 2 in
  let d := b ^ 2 - a * c in
  if bool_decide (d < 0) || bool_decide (-0.001 < a ∧ a < 0.001)
  then Some force
  else
    let d := sqrt d in
    tau ← rdiv (b - d) a;
    let tau_max := 999 in
    if bool_decide (tau < 0) || bool_decide (tau > tau_max)
    then Some force
    else
      let m := 2 in
      c1 ← rdiv k (a * tau ^ 2);
      e ← rdiv (- tau) tau_0;
      c2 ← rdiv m tau;
      c3 ← rdiv 1 tau_0;
      w ← vdiv (b ^* v_ij ^+ a ^* x_ij) d;
      let force := force ^- (c1 * exp e * (c2 + c3)) ^* (v_ij ^- w) in
      let mag := length force in
      if decide (mag > f_max)
      then s ← rdiv f_max mag; Some (s ^* force)
      else Some force.

Definition f_c_ij (h_ij : R) (n_ij v_ij t_ij : vec) (mu kappa : R) : vec :=
  h_ij ^* (mu ^* n_ij ^- (kappa * dot2d v_ij t_ij) ^* t_ij).

End ForceAgents.
Export ForceAgents.

(** ** Walls: [source/field/wall.py] *)

Module Walls.

(** A row of [LinearWall.wall]: [p_0, p_1, t_w, n_w, l_w]. *)
Record linear_row : Type := LinearRow {
  p_0 : vec;
  p_1 : vec;
  t_w : vec;
  n_w : vec;
  l_w : R
}.

(** A wall object: the [wall] array of a [RoundWall] (rows [(p, r)]) or
    of a [LinearWall]. *)
Inductive wall : Type :=
| RoundWall (rows : list (vec * R))
| LinearWall (rows : list linear_row).

Definition wall_size (w : wall) : nat :=
  match w with
  | RoundWall rows => List.length rows
  | LinearWall rows => List.length rows
  end.

(** [LinearWall.construct] for one row of [linear_params]. *)
Definition construct_linear (p : vec * vec) : option linear_row :=
  let d := p.2 ^- p.1 in
  let l_w := length d in
  t_w ← vdiv d l_w;
  let n_w := rotate90 t_w in
  Some (LinearRow p.1 p.2 t_w n_w l_w).

(** [wall.distance(i, x)] for a natural number [i], as the loops over
    [range(wall.size)] pass it; [deconstruct] raises [IndexError] out of
    range.  [distance_int] below takes any integer. *)
Definition distance (w : wall) (i : nat) (x : vec) : option R :=
  match w with
  | RoundWall rows =>
      '(p, r) ← rows !! i;
      let q := x ^- p in
      let d_iw := length q - r in
      Some d_iw
  | LinearWall rows =>
      row ← rows !! i;
      let q_0 := x ^- p_0 row in
      let q_1 := x ^- p_1 row in
      let l_t := - dot2d (t_w row) q_1 - dot2d (t_w row) q_0 in
      if decide (l_t > l_w row) then Some (length q_0)
      else if decide (l_t < - l_w row) then Some (length q_1)
      else
        let l_n := dot2d (n_w row) q_0 in
        Some (Rabs l_n)
  end.

(** The check of [deconstruct] on an integer index:
    [if index < 0 or index >= self.size: raise IndexError]. *)
Definition deconstruct_index (size : nat) (index : Z) : option nat :=
  if decide (index < 0 \/ index >= Z.of_nat size)%Z then None
  else Some (Z.to_nat index).

(** [wall.distance(i, x)] for any integer [i], negative ones included. *)
Definition distance_int (w : wall) (i : Z) (x : vec) : option R :=
  k ← deconstruct_index (wall_size w) i;
  distance w k x.

End Walls.

(** ** Scenario assembly: [crowd_dynamics/parameters.py] *)

Module Parameters.

(** How a call of [random_position] ends: it returns (the [position]
    array it has filled, and the number of trials made), it raises the
    iteration-limit exception, or an array access is out of range. *)
Inductive outcome : Type :=
| Return (position : list vec) (iterations : nat)
| Raise (iterations : nat)
| IndexError.

(** [np.all(d > 0)] for [d = hypot(pos - position[:i]) - (rad + radii)] *)
Definition clear_of_agents (pos : vec) (rad : R)
    (placed : list vec) (radii : list R) : bool :=
  forallb (fun '(p, r) => bool_decide (length (pos ^- p) - (rad + r) > 0))
          (zip placed radii).

(** The product of [d > 0] over all segments of all walls; a failing
    [wall.distance] is out of reach, [j] ranging over
    [range(wall.size)]. *)
Definition clear_of_walls (pos : vec) (rad : R) (walls : list Walls.wall)
  : bool :=
  forallb (fun wall =>
    forallb (fun j =>
      match Walls.distance wall j pos with
      | Some d => bool_decide (d - rad > 0)
      | None => false
      end) (seq 0 (Walls.wall_size wall)))
    walls.

(** The [while] loop.  [uniform k] is the point drawn in trial [k]
    (counted from 0); [remaining] is [max_iterations - iterations], so
    that the test [iterations >= max_iterations] is [remaining = 0]. *)
Fixpoint place (uniform : nat -> vec) (radius : list R)
    (walls : list Walls.wall) (remaining iterations i : nat)
    (position : list vec) : outcome :=
  if decide (i < List.length position)%nat then
    match remaining with
    | O => Raise iterations
    | S remaining' =>
        let pos := uniform iterations in
        let iterations := S iterations in
        match radius !! i with
        | None => IndexError
        | Some rad =>
            let radii := take i radius in
            if bool_decide (0 < i)%nat
               && negb (clear_of_agents pos rad (take i position) radii)
            then place uniform radius walls remaining' iterations i position
            else if negb (clear_of_walls pos rad walls)
            then place uniform radius walls remaining' iterations i position
            else place uniform radius walls remaining' iterations (S i)
                       (<[i := pos]> position)
        end
    end
  else Return position iterations.

Definition random_position (uniform : nat -> vec) (position : list vec)
    (radius : list R) (walls : list Walls.wall) : outcome :=
  let max_iterations := (100 * List.length position)%nat in
  place uniform radius walls max_iterations 0 0 position.

End Parameters.

(** ** Simulation phases: [crowddynamics/multiagent/algorithms.py] *)

Module Algorithms.

(** [a[i]] for an index array [i] *)
Definition gather {A : Type} (idx : list nat) (l : list A)
  : option (list A) :=
  mapM (fun k => l !! k) idx.

(** [a[i] = values] for an index array [i] *)
Fixpoint scatter {A : Type} (idx : list nat) (values : list A)
    (l : list A) : option (list A) :=
  match idx, values with
  | [], [] => Some l
  | k :: idx', v :: values' => l' ← store k v l; scatter idx' values' l'
  | _, _ => None
  end.

(** [force_fluctuation] of [crowddynamics/core/motion/force.py].  The
    arrays [magnitude] and [angle] are the samples drawn by
    [truncnorm.rvs(0.0, 3.0, loc=0.0, scale=scale, size=size)] and by
    [np.random.uniform(0.0, 2.0 * np.pi, size=size)]. *)
Definition force_fluctuation (mass : list R) (scale : R)
    (magnitude angle : list R) : list vec :=
  zip_with (fun m '(xi, phi) => m ^* (xi ^* (cos phi, sin phi)))
           mass (zip magnitude angle).

(** [force_adjust] of [crowddynamics/core/motion/force.py], for one
    agent. *)
Definition force_adjust (mass tau_adj v0 : R) (e0 v : vec) : option vec :=
  c ← rdiv mass tau_adj;
  Some (c ^* (v0 ^* e0 ^- v)).

(** [np.round]: to the nearest integer, a half to the even one. *)
Definition round_half_even (x : R) : Z :=
  let f := Zfloor x in
  if decide (x - IZR f < 1 / 2) then f
  else if decide (1 / 2 < x - IZR f) then (f + 1)%Z
  else if Z.even f then f else (f + 1)%Z.

(** [to_indices] of [crowddynamics/core/steering/navigation.py], for one
    point, where the quotient is a finite number whose rounding fits
    [int64]: a nonzero [step], and the result as an integer. *)
Definition to_indices (point : vec) (step : R) : option (Z * Z) :=
  q ← vdiv point step;
  Some (round_half_even q.1, round_half_even q.2).

(** The value of an index expression: an array of indices, or, where
    [agent.indices] is written without the call [agent.indices()], the
    bound method itself. *)
Inductive index : Type :=
| IndexArray (i : list nat)
| BoundMethod.

(** [a[i]] and [a[i] = values]: NumPy raises [IndexError] for an index
    that is a method object. *)
Definition getitem {A : Type} (i : index) (l : list A)
  : option (list A) :=
  match i with
  | IndexArray i => gather i l
  | BoundMethod => None
  end.

Definition setitem {A : Type} (i : index) (values l : list A)
  : option (list A) :=
  match i with
  | IndexArray i => scatter i values l
  | BoundMethod => None
  end.

(** What NumPy does with an integer index into an axis of length [n]: a
    negative index counts from the end, and an index outside
    [-n .. n-1] raises [IndexError]. *)
Definition np_index (n : nat) (k : Z) : option nat :=
  if decide (0 <= k < Z.of_nat n)%Z then Some (Z.to_nat k)
  else if decide (- Z.of_nat n <= k < 0)%Z
  then Some (Z.to_nat (Z.of_nat n + k))
  else None.

(** [direction_map[row, col, :]] *)
Definition read_map (direction_map : list (list vec)) (row col : Z)
  : option vec :=
  r ← np_index (List.length direction_map) row;
  line ← direction_map !! r;
  c ← np_index (List.length line) col;
  line !! c.

Section Phases.

(** The torque functions of the module [motion] are not among the
    sources: they are parameters. *)
Variable torque_fluctuation : list R -> R -> list R.
Variable torque_adjust :
  list R -> R -> list R -> list R -> list R -> list R -> option (list R).

(** [Fluctuation.update], the random samples being given. *)
Definition Fluctuation_update (magnitude angle : list R) (agent : Agent)
  : option Agent :=
  let i := indices agent in
  m ← gather i (mass agent);
  f ← scatter i (force_fluctuation m (std_rand_force agent) magnitude angle)
            (force agent);
  let agent := set_force f agent in
  if orientable agent then
    ir ← gather i (inertia_rot agent);
    t ← scatter i (torque_fluctuation ir (std_rand_torque agent))
                (torque agent);
    Some (set_torque t agent)
  else Some agent.

(** The statements of [Adjusting.update] after [i = agent.indices], for
    the value [i] of that expression. *)
Definition Adjusting_body (i : index) (agent : Agent) : option Agent :=
  m ← getitem i (mass agent);
  v0 ← getitem i (target_velocity agent);
  e0 ← getitem i (target_direction agent);
  v ← getitem i (velocity agent);
  values ← mapM (fun '(m, (v0, (e0, v))) =>
                   force_adjust m (tau_adj agent) v0 e0 v)
                (zip m (zip v0 (zip e0 v)));
  f ← setitem i values (force agent);
  let agent := set_force f agent in
  if orientable agent then
    ir ← getitem i (inertia_rot agent);
    ta ← getitem i (target_angle agent);
    an ← getitem i (angle agent);
    av ← getitem i (angular_velocity agent);
    values ← torque_adjust ir (tau_rot agent) ta an ta av;
    t ← setitem i values (torque agent);
    Some (set_torque t agent)
  else Some agent.

(** [Adjusting.update].  It reads [i = agent.indices], without the call
    that [Fluctuation.update], [Navigation.update] and the interaction
    loops make ([agent.indices()]): [i] is the bound method. *)
Definition Adjusting_update (agent : Agent) : option Agent :=
  let i := BoundMethod in
  Adjusting_body i agent.

End Phases.

(** [Navigation.update] for the step [step] and the merged direction
    field [direction_map] of the [Navigation] object. *)
Definition Navigation_update (step : R) (direction_map : list (list vec))
    (agent : Agent) : option Agent :=
  let i := indices agent in
  points ← gather i (position agent);
  indices ← mapM (fun p => to_indices p step) points;
  let indices := map (fun '(x, y) => (y, x)) indices in
  d ← mapM (fun '(row, col) => read_map direction_map row col) indices;
  t ← scatter i d (target_direction agent);
  Some (set_target_direction t agent).

End Algorithms.

(** ** The social force kernels of the driver *)

Module PowerLaw.

(** The default values of [crowddynamics/core/agent/agents.py]. *)
Definition k_soc : R := 1.5.
Definition tau_0 : R := 3.
Definition f_soc_ij_max : R := 2000.

(** Modelled from the spec: [force_social_circular] of the module
    [power_law] is not among the sources.  Section 4.3: the anticipatory
    social force between two disks with relative position [x_ij],
    relative velocity [v_ij] and summed radius [r_ij] (the force
    [f_soc_ij] above); the force is repulsive on [i], the partner gets
    [-f]. *)
Definition force_social_circular (agent : Agent) (i j : nat)
  : option (vec * vec) :=
  x_i ← position agent !! i;
  x_j ← position agent !! j;
  v_i ← velocity agent !! i;
  v_j ← velocity agent !! j;
  r_i ← radius agent !! i;
  r_j ← radius agent !! j;
  f ← f_soc_ij (x_i ^- x_j) (v_i ^- v_j) (r_i + r_j)
               k_soc tau_0 f_soc_ij_max;
  Some (f, vneg f).

(** Modelled from the spec: [force_social_three_circle] of the module
    [power_law] is not among the sources.  Section 4.3: the three-circle
    variant evaluates the social force on each disk pair and sums; the
    partner gets [-f]. *)
Definition force_social_three_circle (agent : Agent) (i j : nat)
  : option (vec * vec) :=
  p_i ← position agent !! i;
  ls_i ← position_ls agent !! i;
  rs_i ← position_rs agent !! i;
  p_j ← position agent !! j;
  ls_j ← position_ls agent !! j;
  rs_j ← position_rs agent !! j;
  v_i ← velocity agent !! i;
  v_j ← velocity agent !! j;
  rt_i ← r_t agent !! i;
  rsh_i ← r_s agent !! i;
  rt_j ← r_t agent !! j;
  rsh_j ← r_s agent !! j;
  f ← foldM (fun f '(xi, ri) =>
         foldM (fun f '(xj, rj) =>
           g ← f_soc_ij (xi ^- xj) (v_i ^- v_j) (ri + rj)
                        k_soc tau_0 f_soc_ij_max;
           Some (f ^+ g))
         f (zip [p_j; ls_j; rs_j] [rt_j; rsh_j; rsh_j]))
       zeros (zip [p_i; ls_i; rs_i] [rt_i; rsh_i; rsh_i]);
  Some (f, vneg f).

End PowerLaw.

(** ** The wall object of the driver *)

Module Obstacles.

(** [force_social_helbing] of [crowddynamics/core/motion/force.py]; it
    fails for [b = 0]. *)
Definition force_social_helbing (h : R) (n : vec) (a b : R) : option vec :=
  e ← rdiv (- h) b;
  Some ((a * exp e) ^* n).

(** The wall object: the end points of its segments. *)
Definition Wall : Type := list (vec * vec).

Definition wall_size (wall : Wall) : nat := List.length wall.

(** Modelled from the spec: [wall.distance_with_normal] is not among the
    sources.  Section 4.2: the distance and the normal between a point and
    the segment, as [distance_circle_line] computes them for a circle of
    radius 0. *)
Definition distance_with_normal (wall : Wall) (w : nat) (x : vec)
  : option (R * vec) :=
  p ← wall !! w;
  distance_circle_line x 0 p.

(** Modelled from the spec: [force_social_linear_wall] of the module
    [power_law] is not among the sources.  Section 4.4: the social law of a
    wall is the Helbing exponential [A exp(-h/B) n] of the skin distance,
    with the constants [A = 2000] and [B = 0.08] of [force_social_helbing]. *)
Definition force_social_linear_wall (i w : nat) (agent : Agent)
    (wall : Wall) : option vec :=
  x ← position agent !! i;
  r ← radius agent !! i;
  '(d, n) ← distance_with_normal wall w x;
  force_social_helbing (d - r) n 2000 0.08.

End Obstacles.

(** ** Example inputs *)

Module Examples.

(** An agent store with the given geometry, at rest, with no forces, and
    with one-slot neighbour buffers. *)
Definition make_agent (three : bool)
    (pos pos_ls pos_rs vel : list vec) (rad rad_t rad_s : list R)
    (sight nradius : R) (nmax : list R) : Agent :=
  {| size := List.length pos;
     three_circle := three;
     orientable := three;
     active := map (fun _ => true) pos;
     mass := map (fun _ => 70) pos;
     radius := rad;
     r_t := rad_t;
     r_s := rad_s;
     position := pos;
     position_ls := pos_ls;
     position_rs := pos_rs;
     velocity := vel;
     angle := map (fun _ => 0) pos;
     angular_velocity := map (fun _ => 0) pos;
     target_angle := map (fun _ => 0) pos;
     inertia_rot := map (fun _ => 4) pos;
     target_velocity := map (fun _ => 1) pos;
     target_direction := map (fun _ => (1, 0)) pos;
     force := map (fun _ => zeros) pos;
     torque := map (fun _ => 0) pos;
     tau_adj := 1 / 2;
     tau_rot := 1 / 5;
     mu := 120000;
     kappa := 40000;
     damping := 500;
     std_rand_force := 1 / 10;
     std_rand_torque := 1 / 10;
     sight_soc := sight;
     sight_wall := sight;
     neighbor_radius := nradius;
     neighbors := map (fun _ => [0%nat]) pos;
     neighbor_distances := map (fun m => [m]) nmax;
     neighbor_distances_max := nmax |}.

(** Two bodies on the x axis, shoulders along the axis: torso, left
    shoulder, right shoulder. *)
Definition body0_x : triple vec := ((0, 0), (-1, 0), (1, 0)).
Definition body1_x : triple vec := ((5, 0), (4, 0), (6, 0)).
Definition body_r : triple R := (1 / 2, 1 / 4, 1 / 4).

(** The same two bodies as agents 0 and 1 of a three-circle store. *)
Definition two_bodies : Agent :=
  make_agent true [(0, 0); (5, 0)] [(-1, 0); (4, 0)] [(1, 0); (6, 0)]
             [zeros; zeros] [3 / 4; 3 / 4] [1 / 2; 1 / 2] [1 / 4; 1 / 4]
             10 0 [100; 100].

(** Two circular agents of radius 1/4 at distance 10, out of the sight
    range 3 but within the neighbour radius 20; each has a one-slot
    neighbour buffer holding agent 0 at distance 100. *)
Definition far_pair : Agent :=
  make_agent false [(0, 0); (10, 0)] [] [] [zeros; zeros]
             [1 / 4; 1 / 4] [] [] 3 20 [100; 100].

(** [far_pair] after the interaction of its two agents. *)
Definition far_pair_after : Agent :=
  set_neighbors [[1%nat]; [0%nat]] [[19 / 2]; [19 / 2]] [19 / 2; 19 / 2]
                far_pair.

(** Two circular agents of radius 1/4 at rest, their centres 1/4 apart:
    they overlap by 1/4.  No neighbour lists ([neighbor_radius = 0]). *)
Definition overlapping_pair : Agent :=
  make_agent false [(0, 0); (1 / 4, 0)] [] [] [zeros; zeros]
             [1 / 4; 1 / 4] [] [] 3 0 [100; 100].

(** One circular agent of mass 70 at rest, heading for (1, 0) at speed 1. *)
Definition single : Agent :=
  make_agent false [(0, 0)] [] [] [zeros] [1 / 4] [] [] 3 0 [100].

(** [single] after a fluctuation of magnitude 1 at angle 0, and what the
    assignment of the adjusting force would make of it. *)
Definition single_fluctuated : Agent :=
  set_force [70 ^* (1 ^* (cos 0, sin 0))] single.
Definition single_adjusted : Agent :=
  set_force [(70 / (1 / 2)) ^* (1 ^* (1, 0) ^- zeros)] single_fluctuated.

(** Torque functions for a store that is not orientable: never called. *)
Definition no_torque_fluctuation (inertia : list R) (scale : R) : list R :=
  [].
Definition no_torque_adjust (inertia : list R) (tau : R)
    (phi_0 phi omega_0 omega : list R) : option (list R) := None.

(** A merged direction field on a grid of two rows and two columns, of
    step 1: the domain is the square [0, 1] x [0, 1]. *)
Definition small_map : list (list vec) :=
  [ [(1, 0); (0, 1)];
    [(-1, 0); (0, -1)] ].

(** One active agent to the right of the domain, at (5, 0), and one to
    the left of it, at (-1, 0). *)
Definition agent_right : Agent :=
  make_agent false [(5, 0)] [] [] [zeros] [1 / 4] [] [] 3 0 [100].
Definition agent_left : Agent :=
  make_agent false [(-1, 0)] [] [] [zeros] [1 / 4] [] [] 3 0 [100].

(** A wall along the x axis from (0, 0) to (4, 0), and a three-circle
    agent above it, turned so that its right shoulder is nearest to the
    wall: torso (2, 1) of radius 1/4, shoulders (7/4, 5/4) and (9/4, 3/4)
    of radius 1/8. *)
Definition floor_wall : Obstacles.Wall := [((0, 0), (4, 0))].
Definition tilted_body : Agent :=
  make_agent true [(2, 1)] [(7 / 4, 5 / 4)] [(9 / 4, 3 / 4)] [zeros]
             [1 / 2] [1 / 4] [1 / 8] 3 0 [100].

(** The social force of [floor_wall] on [tilted_body], and [tilted_body]
    after its interaction with the wall. *)
Definition wall_force : vec :=
  (2000 * exp (- (1 - 0 - 1 / 2) / 0.08)) ^* (0, 1).
Definition tilted_body_after : Agent :=
  set_torque [0 + cross2d zeros wall_force]
             (set_force [zeros ^+ wall_force] tilted_body).

(** A round wall of radius 1 around (1, 1). *)
Definition pillar : Walls.wall := Walls.RoundWall [((1, 1), 1)].

End Examples.
Import Examples.

(** ** Vocabulary of the statements *)

(** The neighbour-list state of the store. *)
Definition neighbor_state (a : Agent)
  : list (list nat) * list (list R) * list R :=
  (neighbors a, neighbor_distances a, neighbor_distances_max a).

(** [m] is the maximum entry of [l]. *)
Definition is_max (l : list R) (m : R) : Prop :=
  m ∈ l /\ forall x, x ∈ l -> x <= m.

(** The sum of an array of vectors. *)
Definition vsum (l : list vec) : vec := foldr vadd zeros l.

(** The neighbour buffer of agent [k] is the same in [a] and [a']. *)
Definition buffer_untouched (k : nat) (a a' : Agent) : Prop :=
  neighbors a' !! k = neighbors a !! k /\
  neighbor_distances a' !! k = neighbor_distances a !! k /\
  neighbor_distances_max a' !! k = neighbor_distances_max a !! k.

(** From [a] to [a'], one entry of the neighbour buffer of agent [k] was
    replaced by the agent [other]: the entry at [np.argmax] of the old
    distances, which held their maximum; the cached maximum of [a'] is the
    maximum of the new distances. *)
Definition buffer_replaced (k other : nat) (a a' : Agent) : Prop :=
  exists (row_n : list nat) (row_d : list R) (ind : nat) (h m m' : R),
    neighbors a !! k = Some row_n /\
    neighbor_distances a !! k = Some row_d /\
    argmax row_d = Some ind /\
    row_d !! ind = Some m /\ is_max row_d m /\
    (ind < List.length row_n)%nat /\
    neighbors a' !! k = Some (<[ind := other]> row_n) /\
    neighbor_distances a' !! k = Some (<[ind := h]> row_d) /\
    neighbor_distances_max a' !! k = Some m' /\
    is_max (<[ind := h]> row_d) m'.

(** What a pair interaction with force [f] on agent [i] does to the force
    [x] of agent [k]: [+ f] for [k = i], then [- f] for [k = j]. *)
Definition third_law_update (i j : nat) (f : vec) (k : nat) (x : vec) : vec :=
  let x := if decide (k = i) then x ^+ f else x in
  if decide (k = j) then x ^- f else x.

(** A social kernel gives the partner the opposite force. *)
Definition antisymmetric (kernel : Agent -> nat -> nat -> option (vec * vec))
  : Prop :=
  forall a i j f_i f_j, kernel a i j = Some (f_i, f_j) -> f_j = vneg f_i.

(** The first [n] disks of a placement are pairwise apart by more than
    the sum of their radii. *)
Definition agents_clear (radius : list R) (ps : list vec) (n : nat) : Prop :=
  forall a b p_a p_b r_a r_b,
    (a < n)%nat -> (b < n)%nat -> a <> b ->
    ps !! a = Some p_a -> ps !! b = Some p_b ->
    radius !! a = Some r_a -> radius !! b = Some r_b ->
    length (p_a ^- p_b) > r_a + r_b.

(** The first [n] disks of a placement keep a positive skin distance to
    every segment of every wall. *)
Definition walls_clear (radius : list R) (walls : list Walls.wall)
    (ps : list vec) (n : nat) : Prop :=
  forall a p_a r_a wall k,
    (a < n)%nat -> ps !! a = Some p_a -> radius !! a = Some r_a ->
    wall ∈ walls -> (k < Walls.wall_size wall)%nat ->
    exists d, Walls.distance wall k p_a = Some d /\ d - r_a > 0.

(** The quadratic of the time to collision: its discriminant
    [b^2 - a c] and its root [tau = (b - sqrt(discriminant)) / a]. *)
Definition discriminant (x_ij v_ij : vec) (r_ij : R) : R :=
  (- dot2d x_ij v_ij) ^ 2
  - dot2d v_ij v_ij * (dot2d x_ij x_ij - r_ij ^ 2).

Definition time_to_collision (x_ij v_ij : vec) (r_ij : R) : R :=
  (- dot2d x_ij v_ij - sqrt (discriminant x_ij v_ij r_ij)) / dot2d v_ij v_ij.

(** The skin distance between disk [i] of body 0 and disk [j] of body 1,
    and the unit normal between two centres (zero when they coincide). *)
Definition skin (x0 : triple vec) (r0 : triple R) (x1 : triple vec)
    (r1 : triple R) (i j : nat) : R :=
  length (tget x0 i ^- tget x1 j) - (tget r0 i + tget r1 j).

Definition unit_normal (x0 x1 : vec) : vec :=
  if decide (length (x0 ^- x1) = 0) then zeros
  else ((x0 ^- x1).1 / length (x0 ^- x1), (x0 ^- x1).2 / length (x0 ^- x1)).

(** ** Further parts of the code, and the vocabulary of their statements *)

(** The three disks of agent [i], centre and radius of torso, left
    shoulder and right shoulder, in the order in which
    [agent_agent_distance_three_circle] and [agent_wall_distance] visit
    them. *)
Definition disks (agent : Agent) (i : nat) : option (list (vec * R)) :=
  p ← position agent !! i;
  ls ← position_ls agent !! i;
  rs ← position_rs agent !! i;
  rt ← r_t agent !! i;
  rsh ← r_s agent !! i;
  Some [(p, rt); (ls, rsh); (rs, rsh)].

(** The row that [LinearWall.construct] writes for the segment of
    [floor_wall]. *)
Definition floor_row : Walls.linear_row :=
  Walls.LinearRow (0, 0) (4, 0)
    (((4, 0) ^- (0, 0)).1 / 4, ((4, 0) ^- (0, 0)).2 / 4)
    (rotate90 (((4, 0) ^- (0, 0)).1 / 4, ((4, 0) ^- (0, 0)).2 / 4))
    4.

(** ** The force driver of [source/core/force_agents.py] *)

(** The [constant] object read by [f_ij]; its class is not among the
    sources, and only the attributes that [f_ij] reads are kept. *)
Module Constant.
Record t : Type := Make {
  sight : R;
  k : R;
  tau_0 : R;
  f_max : R;
  mu : R;
  kappa : R
}.
End Constant.

(** [force[i] += f] on the local array of [f_ij]. *)
Definition add_at (i : nat) (f : vec) (force : list vec)
  : option (list vec) :=
  fi ← force !! i;
  Some (<[i := fi ^+ f]> force).

(** The body of the inner loop of [f_ij], for [i <> j]. *)
Definition f_ij_step (constant : Constant.t) (x v : list vec) (r : list R)
    (i j : nat) (force : list vec) : option (list vec) :=
  x_i ← x !! i;
  x_j ← x !! j;
  v_i ← v !! i;
  v_j ← v !! j;
  r_i ← r !! i;
  r_j ← r !! j;
  let x_ij := x_i ^- x_j in
  let v_ij := v_i ^- v_j in
  let r_ij := r_i + r_j in
  let d_ij := length x_ij in
  force ←
    (if decide (d_ij < Constant.sight constant) then
       f ← f_soc_ij x_ij v_ij r_ij (Constant.k constant)
             (Constant.tau_0 constant) (Constant.f_max constant);
       add_at i f force
     else Some force);
  let h_ij := r_ij - d_ij in
  if decide (h_ij > 0) then
    n_ij ← vdiv x_ij d_ij;
    let t_ij := rotate270 n_ij in
    add_at i (f_c_ij h_ij n_ij v_ij t_ij (Constant.mu constant)
                     (Constant.kappa constant)) force
  else Some force.

Definition f_ij (constant : Constant.t) (agent : Agent)
  : option (list vec) :=
  let force := replicate (size agent) zeros in
  let x := position agent in
  let v := velocity agent in
  let r := radius agent in
  foldM (fun force i =>
    foldM (fun force j =>
      if decide (i = j) then Some force
      else f_ij_step constant x v r i j force)
    force (seq 0 (size agent)))
  force (seq 0 (size agent)).

(** What the body of [f_ij] adds to [force[i]] on account of agent [j]:
    the social force within the sight range, and the contact force of
    overlapping agents. *)
Definition pair_force (constant : Constant.t) (x v : list vec)
    (r : list R) (i j : nat) : option vec :=
  x_i ← x !! i;
  x_j ← x !! j;
  v_i ← v !! i;
  v_j ← v !! j;
  r_i ← r !! i;
  r_j ← r !! j;
  let x_ij := x_i ^- x_j in
  let v_ij := v_i ^- v_j in
  let r_ij := r_i + r_j in
  let d_ij := length x_ij in
  f_soc ←
    (if decide (d_ij < Constant.sight constant) then
       f_soc_ij x_ij v_ij r_ij (Constant.k constant)
         (Constant.tau_0 constant) (Constant.f_max constant)
     else Some zeros);
  f_c ←
    (if decide (r_ij - d_ij > 0) then
       n_ij ← vdiv x_ij d_ij;
       Some (f_c_ij (r_ij - d_ij) n_ij v_ij (rotate270 n_ij)
                    (Constant.mu constant) (Constant.kappa constant))
     else Some zeros);
  Some (f_soc ^+ f_c).

(** The pair force as a total function: zero for [i = j], which [f_ij]
    skips. *)
Definition pair_force_total (constant : Constant.t) (x v : list vec)
    (r : list R) (i j : nat) : vec :=
  if decide (i = j) then zeros
  else default zeros (pair_force constant x v r i j).

(** Two three-circle agents in the same place, with the disks of
    [two_bodies]. *)
Definition coincident_bodies : Agent :=
  make_agent true [(0, 0); (0, 0)] [(-1, 0); (-1, 0)] [(1, 0); (1, 0)]
             [zeros; zeros] [3 / 4; 3 / 4] [1 / 2; 1 / 2] [1 / 4; 1 / 4]
             10 0 [100; 100].

(** Two circular agents of radius 1/4 in the same place. *)
Definition coincident_pair : Agent :=
  make_agent false [(0, 0); (0, 0)] [] [] [zeros; zeros]
             [1 / 4; 1 / 4] [] [] 3 0 [100; 100].

(** The constants of [crowddynamics/core/agent/agents.py] as a [constant]
    object. *)
Definition default_constant : Constant.t :=
  Constant.Make 3 1.5 3 2000 120000 40000.

(** ** Direction fields: [crowddynamics/core/steering/navigation.py] *)

(** One cell of [direction_map]: [u] and [v] are the entries of the two
    arrays of [np.gradient(dmap)] at the cell; [l[l == 0] = 1.0] guards the
    division. *)
Definition direction_map_cell (u v : R) : option vec :=
  let l := length (u, v) in
  let l := if decide (l = 0) then 1 else l in
  x ← rdiv v l;
  y ← rdiv u l;
  Some (x, y).

(** The body of the loops of [merge_dir_maps] for one cell: [dmap],
    [dir_map1] and [dir_map2] are the entries at the cell.  The power
    [value ** (x / radius)] of a positive [value] is [Rpower]. *)
Definition merge_dir_maps_cell (dmap : R) (dir_map1 dir_map2 : vec)
    (radius value : R) : option vec :=
  let x := Rabs dmap in
  if decide (x < 1.1 * radius) then
    e ← rdiv x radius;
    let k := Rpower value e in
    Some ((- k) ^* dir_map1 ^+ (1 - k) ^* dir_map2)
  else Some dir_map2.

(** ** Overlap tests: [crowddynamics/core/interactions/distance.py] *)

(** [overlapping_circle_circle]: the loop returns at the first agent that
    overlaps the tested disk. *)
Fixpoint overlapping_circle_circle (agent : Agent) (indices : list nat)
    (x2 : vec) (r2 : R) : option bool :=
  match indices with
  | [] => Some false
  | i :: indices' =>
      p ← position agent !! i;
      r ← radius agent !! i;
      '(h, _) ← distance_circle_circle p r x2 r2;
      if decide (h < 0) then Some true
      else overlapping_circle_circle agent indices' x2 r2
  end.

(** ** The buffers of [src/io/hdfstore.py] *)

(** A [ListBuffer]: the list and the attributes [start] and [end]. *)
Record ListBuffer (A : Type) : Type := MkListBuffer {
  items : list A;
  start : Z;
  end_ : Z
}.
Arguments MkListBuffer {A} _ _ _.
Arguments items {A} _.
Arguments start {A} _.
Arguments end_ {A} _.

(** [ListBuffer(start, end)], [append] and [clear]. *)
Definition ListBuffer_init {A : Type} (start end_ : Z) : ListBuffer A :=
  MkListBuffer [] start end_.

Definition ListBuffer_append {A : Type} (p_object : A) (b : ListBuffer A)
  : ListBuffer A :=
  MkListBuffer (items b ++ [p_object]) (start b) (end_ b + 1).

Definition ListBuffer_clear {A : Type} (b : ListBuffer A) : ListBuffer A :=
  MkListBuffer [] (end_ b) (end_ b).

(** A call of a method of a [ListBuffer], and a sequence of calls. *)
Inductive buffer_call (A : Type) : Type :=
| Append (p_object : A)
| Clear.
Arguments Append {A} _.
Arguments Clear {A}.

Definition buffer_step {A : Type} (b : ListBuffer A) (c : buffer_call A)
  : ListBuffer A :=
  match c with
  | Append x => ListBuffer_append x b
  | Clear => ListBuffer_clear b
  end.

(** The pairs of a list, each element with the ones after it, in the order
    in which the loops of [agent_agent] visit them. *)
Fixpoint pairs (l : list nat) : list (nat * nat) :=
  match l with
  | [] => []
  | i :: l' => map (pair i) l' ++ pairs l'
  end.

(** ** Random directions: [crowd_dynamics/parameters.py] *)

(** [random_unit_vector], the array [orientation] being the sample drawn
    by [np.random.uniform(0, 2 * np.pi, size=size)]. *)
Definition random_unit_vector (orientation : list R) : list vec :=
  map (fun phi => (cos phi, sin phi)) orientation.

(* ================================================================== *)
(** * Theorems *)

(** ** Real arithmetic helpers *)

Lemma length_nonneg (a : vec) : 0 <= length a.
Proof. apply sqrt_pos. Qed.

Lemma length_eq (a : vec) (c : R) :
  0 <= c -> a.1 * a.1 + a.2 * a.2 = c * c -> length a = c.
Proof. intros Hc E. unfold length. rewrite E. now apply sqrt_square. Qed.

Lemma length_zero_iff (a : vec) : length a = 0 <-> a = zeros.
Proof.
  destruct a as [x y]; unfold length, zeros; simpl. split.
  - intros H. apply sqrt_eq_0 in H; [|nra].
    assert (x = 0) by nra. assert (y = 0) by nra. now subst.
  - intros [= -> ->]. replace (0 * 0 + 0 * 0) with 0 by lra. apply sqrt_0.
Qed.

Lemma length_sq (a : vec) : length a * length a = a.1 * a.1 + a.2 * a.2.
Proof. unfold length. apply sqrt_sqrt. nra. Qed.

Lemma length_pos (a : vec) : a <> zeros -> 0 < length a.
Proof.
  intros Ha. destruct (length_nonneg a) as [H|H]; [exact H|].
  exfalso. apply Ha. now apply length_zero_iff.
Qed.

Lemma vsub_zero_iff (a b : vec) : a ^- b = zeros <-> a = b.
Proof.
  destruct a as [a1 a2], b as [b1 b2]; unfold vsub, zeros; simpl. split.
  - intros [= H1 H2]. f_equal; lra.
  - intros [= -> ->]. f_equal; lra.
Qed.

Lemma length_vsub_zero (a b : vec) : length (a ^- b) = 0 -> a = b.
Proof.
  intros H. apply (proj1 (length_zero_iff _)) in H.
  now apply (proj1 (vsub_zero_iff _ _)) in H.
Qed.

Lemma length_vsub_self (a : vec) : length (a ^- a) = 0.
Proof. apply length_zero_iff, vsub_zero_iff. reflexivity. Qed.

Lemma rdiv_Some (a d : R) : d <> 0 -> rdiv a d = Some (a / d).
Proof. intros Hd. unfold rdiv. now rewrite decide_False. Qed.

Lemma rdiv_None (a d : R) : d = 0 -> rdiv a d = None.
Proof. intros Hd. unfold rdiv. now rewrite decide_True. Qed.

Lemma vdiv_Some (x : vec) (d : R) :
  d <> 0 -> vdiv x d = Some (x.1 / d, x.2 / d).
Proof. intros Hd. unfold vdiv. now rewrite decide_False. Qed.

(** ** Geometry kernels *)

Lemma distance_circle_circle_eval (x0 : vec) (r0 : R) (x1 : vec) (r1 c : R) :
  0 < c ->
  (x0.1 - x1.1) * (x0.1 - x1.1) + (x0.2 - x1.2) * (x0.2 - x1.2) = c * c ->
  distance_circle_circle x0 r0 x1 r1 =
    Some (c - (r0 + r1), ((x0.1 - x1.1) / c, (x0.2 - x1.2) / c)).
Proof.
  intros Hc E. unfold distance_circle_circle.
  rewrite (length_eq (x0 ^- x1) c) by (simpl; lra).
  rewrite decide_False by lra. rewrite vdiv_Some by lra. reflexivity.
Qed.

Lemma distance_circle_circle_total (x0 : vec) (r0 : R) (x1 : vec) (r1 : R) :
  is_Some (distance_circle_circle x0 r0 x1 r1).
Proof.
  unfold distance_circle_circle. case_decide as Hd; simpl; [eauto|].
  rewrite vdiv_Some by exact Hd. simpl. eauto.
Qed.

(** The unit tangent of a proper segment, and the projections onto it. *)
Lemma tangent_dot (d : vec) :
  length d <> 0 ->
  dot2d (d.1 / length d, d.2 / length d) d = length d.
Proof.
  intros Hl. unfold dot2d; simpl. pose proof (length_sq d) as Hs.
  field_simplify_eq; [|exact Hl]. nra.
Qed.

Lemma distance_circle_line_total (x : vec) (r : R) (p : vec * vec) :
  p.1 <> p.2 -> is_Some (distance_circle_line x r p).
Proof.
  intros Hp. unfold distance_circle_line.
  assert (Hl : length (p.2 ^- p.1) <> 0).
  { intros H. apply length_vsub_zero in H. auto. }
  rewrite (vdiv_Some (p.2 ^- p.1)) by exact Hl.
  cbn [mbind option_bind fst snd].
  set (d := p.2 ^- p.1) in *. set (l := length d) in *.
  pose proof (tangent_dot d Hl) as Ht. fold l in Ht.
  set (t := ((d.1 / l)%R, (d.2 / l)%R)) in *.
  assert (Hd1 : dot2d t (x ^- p.2) = dot2d t (x ^- p.1) - l).
  { rewrite <- Ht. unfold dot2d, d, vsub; simpl. lra. }
  case_decide as H1.
  - assert (Hq : length (x ^- p.1) <> 0).
    { intros H. apply (proj1 (length_zero_iff _)) in H.
      rewrite Hd1 in H1. rewrite H in H1.
      unfold dot2d, zeros in H1; simpl in H1. lra. }
    rewrite vdiv_Some by exact Hq. simpl. eauto.
  - case_decide as H2.
    + assert (Hq : length (x ^- p.2) <> 0).
      { intros H. apply (proj1 (length_zero_iff _)) in H.
        assert (Hd0 : dot2d t (x ^- p.1) = dot2d t (x ^- p.2) + l) by lra.
        rewrite Hd0 in H2. rewrite H in H2.
        unfold dot2d, zeros in H2; simpl in H2. lra. }
      rewrite vdiv_Some by exact Hq. simpl. eauto.
    + simpl. eauto.
Qed.

Lemma sign_0 : sign 0 = 0.
Proof. unfold sign. rewrite !decide_False by lra. reflexivity. Qed.

(** ** The minimum over the disk pairs *)

Lemma distance_circle_circle_value (x0 : vec) (r0 : R) (x1 : vec) (r1 : R) :
  distance_circle_circle x0 r0 x1 r1
  = Some (length (x0 ^- x1) - (r0 + r1), unit_normal x0 x1).
Proof.
  unfold distance_circle_circle, unit_normal. case_decide as Hd; [reflexivity|].
  now rewrite vdiv_Some.
Qed.

(** [distance_three_circle] returns the minimum of the nine skin distances,
    attained at the disks [i_min] and [j_min] (the first pair attaining it),
    with the unit normal between these two disks. *)
Lemma distance_three_circle_loop_min (x0 : triple vec) (r0 : triple R)
    (x1 : triple vec) (r1 : triple R) :
  exists st h,
    distance_three_circle_loop x0 r0 x1 r1 = Some st /\
    h_min st = Some h /\
    (i_min st < 3)%nat /\ (j_min st < 3)%nat /\
    h = skin x0 r0 x1 r1 (i_min st) (j_min st) /\
    normal st = unit_normal (tget x0 (i_min st)) (tget x1 (j_min st)) /\
    forall i j, (i < 3)%nat -> (j < 3)%nat -> h <= skin x0 r0 x1 r1 i j.
Proof.
  unfold distance_three_circle_loop, enumerate_zip, min3_init.
  cbn [foldM tget]. rewrite !distance_circle_circle_value.
  cbn [mbind option_bind h_min below_min].
  assert (Hall : forall h : R,
    h <= skin x0 r0 x1 r1 0 0 -> h <= skin x0 r0 x1 r1 0 1 ->
    h <= skin x0 r0 x1 r1 0 2 -> h <= skin x0 r0 x1 r1 1 0 ->
    h <= skin x0 r0 x1 r1 1 1 -> h <= skin x0 r0 x1 r1 1 2 ->
    h <= skin x0 r0 x1 r1 2 0 -> h <= skin x0 r0 x1 r1 2 1 ->
    h <= skin x0 r0 x1 r1 2 2 ->
    forall i j, (i < 3)%nat -> (j < 3)%nat -> h <= skin x0 r0 x1 r1 i j).
  { intros h ? ? ? ? ? ? ? ? ? i j Hi Hj.
    destruct i as [|[|[|i]]]; [| | |lia];
      destruct j as [|[|[|j]]]; solve [assumption | lia]. }
  unfold skin in Hall. cbn [tget] in Hall.
  repeat match goal with
  | |- context [bool_decide ?P] =>
      destruct (decide P);
      [rewrite (bool_decide_eq_true_2 P) by assumption
      |rewrite (bool_decide_eq_false_2 P) by assumption];
      cbn [mbind option_bind h_min below_min]
  end;
  eexists _, _; (split; [reflexivity|]); cbn [h_min normal i_min j_min];
  (split; [reflexivity|]); (split; [lia|]); (split; [lia|]);
  unfold skin; cbn [tget];
  (split; [reflexivity|]); (split; [reflexivity|]);
  apply Hall; lra.
Qed.

Lemma distance_three_circle_total (x0 : triple vec) (r0 : triple R)
    (x1 : triple vec) (r1 : triple R) :
  is_Some (distance_three_circle x0 r0 x1 r1).
Proof.
  unfold distance_three_circle.
  destruct (distance_three_circle_loop_min x0 r0 x1 r1) as (st & h & -> & _).
  simpl. eauto.
Qed.

(** At an end point of a proper segment the projection [l_t] is exactly
    the length [l_w] of the segment: the test [l_t > l_w] of
    [distance_circle_line] is taken at equality there, and the branch it
    guards divides the zero vector by its length. *)
Lemma end_point_threshold (p : vec * vec) :
  p.1 <> p.2 ->
  - dot2d (unit_normal p.2 p.1) (p.1 ^- p.2)
  - dot2d (unit_normal p.2 p.1) (p.1 ^- p.1)
  = length (p.2 ^- p.1) /\
  vdiv (p.1 ^- p.1) (length (p.1 ^- p.1)) = None.
Proof.
  intros Hp.
  assert (Hl : length (p.2 ^- p.1) <> 0).
  { intros H. apply length_vsub_zero in H. auto. }
  pose proof (tangent_dot _ Hl) as Ht.
  unfold unit_normal. rewrite decide_False by exact Hl. split.
  - replace (dot2d ((p.2 ^- p.1).1 / length (p.2 ^- p.1),
                    (p.2 ^- p.1).2 / length (p.2 ^- p.1)) (p.1 ^- p.2))
      with (- dot2d ((p.2 ^- p.1).1 / length (p.2 ^- p.1),
                     (p.2 ^- p.1).2 / length (p.2 ^- p.1)) (p.2 ^- p.1))
      by (unfold dot2d, vsub; cbn [fst snd]; lra).
    replace (dot2d ((p.2 ^- p.1).1 / length (p.2 ^- p.1),
                    (p.2 ^- p.1).2 / length (p.2 ^- p.1)) (p.1 ^- p.1))
      with 0 by (unfold dot2d, vsub; cbn [fst snd]; lra).
    rewrite Ht. lra.
  - unfold vdiv. rewrite decide_True by apply length_vsub_self. reflexivity.
Qed.

(** Two agents in the same place: the torsos coincide and are the pair of
    least skin distance, so the normal [x / d] of the in-lined three-circle
    distance is nan. *)
Lemma coincident_bodies_distance :
  agent_agent_distance_three_circle coincident_bodies 0 1 = None.
Proof.
  unfold agent_agent_distance_three_circle.
  simpl position. simpl position_ls. simpl position_rs.
  simpl r_t. simpl r_s.
  cbn [lookup list_lookup mbind option_bind zip zip_with foldM].
  rewrite (length_eq ((0, 0) ^- (0, 0)) 0) by (simpl; lra).
  rewrite (length_eq ((0, 0) ^- (-1, 0)) 1) by (simpl; lra).
  rewrite (length_eq ((0, 0) ^- (1, 0)) 1) by (simpl; lra).
  rewrite (length_eq ((-1, 0) ^- (0, 0)) 1) by (simpl; lra).
  rewrite (length_eq ((-1, 0) ^- (-1, 0)) 0) by (simpl; lra).
  rewrite (length_eq ((-1, 0) ^- (1, 0)) 2) by (simpl; lra).
  rewrite (length_eq ((1, 0) ^- (0, 0)) 1) by (simpl; lra).
  rewrite (length_eq ((1, 0) ^- (-1, 0)) 2) by (simpl; lra).
  rewrite (length_eq ((1, 0) ^- (1, 0)) 0) by (simpl; lra).
  cbn [mbind option_bind below_min mp_relative_distance].
  do 8 (rewrite bool_decide_eq_false_2 by lra;
        cbn [mbind option_bind below_min mp_relative_distance]).
  cbn [mp_normal]. unfold vdiv. rewrite decide_True by reflexivity.
  reflexivity.
Qed.

(** Two circular agents in the same place: the normal [n = x / d] of
    [agent_agent_interaction] is nan, whatever the social kernels are. *)
Lemma coincident_pair_interaction
    (force_social_circular force_social_three_circle :
       Agent -> nat -> nat -> option (vec * vec)) :
  agent_agent_interaction force_social_circular force_social_three_circle
    0 1 coincident_pair = None.
Proof.
  unfold agent_agent_interaction. simpl position. simpl radius.
  cbn [lookup list_lookup mbind option_bind].
  rewrite (length_vsub_self (0, 0)). simpl sight_soc.
  rewrite decide_True by lra.
  unfold agent_agent_forces. simpl three_circle. cbn iota.
  destruct (force_social_circular coincident_pair 0%nat 1%nat)
    as [[f_i f_j]|]; [|reflexivity].
  cbn [mbind option_bind]. unfold vdiv.
  rewrite decide_True by reflexivity. reflexivity.
Qed.

(** C7: not every distance computation has a fallback for coincident
    points.  [distance_circle_circle] has one: for coincident centres it
    returns [h = -(r0 + r1)] and the zero normal.  [distance_circle_line]
    has none.  At an end point of a proper segment its test [l_t > l_w] is
    taken at equality, and the branch behind it divides the zero vector by
    its length; in the binary64 arithmetic of the code, on the segment
    from (0, 0) to (1, 5) and with the circle centred on the first end
    point, the rounded [l_t] exceeds the rounded [l_w], that branch is
    taken, and both components of the normal are nan.  A segment whose
    end points coincide gives nan at every query point.  The in-lined
    [agent_agent_distance_three_circle] and the normal [n = x / d] of
    [agent_agent_interaction] divide by [d] without a guard as well: for
    two agents in the same place the normal is nan. *)
Theorem coincident_points_missing_fallback :
  (forall x r0 r1,
     distance_circle_circle x r0 x r1 = Some (- (r0 + r1), zeros)) /\
  (forall p, p.1 <> p.2 ->
     - dot2d (unit_normal p.2 p.1) (p.1 ^- p.2)
     - dot2d (unit_normal p.2 p.1) (p.1 ^- p.1)
     = length (p.2 ^- p.1) /\
     vdiv (p.1 ^- p.1) (length (p.1 ^- p.1)) = None) /\
  (PrimFloat.ltb F64.slanted_l_w F64.slanted_l_t = true /\
   PrimFloat.is_nan F64.slanted_end_point.2.1 = true /\
   PrimFloat.is_nan F64.slanted_end_point.2.2 = true) /\
  (forall x r p0, distance_circle_line x r (p0, p0) = None) /\
  agent_agent_distance_three_circle coincident_bodies 0 1 = None /\
  (forall force_social_circular force_social_three_circle,
     agent_agent_interaction force_social_circular
       force_social_three_circle 0 1 coincident_pair = None).
Proof.
  split; [|split; [|split; [|split; [|split]]]].
  - intros x r0 r1. unfold distance_circle_circle.
    rewrite length_vsub_self. rewrite decide_True by reflexivity.
    cbn [mbind option_bind]. do 2 f_equal. lra.
  - exact end_point_threshold.
  - vm_compute. auto.
  - intros x r p0. unfold distance_circle_line. cbn [fst snd].
    rewrite (length_vsub_self p0).
    replace (vdiv (p0 ^- p0) 0) with (@None vec); [reflexivity|].
    unfold vdiv. now rewrite decide_True by reflexivity.
  - exact coincident_bodies_distance.
  - exact coincident_pair_interaction.
Qed.

(** What [distance_three_circle] returns, for every input: the minimum
    [h] of the nine skin distances, attained at disk [i] of body 0 and disk
    [j] of body 1; the unit normal [n] between these two disks; the first
    moment arm [x0[i] + r0[i] n - x0[0]]; and as second moment arm
    [x0[j] - r1[j] n - x1[0]], which starts from disk [j] of body 0. *)
Lemma distance_three_circle_result (x0 : triple vec) (r0 : triple R)
    (x1 : triple vec) (r1 : triple R) :
  exists i j n,
    (i < 3)%nat /\ (j < 3)%nat /\
    n = unit_normal (tget x0 i) (tget x1 j) /\
    distance_three_circle x0 r0 x1 r1
    = Some (Some (skin x0 r0 x1 r1 i j), n,
            tget x0 i ^+ tget r0 i ^* n ^- tget x0 0,
            tget x0 j ^- tget r1 j ^* n ^- tget x1 0) /\
    forall i' j', (i' < 3)%nat -> (j' < 3)%nat ->
                  skin x0 r0 x1 r1 i j <= skin x0 r0 x1 r1 i' j'.
Proof.
  destruct (distance_three_circle_loop_min x0 r0 x1 r1)
    as (st & h & Hst & Hh & Hi & Hj & Hs & Hn & Hmin).
  exists (i_min st), (j_min st), (normal st).
  unfold distance_three_circle. rewrite Hst. cbn [mbind option_bind].
  rewrite Hh, <- Hs. auto 10.
Qed.

Ltac dcc_eval x0 r0 x1 r1 c :=
  rewrite (distance_circle_circle_eval x0 r0 x1 r1 c) by (simpl; lra).

Ltac min_step := cbn [mbind option_bind h_min below_min].
Ltac below_true :=
  rewrite bool_decide_eq_true_2 by lra.
Ltac below_false :=
  rewrite bool_decide_eq_false_2 by lra.

(** C2, at the bodies [body0_x] and [body1_x]: the minimum 5/2 is attained
    by the right shoulder of body 0 and the left shoulder of body 1;
    [distance_three_circle] returns the second moment arm (-23/4, 0), taken
    from the left shoulder of body 0, where the documented formula
    [x1 - r1 n - x1_torso] gives (-3/4, 0). *)
Theorem distance_three_circle_second_moment_arm :
  distance_three_circle body0_x body_r body1_x body_r
    = Some (Some (5 / 2), (-1, 0), (3 / 4, 0), (-23 / 4, 0)) /\
  tget body1_x 1 ^- tget body_r 1 ^* (-1, 0) ^- tget body1_x 0 = (-3 / 4, 0) /\
  (-23 / 4, 0) <> ((-3 / 4, 0) : vec).
Proof.
  split; [|split].
  - unfold distance_three_circle, distance_three_circle_loop, enumerate_zip,
      body0_x, body1_x, body_r, min3_init.
    cbn [foldM tget fst snd].
    dcc_eval (0, 0) (1 / 2) (5, 0) (1 / 2) 5.
    dcc_eval (0, 0) (1 / 2) (4, 0) (1 / 4) 4.
    dcc_eval (0, 0) (1 / 2) (6, 0) (1 / 4) 6.
    dcc_eval (-1, 0) (1 / 4) (5, 0) (1 / 2) 6.
    dcc_eval (-1, 0) (1 / 4) (4, 0) (1 / 4) 5.
    dcc_eval (-1, 0) (1 / 4) (6, 0) (1 / 4) 7.
    dcc_eval (1, 0) (1 / 4) (5, 0) (1 / 2) 4.
    dcc_eval (1, 0) (1 / 4) (4, 0) (1 / 4) 3.
    dcc_eval (1, 0) (1 / 4) (6, 0) (1 / 4) 5.
    min_step. below_true. min_step.
    do 5 (below_false; min_step).
    below_true. min_step. below_false.
    cbn [h_min normal i_min j_min tget fst snd].
    unfold vadd, vsub, smul; simpl.
    repeat f_equal; lra.
  - unfold body1_x, body_r, vsub, smul; simpl. f_equal; lra.
  - intros [= H]. lra.
Qed.

(** The in-lined variant, at the same two bodies: its second moment arm is
    the documented one, (-3/4, 0), taken from the left shoulder of body 1. *)
Lemma agent_agent_distance_three_circle_two_bodies :
  agent_agent_distance_three_circle two_bodies 0 1
  = Some ((-1, 0), Some (5 / 2), (3 / 4, 0), (-3 / 4, 0)).
Proof.
  unfold agent_agent_distance_three_circle.
  simpl position. simpl position_ls. simpl position_rs.
  simpl r_t. simpl r_s.
  cbn [lookup list_lookup mbind option_bind zip zip_with foldM].
  rewrite (length_eq ((0, 0) ^- (5, 0)) 5) by (simpl; lra).
  rewrite (length_eq ((0, 0) ^- (4, 0)) 4) by (simpl; lra).
  rewrite (length_eq ((0, 0) ^- (6, 0)) 6) by (simpl; lra).
  rewrite (length_eq ((-1, 0) ^- (5, 0)) 6) by (simpl; lra).
  rewrite (length_eq ((-1, 0) ^- (4, 0)) 5) by (simpl; lra).
  rewrite (length_eq ((-1, 0) ^- (6, 0)) 7) by (simpl; lra).
  rewrite (length_eq ((1, 0) ^- (5, 0)) 4) by (simpl; lra).
  rewrite (length_eq ((1, 0) ^- (4, 0)) 3) by (simpl; lra).
  rewrite (length_eq ((1, 0) ^- (6, 0)) 5) by (simpl; lra).
  cbn [mbind option_bind below_min mp_relative_distance].
  rewrite bool_decide_eq_true_2 by lra.
  cbn [mbind option_bind below_min mp_relative_distance].
  do 5 (rewrite bool_decide_eq_false_2 by lra;
        cbn [mbind option_bind below_min mp_relative_distance]).
  rewrite bool_decide_eq_true_2 by lra.
  cbn [mbind option_bind below_min mp_relative_distance].
  rewrite bool_decide_eq_false_2 by lra.
  cbn [mbind option_bind mp_normal].
  rewrite (vdiv_Some ((1, 0) ^- (4, 0)) 3) by lra.
  cbn [mbind option_bind mp_positions mp_radius mp_relative_distance
       fst snd].
  unfold vadd, vsub, smul; simpl.
  repeat f_equal; lra.
Qed.

(** ** The interaction driver *)

Lemma add_force_Some (i : nat) (f : vec) (a a' : Agent) :
  add_force i f a = Some a' ->
  exists fi, force a !! i = Some fi /\
    a' = set_force (<[i := fi ^+ f]> (force a)) a.
Proof.
  unfold add_force. intros H.
  destruct (force a !! i) as [fi|]; [|discriminate].
  simpl in H. injection H as <-. eauto.
Qed.

Lemma add_torque_Some (i : nat) (m : R) (a a' : Agent) :
  add_torque i m a = Some a' ->
  exists ti, torque a !! i = Some ti /\
    a' = set_torque (<[i := ti + m]> (torque a)) a.
Proof.
  unfold add_torque. intros H.
  destruct (torque a !! i) as [ti|]; [|discriminate].
  simpl in H. injection H as <-. eauto.
Qed.

(** What [neighbor_insert] does: nothing, or one replacement in the row of
    agent [i], at the first index of a maximal distance. *)
Lemma neighbor_insert_Some (i j : nat) (h : R) (a a' : Agent) :
  neighbor_insert i j h a = Some a' ->
  a' = a \/
  exists m row_d ind row_n m',
    neighbor_distances_max a !! i = Some m /\ h < m /\
    neighbor_distances a !! i = Some row_d /\
    argmax row_d = Some ind /\
    neighbors a !! i = Some row_n /\ (ind < List.length row_n)%nat /\
    amax (<[ind := h]> row_d) = Some m' /\
    a' = set_neighbors (<[i := <[ind := j]> row_n]> (neighbors a))
                       (<[i := <[ind := h]> row_d]> (neighbor_distances a))
                       (<[i := m']> (neighbor_distances_max a)) a.
Proof.
  unfold neighbor_insert. intros H.
  destruct (neighbor_distances_max a !! i) as [m|] eqn:Em; [|discriminate].
  cbn [mbind option_bind] in H.
  destruct (decide (h < m)) as [Hlt|Hge]; [|left; congruence].
  destruct (neighbor_distances a !! i) as [row_d|] eqn:Ed; [|discriminate].
  cbn [mbind option_bind] in H.
  destruct (argmax row_d) as [ind|] eqn:Ea; [|discriminate].
  cbn [mbind option_bind] in H.
  destruct (neighbors a !! i) as [row_n|] eqn:En; [|discriminate].
  cbn [mbind option_bind] in H. unfold store in H.
  destruct (decide (ind < List.length row_n)%nat) as [Hi|]; [|discriminate].
  cbn [mbind option_bind] in H.
  destruct (amax (<[ind := h]> row_d)) as [m'|] eqn:Emax; [|discriminate].
  cbn [mbind option_bind] in H. injection H as <-.
  right. exists m, row_d, ind, row_n, m'. repeat split; auto.
Qed.

Lemma neighbor_insert_frame (i j : nat) (h : R) (a a' : Agent) :
  neighbor_insert i j h a = Some a' ->
  force a' = force a /\ torque a' = torque a.
Proof.
  intros H. apply neighbor_insert_Some in H as [->|H]; [auto|].
  destruct H as (m & row_d & ind & row_n & m' & _ & _ & _ & _ & _ & _ & _ & ->).
  split; reflexivity.
Qed.

Section InteractionFacts.

Variable force_social_circular : Agent -> nat -> nat -> option (vec * vec).
Variable force_social_three_circle :
  Agent -> nat -> nat -> option (vec * vec).

Local Abbreviation agent_agent_forces :=
  (agent_agent_forces force_social_circular force_social_three_circle).
Local Abbreviation agent_agent_interaction :=
  (agent_agent_interaction force_social_circular force_social_three_circle).

(** The force block writes [force] and [torque] only. *)
Lemma agent_agent_forces_frame (i j : nat) (x : vec) (d h : R)
    (a a' : Agent) (h' : R) :
  agent_agent_forces i j x d h a = Some (a', h') ->
  neighbor_state a' = neighbor_state a /\
  neighbor_radius a' = neighbor_radius a.
Proof.
  unfold Interactions.agent_agent_forces. intros H.
  match type of H with
  | (?c ≫= _) = _ => destruct c as [[[[[[n h0] mi] mj] fi] fj]|];
                       [|discriminate]
  end.
  cbn [mbind option_bind] in H.
  match type of H with
  | (?c ≫= _) = _ => destruct c as [[fi' fj']|]; [|discriminate]
  end.
  cbn [mbind option_bind] in H.
  destruct (add_force i fi' a) as [a1|] eqn:E1; [|discriminate].
  cbn [mbind option_bind] in H.
  destruct (add_force j fj' a1) as [a2|] eqn:E2; [|discriminate].
  cbn [mbind option_bind] in H.
  apply add_force_Some in E1 as (x1 & _ & ->).
  apply add_force_Some in E2 as (x2 & _ & ->).
  match type of H with
  | (?c ≫= _) = _ => destruct c as [a3|] eqn:E3; [|discriminate]
  end.
  cbn [mbind option_bind] in H. injection H as <- <-.
  cbn [orientable set_force update_agent] in E3.
  destruct (orientable a).
  - match type of E3 with
    | (?c ≫= _) = _ => destruct c as [a4|] eqn:E4; [|discriminate]
    end.
    cbn [mbind option_bind] in E3.
    apply add_torque_Some in E4 as (t1 & _ & ->).
    apply add_torque_Some in E3 as (t2 & _ & ->).
    split; reflexivity.
  - injection E3 as <-. split; reflexivity.
Qed.

(** C4, as the code has it: for a pair whose centre distance exceeds
    [sight_soc], [agent_agent_interaction] leaves every force and every
    torque unchanged.  The neighbour lists are maintained outside the sight
    test: the whole store is unchanged when [neighbor_radius <= 0] or the
    skin distance [h = d - (r_i + r_j)] is not below [neighbor_radius], and
    also when [h] is below neither agent's [neighbor_distances_max]. *)
Theorem out_of_sight_frame (i j : nat) (agent : Agent)
    (x_i x_j : vec) (r_i r_j : R) :
  position agent !! i = Some x_i ->
  position agent !! j = Some x_j ->
  radius agent !! i = Some r_i ->
  radius agent !! j = Some r_j ->
  length (x_i ^- x_j) > sight_soc agent ->
  (forall agent', agent_agent_interaction i j agent = Some agent' ->
     force agent' = force agent /\ torque agent' = torque agent) /\
  (~ (neighbor_radius agent > 0 /\
      length (x_i ^- x_j) - (r_i + r_j) < neighbor_radius agent) ->
   agent_agent_interaction i j agent = Some agent) /\
  (forall m_i m_j,
     neighbor_distances_max agent !! i = Some m_i ->
     neighbor_distances_max agent !! j = Some m_j ->
     ~ length (x_i ^- x_j) - (r_i + r_j) < m_i ->
     ~ length (x_i ^- x_j) - (r_i + r_j) < m_j ->
     agent_agent_interaction i j agent = Some agent).
Proof.
  intros Hxi Hxj Hri Hrj Hd.
  unfold Interactions.agent_agent_interaction.
  rewrite Hxi, Hxj, Hri, Hrj. cbn [mbind option_bind].
  rewrite decide_False by lra. cbn [mbind option_bind].
  split; [|split].
  - intros agent' H. case_decide as Hn.
    + destruct (neighbor_insert i j _ agent) as [a1|] eqn:E1; [|discriminate].
      cbn [mbind option_bind] in H.
      apply neighbor_insert_frame in E1 as [Hf1 Ht1].
      apply neighbor_insert_frame in H as [Hf2 Ht2].
      split; congruence.
    + injection H as <-. auto.
  - intros Hn. now rewrite decide_False.
  - intros m_i m_j Hmi Hmj Hi Hj. case_decide; [|reflexivity].
    unfold neighbor_insert. rewrite Hmi. cbn [mbind option_bind].
    rewrite decide_False by exact Hi. cbn [mbind option_bind].
    rewrite Hmj. cbn [mbind option_bind].
    now rewrite decide_False.
Qed.

End InteractionFacts.

Lemma far_pair_distance : length ((0, 0) ^- (10, 0)) = 10.
Proof. apply length_eq; simpl; lra. Qed.

Lemma far_pair_interaction :
  agent_agent_interaction PowerLaw.force_social_circular
    PowerLaw.force_social_three_circle 0 1 far_pair
  = Some far_pair_after.
Proof.
  unfold far_pair_after, agent_agent_interaction. simpl position. simpl radius.
  cbn [lookup list_lookup mbind option_bind].
  rewrite far_pair_distance. simpl sight_soc.
  rewrite decide_False by lra. cbn [mbind option_bind].
  simpl neighbor_radius.
  rewrite decide_True by (split; lra).
  unfold neighbor_insert. simpl.
  rewrite decide_True by lra. simpl.
  unfold store. simpl.
  rewrite decide_True by lra. simpl.
  unfold set_neighbors, update_agent, keep; simpl.
  replace (10 - (1 / 4 + 1 / 4)) with (19 / 2) by lra. reflexivity.
Qed.

Lemma out_of_sight_frame_witness :
  (forall agent',
     agent_agent_interaction PowerLaw.force_social_circular
       PowerLaw.force_social_three_circle 0 1 far_pair = Some agent' ->
     force agent' = force far_pair /\ torque agent' = torque far_pair) /\
  (~ (neighbor_radius far_pair > 0 /\
      length ((0, 0) ^- (10, 0)) - (1 / 4 + 1 / 4) < neighbor_radius far_pair) ->
   agent_agent_interaction PowerLaw.force_social_circular
     PowerLaw.force_social_three_circle 0 1 far_pair = Some far_pair) /\
  (forall m_i m_j,
     neighbor_distances_max far_pair !! 0%nat = Some m_i ->
     neighbor_distances_max far_pair !! 1%nat = Some m_j ->
     ~ length ((0, 0) ^- (10, 0)) - (1 / 4 + 1 / 4) < m_i ->
     ~ length ((0, 0) ^- (10, 0)) - (1 / 4 + 1 / 4) < m_j ->
     agent_agent_interaction PowerLaw.force_social_circular
       PowerLaw.force_social_three_circle 0 1 far_pair = Some far_pair).
Proof.
  apply (out_of_sight_frame PowerLaw.force_social_circular
           PowerLaw.force_social_three_circle 0 1 far_pair
           (0, 0) (10, 0) (1 / 4) (1 / 4)); try reflexivity.
  rewrite far_pair_distance. simpl. lra.
Defined.

(** C4, as stated, fails at [far_pair]: the centre distance 10 exceeds
    [sight_soc = 3], and the call still replaces the neighbour of agent 0 by
    agent 1 and both neighbour distances by the skin distance 19/2. *)
Lemma out_of_sight_neighbors_change :
  length ((0, 0) ^- (10, 0)) > sight_soc far_pair /\
  agent_agent_interaction PowerLaw.force_social_circular
    PowerLaw.force_social_three_circle 0 1 far_pair
  = Some far_pair_after /\
  neighbor_state far_pair_after <> neighbor_state far_pair.
Proof.
  split; [|split].
  - rewrite far_pair_distance. simpl. lra.
  - exact far_pair_interaction.
  - unfold neighbor_state. simpl. congruence.
Qed.

(** ** [np.max] and [np.argmax] *)

Lemma foldl_Rmax_spec (l : list R) (b : R) :
  foldl Rmax b l ∈ b :: l /\
  b <= foldl Rmax b l /\ forall x, x ∈ l -> x <= foldl Rmax b l.
Proof.
  revert b. induction l as [|y l IH]; intros b; simpl.
  - split; [left|]. split; [lra|]. intros x Hx. inversion Hx.
  - destruct (IH (Rmax b y)) as (Hin & Hb & Hall).
    pose proof (Rmax_l b y). pose proof (Rmax_r b y).
    split; [|split].
    + apply elem_of_cons in Hin as [Hin|Hin]; [|now do 2 right].
      rewrite Hin. unfold Rmax. destruct (Rle_dec b y); [right; left|left].
    + lra.
    + intros x Hx. apply elem_of_cons in Hx as [->|Hx]; [lra|auto].
Qed.

Lemma amax_spec (l : list R) (m : R) : amax l = Some m -> is_max l m.
Proof.
  destruct l as [|b l]; [discriminate|]. simpl. intros [= <-].
  destruct (foldl_Rmax_spec l b) as (Hin & Hb & Hall).
  split; [exact Hin|]. intros x Hx.
  apply elem_of_cons in Hx as [->|Hx]; auto.
Qed.

Lemma argmax_from_spec (l : list R) :
  forall (pre : list R) (best_i : nat) (best : R),
    pre !! best_i = Some best ->
    (pre ++ l) !! argmax_from (List.length pre) best_i best l
    = Some (foldl Rmax best l).
Proof.
  induction l as [|x l IH]; intros pre bi b Hb; simpl.
  - rewrite app_nil_r. exact Hb.
  - replace (pre ++ x :: l) with ((pre ++ [x]) ++ l)
      by (rewrite <- app_assoc; reflexivity).
    replace (S (List.length pre)) with (List.length (pre ++ [x]))
      by (rewrite length_app; simpl; lia).
    case_decide as Hlt.
    + rewrite Rmax_right by lra. apply IH.
      rewrite lookup_app_r by lia. now rewrite Nat.sub_diag.
    + rewrite Rmax_left by lra. apply IH.
      apply lookup_app_l_Some. exact Hb.
Qed.

Lemma argmax_spec (l : list R) (ind : nat) :
  argmax l = Some ind ->
  exists m, l !! ind = Some m /\ amax l = Some m.
Proof.
  destruct l as [|b l]; [discriminate|]. simpl. intros [= <-].
  exists (foldl Rmax b l). split; [|reflexivity].
  apply (argmax_from_spec l [b] 0 b). reflexivity.
Qed.

(** ** The neighbour buffers *)

Lemma buffer_untouched_refl (k : nat) (a : Agent) : buffer_untouched k a a.
Proof. repeat split. Qed.

Lemma buffer_untouched_trans (k : nat) (a b c : Agent) :
  buffer_untouched k a b -> buffer_untouched k b c -> buffer_untouched k a c.
Proof.
  intros (H1 & H2 & H3) (G1 & G2 & G3). repeat split; congruence.
Qed.

Lemma buffer_untouched_state (k : nat) (a b : Agent) :
  neighbor_state b = neighbor_state a -> buffer_untouched k a b.
Proof.
  unfold neighbor_state, buffer_untouched. intros [= H1 H2 H3].
  now rewrite H1, H2, H3.
Qed.

Lemma buffer_replaced_then_untouched (k o : nat) (a b c : Agent) :
  buffer_replaced k o a b -> buffer_untouched k b c -> buffer_replaced k o a c.
Proof.
  intros (rn & rd & ind & h & m & m' & H) (G1 & G2 & G3).
  exists rn, rd, ind, h, m, m'. rewrite G1, G2, G3. exact H.
Qed.

Lemma buffer_untouched_then_replaced (k o : nat) (a b c : Agent) :
  buffer_untouched k a b -> buffer_replaced k o b c -> buffer_replaced k o a c.
Proof.
  intros (G1 & G2 & G3) (rn & rd & ind & h & m & m' & H).
  exists rn, rd, ind, h, m, m'. rewrite <- G1, <- G2. exact H.
Qed.

Lemma neighbor_insert_effect (i j : nat) (h : R) (a a' : Agent) :
  neighbor_insert i j h a = Some a' ->
  (buffer_untouched i a a' \/ buffer_replaced i j a a') /\
  (forall k, k <> i -> buffer_untouched k a a').
Proof.
  intros H. apply neighbor_insert_Some in H as [->|H].
  { split; [left|intros]; apply buffer_untouched_refl. }
  destruct H as (m & row_d & ind & row_n & m' &
                 Hm & Hlt & Hd & Ha & Hn & Hi & Hmax & ->).
  split.
  - right. destruct (argmax_spec _ _ Ha) as (mx & Hmx & Hamax).
    exists row_n, row_d, ind, h, mx, m'.
    cbn [neighbors neighbor_distances neighbor_distances_max
         set_neighbors update_agent].
    rewrite !list_lookup_insert_eq by (eapply lookup_lt_Some; eassumption).
    repeat split; auto using amax_spec.
    + now apply amax_spec.
    + intros x Hx. now apply (amax_spec _ _ Hamax).
    + now apply amax_spec.
    + intros x Hx. now apply (amax_spec _ _ Hmax).
  - intros k Hk. unfold buffer_untouched.
    cbn [neighbors neighbor_distances neighbor_distances_max
         set_neighbors update_agent].
    rewrite !list_lookup_insert_ne by auto. repeat split.
Qed.

Section NeighborFacts.

Variable force_social_circular : Agent -> nat -> nat -> option (vec * vec).
Variable force_social_three_circle :
  Agent -> nat -> nat -> option (vec * vec).

Local Abbreviation agent_agent_interaction :=
  (agent_agent_interaction force_social_circular force_social_three_circle).

(** C10: [agent_agent_interaction], called for a pair of distinct agents,
    leaves the neighbour buffer of an agent as it is or makes one
    replacement in it: the new entry takes the place of the entry at the
    first index of the maximum of [neighbor_distances[k]], and afterwards
    [neighbor_distances_max[k]] is the maximum of [neighbor_distances[k]].
    The buffers of all other agents are left as they are. *)
Theorem neighbor_buffer_invariant (i j : nat) (agent agent' : Agent) :
  i <> j ->
  agent_agent_interaction i j agent = Some agent' ->
  (buffer_untouched i agent agent' \/ buffer_replaced i j agent agent') /\
  (buffer_untouched j agent agent' \/ buffer_replaced j i agent agent') /\
  (forall k, k <> i -> k <> j -> buffer_untouched k agent agent').
Proof.
  intros Hij H. unfold Interactions.agent_agent_interaction in H.
  destruct (position agent !! i) as [x_i|]; [|discriminate].
  destruct (position agent !! j) as [x_j|]; [|discriminate].
  destruct (radius agent !! i) as [r_i|]; [|discriminate].
  destruct (radius agent !! j) as [r_j|]; [|discriminate].
  cbn [mbind option_bind] in H.
  match type of H with
  | (?c ≫= _) = _ => destruct c as [[a0 h0]|] eqn:E0; [|discriminate]
  end.
  cbn [mbind option_bind] in H.
  assert (F0 : forall k, buffer_untouched k agent a0).
  { intros k.
    match type of E0 with
    | (if decide ?P then _ else _) = _ => destruct (decide P)
    end.
    - apply agent_agent_forces_frame in E0 as [E0 _].
      now apply buffer_untouched_state.
    - injection E0 as <- <-. apply buffer_untouched_refl. }
  clear E0. case_decide as Hn.
  - destruct (neighbor_insert i j h0 a0) as [a1|] eqn:E1; [|discriminate].
    cbn [mbind option_bind] in H.
    apply neighbor_insert_effect in E1 as [Ei Eo].
    apply neighbor_insert_effect in H as [Ej Eo'].
    split; [|split].
    + destruct Ei as [Ei|Ei].
      * left. eauto using buffer_untouched_trans.
      * right. eapply buffer_replaced_then_untouched; [|apply Eo'; auto].
        eapply buffer_untouched_then_replaced; eauto.
    + destruct Ej as [Ej|Ej].
      * left. eapply buffer_untouched_trans; [apply F0|].
        eapply buffer_untouched_trans; [apply Eo; auto|exact Ej].
      * right. eapply buffer_untouched_then_replaced; [|exact Ej].
        eapply buffer_untouched_trans; [apply F0|apply Eo; auto].
    + intros k Hki Hkj.
      eapply buffer_untouched_trans; [apply F0|].
      eapply buffer_untouched_trans; [apply Eo|apply Eo']; auto.
  - injection H as <-. split; [|split]; auto.
Qed.

End NeighborFacts.

(** ** Newton's third law *)

Ltac vec_lra :=
  repeat match goal with v : vec |- _ => destruct v end;
  unfold vadd, vsub, vneg, smul, zeros; cbn [fst snd]; f_equal; lra.

Lemma vsum_insert (l : list vec) (i : nat) (x y : vec) :
  l !! i = Some x -> vsum (<[i := y]> l) = vsum l ^+ (y ^- x).
Proof.
  revert i. induction l as [|z l IH]; intros [|i] H; try discriminate.
  - injection H as ->. simpl. generalize (vsum l). intros s. vec_lra.
  - simpl in *. rewrite (IH _ H). generalize (vsum l). intros s. vec_lra.
Qed.

Lemma foldM_invariant {A S : Type} (P : S -> Prop) (f : S -> A -> option S)
    (l : list A) :
  (forall s a s', P s -> f s a = Some s' -> P s') ->
  forall s s', P s -> foldM f s l = Some s' -> P s'.
Proof.
  intros Hf. induction l as [|a l IH]; intros s s' Hs H; simpl in H.
  - now injection H as <-.
  - destruct (f s a) as [s1|] eqn:E; [|discriminate]. simpl in H. eauto.
Qed.

Lemma third_law_update_zeros (i j k : nat) (x : vec) :
  third_law_update i j zeros k x = x.
Proof. unfold third_law_update. repeat case_decide; vec_lra. Qed.

Lemma third_law_lookup (l : list vec) (i j : nat) (f x_i x_j : vec) :
  l !! i = Some x_i ->
  <[i := x_i ^+ f]> l !! j = Some x_j ->
  forall k, <[j := x_j ^- f]> (<[i := x_i ^+ f]> l) !! k
            = third_law_update i j f k <$> l !! k.
Proof.
  intros Hi Hj k. unfold third_law_update.
  pose proof (lookup_lt_Some _ _ _ Hi) as Li.
  pose proof (lookup_lt_Some _ _ _ Hj) as Lj.
  destruct (decide (k = j)) as [->|Hkj].
  - rewrite list_lookup_insert_eq by exact Lj.
    destruct (decide (j = i)) as [->|Hji].
    + rewrite list_lookup_insert_eq in Hj by exact Li.
      injection Hj as <-. now rewrite Hi.
    + rewrite list_lookup_insert_ne in Hj by auto. now rewrite Hj.
  - rewrite list_lookup_insert_ne by auto.
    destruct (decide (k = i)) as [->|Hki].
    + rewrite list_lookup_insert_eq by exact Li. now rewrite Hi.
    + rewrite list_lookup_insert_ne by auto. now destruct (l !! k).
Qed.

Section ThirdLaw.

Variable force_social_circular : Agent -> nat -> nat -> option (vec * vec).
Variable force_social_three_circle :
  Agent -> nat -> nat -> option (vec * vec).
Hypothesis circular_antisymmetric : antisymmetric force_social_circular.
Hypothesis three_circle_antisymmetric :
  antisymmetric force_social_three_circle.

Local Abbreviation agent_agent_forces :=
  (agent_agent_forces force_social_circular force_social_three_circle).
Local Abbreviation agent_agent_interaction :=
  (agent_agent_interaction force_social_circular force_social_three_circle).
Local Abbreviation agent_agent :=
  (agent_agent force_social_circular force_social_three_circle).

(** The force block adds [f] to [force[i]] and [-f] to [force[j]]. *)
Lemma agent_agent_forces_third_law (i j : nat) (x : vec) (d h : R)
    (a a' : Agent) (h' : R) :
  agent_agent_forces i j x d h a = Some (a', h') ->
  exists f x_i x_j,
    force a !! i = Some x_i /\
    <[i := x_i ^+ f]> (force a) !! j = Some x_j /\
    force a' = <[j := x_j ^- f]> (<[i := x_i ^+ f]> (force a)).
Proof.
  unfold Interactions.agent_agent_forces. intros H.
  match type of H with
  | (?c ≫= _) = _ =>
      destruct c as [[[[[[n h0] mi] mj] fi] fj]|] eqn:E0; [|discriminate]
  end.
  cbn [mbind option_bind] in H.
  assert (Hanti : fj = vneg fi).
  { destruct (three_circle a).
    - destruct (agent_agent_distance_three_circle a i j)
        as [[[[n1 h1] m1] m2]|]; [|discriminate].
      cbn [mbind option_bind] in E0.
      destruct h1 as [h1|]; [|discriminate]. cbn [mbind option_bind] in E0.
      destruct (force_social_three_circle a i j) as [[g1 g2]|] eqn:Ek;
        [|discriminate].
      cbn [mbind option_bind] in E0. injection E0 as <- <- <- <- <- <-.
      eapply three_circle_antisymmetric; eauto.
    - destruct (force_social_circular a i j) as [[g1 g2]|] eqn:Ek;
        [|discriminate].
      cbn [mbind option_bind] in E0.
      destruct (vdiv x d); [|discriminate].
      cbn [mbind option_bind] in E0. injection E0 as <- <- <- <- <- <-.
      eapply circular_antisymmetric; eauto. }
  clear E0. subst fj.
  match type of H with
  | (?c ≫= _) = _ => destruct c as [[fi' fj']|] eqn:Ec; [|discriminate]
  end.
  cbn [mbind option_bind] in H.
  assert (Hanti : fj' = vneg fi').
  { destruct (decide (h0 < 0)).
    - destruct (velocity a !! i); [|discriminate].
      destruct (velocity a !! j); [|discriminate].
      cbn [mbind option_bind] in Ec. injection Ec as <- <-.
      generalize (force_contact h0 n (v ^- v0) (rotate270 n) (mu a) (kappa a)
                                (damping a)).
      intros fc. vec_lra.
    - now injection Ec as <- <-. }
  clear Ec. subst fj'.
  destruct (add_force i fi' a) as [a1|] eqn:E1; [|discriminate].
  cbn [mbind option_bind] in H.
  destruct (add_force j (vneg fi') a1) as [a2|] eqn:E2; [|discriminate].
  cbn [mbind option_bind] in H.
  apply add_force_Some in E1 as (x1 & Hx1 & ->).
  apply add_force_Some in E2 as (x2 & Hx2 & ->).
  cbn [force set_force update_agent] in Hx2.
  assert (Hf : force a' = <[j := x2 ^+ vneg fi']> (<[i := x1 ^+ fi']> (force a))).
  { match type of H with
    | (?c ≫= _) = _ => destruct c as [a3|] eqn:E3; [|discriminate]
    end.
    cbn [mbind option_bind] in H. injection H as <- <-.
    cbn [orientable set_force update_agent] in E3.
    destruct (orientable a).
    - match type of E3 with
      | (?c ≫= _) = _ => destruct c as [a4|] eqn:E4; [|discriminate]
      end.
      cbn [mbind option_bind] in E3.
      apply add_torque_Some in E4 as (t1 & _ & ->).
      apply add_torque_Some in E3 as (t2 & _ & ->).
      reflexivity.
    - now injection E3 as <-. }
  exists fi', x1, x2. repeat split; auto.
Qed.

Lemma agent_agent_interaction_third_law (i j : nat) (agent agent' : Agent) :
  agent_agent_interaction i j agent = Some agent' ->
  exists f,
    (forall k, force agent' !! k
               = third_law_update i j f k <$> force agent !! k) /\
    vsum (force agent') = vsum (force agent).
Proof.
  intros H. unfold Interactions.agent_agent_interaction in H.
  destruct (position agent !! i) as [x_i|]; [|discriminate].
  destruct (position agent !! j) as [x_j|]; [|discriminate].
  destruct (radius agent !! i) as [r_i|]; [|discriminate].
  destruct (radius agent !! j) as [r_j|]; [|discriminate].
  cbn [mbind option_bind] in H.
  match type of H with
  | (?c ≫= _) = _ => destruct c as [[a0 h0]|] eqn:E0; [|discriminate]
  end.
  cbn [mbind option_bind] in H.
  assert (Hfr : force agent' = force a0).
  { case_decide.
    - destruct (neighbor_insert i j h0 a0) as [a1|] eqn:E1; [|discriminate].
      cbn [mbind option_bind] in H.
      apply neighbor_insert_frame in E1 as [E1 _].
      apply neighbor_insert_frame in H as [H _]. congruence.
    - now injection H as <-. }
  rewrite Hfr. clear H Hfr.
  match type of E0 with
  | (if decide ?P then _ else _) = _ => destruct (decide P)
  end.
  - apply agent_agent_forces_third_law in E0
      as (f & y_i & y_j & Hi & Hj & ->).
    exists f. split.
    + now apply third_law_lookup.
    + rewrite (vsum_insert _ _ _ _ Hj), (vsum_insert _ _ _ _ Hi).
      generalize (vsum (force agent)). intros s. vec_lra.
  - injection E0 as <- <-. exists zeros. split; [|reflexivity].
    intros k. destruct (force agent !! k); simpl; [|reflexivity].
    now rewrite third_law_update_zeros.
Qed.

Lemma agent_agent_total_force (agent agent' : Agent) :
  agent_agent agent = Some agent' ->
  vsum (force agent') = vsum (force agent).
Proof.
  unfold Interactions.agent_agent.
  apply (foldM_invariant (fun a => vsum (force a) = vsum (force agent)));
    [|reflexivity].
  intros s [l i] s' Hs Hin.
  eapply (foldM_invariant (fun a => vsum (force a) = vsum (force agent)));
    [|exact Hs|exact Hin].
  intros s1 j s2 Hs1 H.
  apply agent_agent_interaction_third_law in H as (f & _ & H). congruence.
Qed.

End ThirdLaw.

(** C1: Newton's third law.  The social kernels giving the partner the
    opposite force, every pair interaction adds some vector [f] to
    [force[i]] and [-f] to [force[j]] (the contact force included) and
    leaves the other forces as they are, so that the sum of all forces is
    unchanged by one interaction and by the whole agent-agent phase. *)
Theorem newton_third_law
    (force_social_circular force_social_three_circle :
       Agent -> nat -> nat -> option (vec * vec)) :
  antisymmetric force_social_circular ->
  antisymmetric force_social_three_circle ->
  (forall i j agent agent',
     agent_agent_interaction force_social_circular force_social_three_circle
       i j agent = Some agent' ->
     exists f,
       (forall k, force agent' !! k
                  = third_law_update i j f k <$> force agent !! k) /\
       vsum (force agent') = vsum (force agent)) /\
  (forall agent agent',
     agent_agent force_social_circular force_social_three_circle agent
       = Some agent' ->
     vsum (force agent') = vsum (force agent)).
Proof.
  intros H1 H2. split.
  - intros i j agent agent'. now apply agent_agent_interaction_third_law.
  - intros agent agent'. now apply agent_agent_total_force.
Qed.

Lemma power_law_circular_antisymmetric :
  antisymmetric PowerLaw.force_social_circular.
Proof.
  intros a i j f_i f_j. unfold PowerLaw.force_social_circular. intros H.
  repeat match type of H with
  | (?c ≫= _) = _ => destruct c; [|discriminate]; cbn [mbind option_bind] in H
  end.
  now injection H as <- <-.
Qed.

Lemma power_law_three_circle_antisymmetric :
  antisymmetric PowerLaw.force_social_three_circle.
Proof.
  intros a i j f_i f_j. unfold PowerLaw.force_social_three_circle. intros H.
  repeat match type of H with
  | (?c ≫= _) = _ => destruct c; [|discriminate]; cbn [mbind option_bind] in H
  end.
  now injection H as <- <-.
Qed.

(** The power-law force between two disks at relative rest is zero. *)
Lemma f_soc_ij_at_rest (x_ij : vec) (r_ij k tau_0 f_max : R) :
  f_soc_ij x_ij (zeros ^- zeros) r_ij k tau_0 f_max = Some zeros.
Proof.
  unfold f_soc_ij.
  replace (dot2d (zeros ^- zeros) (zeros ^- zeros)) with 0
    by (unfold dot2d, vsub, zeros; simpl; lra).
  rewrite (bool_decide_eq_true_2 (-0.001 < 0 /\ 0 < 0.001)) by (split; lra).
  now rewrite orb_true_r.
Qed.

Lemma overlapping_pair_interaction :
  agent_agent_interaction PowerLaw.force_social_circular
    PowerLaw.force_social_three_circle 0 1 overlapping_pair
  = Some (set_force [(-30000, 0); (30000, 0)] overlapping_pair).
Proof.
  assert (Hl : length ((0, 0) ^- (1 / 4, 0)) = 1 / 4)
    by (apply length_eq; simpl; lra).
  unfold agent_agent_interaction. simpl position. simpl radius.
  cbn [lookup list_lookup mbind option_bind].
  rewrite Hl. simpl sight_soc.
  rewrite decide_True by lra.
  unfold agent_agent_forces. simpl three_circle.
  unfold PowerLaw.force_social_circular.
  simpl position. simpl radius. simpl velocity.
  cbn [lookup list_lookup mbind option_bind].
  rewrite f_soc_ij_at_rest. cbn [mbind option_bind].
  rewrite vdiv_Some by lra. cbn [mbind option_bind].
  rewrite decide_True by lra.
  simpl velocity. cbn [lookup list_lookup mbind option_bind].
  unfold add_force, set_force, update_agent, keep. simpl.
  rewrite decide_False by (intros [? _]; lra).
  unfold force_contact, dot2d, rotate270, vadd, vsub, vneg, smul, zeros.
  simpl. do 2 f_equal.
  repeat f_equal; field.
Qed.

Lemma neighbor_buffer_invariant_witness :
  (buffer_untouched 0 far_pair far_pair_after \/
   buffer_replaced 0 1 far_pair far_pair_after) /\
  (buffer_untouched 1 far_pair far_pair_after \/
   buffer_replaced 1 0 far_pair far_pair_after) /\
  (forall k, k <> 0%nat -> k <> 1%nat ->
             buffer_untouched k far_pair far_pair_after).
Proof.
  apply (neighbor_buffer_invariant PowerLaw.force_social_circular
           PowerLaw.force_social_three_circle 0 1 far_pair far_pair_after).
  - lia.
  - exact far_pair_interaction.
Defined.

Lemma newton_third_law_witness :
  exists f,
    (forall k,
       force (set_force [(-30000, 0); (30000, 0)] overlapping_pair) !! k
       = third_law_update 0 1 f k <$> force overlapping_pair !! k) /\
    vsum (force (set_force [(-30000, 0); (30000, 0)] overlapping_pair))
    = vsum (force overlapping_pair).
Proof.
  exact (proj1 (newton_third_law _ _ power_law_circular_antisymmetric
                                 power_law_three_circle_antisymmetric)
               0%nat 1%nat overlapping_pair _ overlapping_pair_interaction).
Defined.

(** ** Random placement *)

Lemma length_vsub_sym (a b : vec) : length (a ^- b) = length (b ^- a).
Proof.
  unfold length. f_equal. destruct a, b; unfold vsub; simpl. lra.
Qed.

Lemma clear_of_agents_lookup (pos : vec) (rad : R) (position : list vec)
    (radius : list R) (i b : nat) (p_b : vec) (r_b : R) :
  Parameters.clear_of_agents pos rad (take i position) (take i radius) = true ->
  (b < i)%nat -> position !! b = Some p_b -> radius !! b = Some r_b ->
  length (pos ^- p_b) > rad + r_b.
Proof.
  unfold Parameters.clear_of_agents. intros H Hb Hp Hr.
  rewrite forallb_forall in H.
  specialize (H (p_b, r_b)). cbn beta iota in H.
  assert (Hin : In (p_b, r_b) (zip (take i position) (take i radius))).
  { apply list_elem_of_In. apply (list_elem_of_lookup_2 _ b).
    apply lookup_zip_with_Some. exists p_b, r_b.
    rewrite !lookup_take_lt by exact Hb. auto. }
  apply H in Hin. apply bool_decide_eq_true_1 in Hin. lra.
Qed.

Lemma clear_of_walls_spec (pos : vec) (rad : R) (walls : list Walls.wall)
    (wall : Walls.wall) (k : nat) :
  Parameters.clear_of_walls pos rad walls = true ->
  wall ∈ walls -> (k < Walls.wall_size wall)%nat ->
  exists d, Walls.distance wall k pos = Some d /\ d - rad > 0.
Proof.
  unfold Parameters.clear_of_walls. intros H Hw Hk.
  rewrite forallb_forall in H. apply list_elem_of_In in Hw.
  specialize (H wall Hw). rewrite forallb_forall in H.
  specialize (H k). cbn beta in H.
  assert (Hin : In k (seq 0 (Walls.wall_size wall))) by (apply in_seq; lia).
  apply H in Hin.
  destruct (Walls.distance wall k pos) as [d|]; [|discriminate].
  apply bool_decide_eq_true_1 in Hin. eauto.
Qed.

Section Placement.

Variable uniform : nat -> vec.
Variable radius : list R.
Variable walls : list Walls.wall.

(** Accepting the point [pos] for slot [i] keeps the placement clear. *)
Lemma accept_keeps_clear (i : nat) (position : list vec) (pos : vec)
    (rad : R) :
  (i < List.length position)%nat ->
  radius !! i = Some rad ->
  agents_clear radius position i ->
  walls_clear radius walls position i ->
  (bool_decide (0 < i)%nat
   && negb (Parameters.clear_of_agents pos rad (take i position)
                                       (take i radius))) = false ->
  Parameters.clear_of_walls pos rad walls = true ->
  agents_clear radius (<[i := pos]> position) (S i) /\
  walls_clear radius walls (<[i := pos]> position) (S i).
Proof.
  intros Hi Hrad Ha Hw Hca Hcw.
  assert (Hclear : forall b p_b r_b, (b < i)%nat ->
            position !! b = Some p_b -> radius !! b = Some r_b ->
            length (pos ^- p_b) > rad + r_b).
  { intros b p_b r_b Hb Hp Hr.
    apply andb_false_iff in Hca as [Hca|Hca].
    - apply bool_decide_eq_false_1 in Hca. lia.
    - apply negb_false_iff in Hca. eapply clear_of_agents_lookup; eauto. }
  split.
  - intros a b p_a p_b r_a r_b Ha' Hb' Hab Hpa Hpb Hra Hrb.
    destruct (decide (a = i)) as [->|Hai];
      destruct (decide (b = i)) as [->|Hbi]; try congruence.
    + rewrite list_lookup_insert_eq in Hpa by exact Hi.
      rewrite list_lookup_insert_ne in Hpb by auto.
      injection Hpa as <-. rewrite Hrad in Hra. injection Hra as <-.
      apply (Hclear b); auto. lia.
    + rewrite list_lookup_insert_ne in Hpa by auto.
      rewrite list_lookup_insert_eq in Hpb by exact Hi.
      injection Hpb as <-. rewrite Hrad in Hrb. injection Hrb as <-.
      rewrite length_vsub_sym.
      assert (length (pos ^- p_a) > rad + r_a) by (apply (Hclear a); auto; lia).
      lra.
    + rewrite list_lookup_insert_ne in Hpa by auto.
      rewrite list_lookup_insert_ne in Hpb by auto.
      apply (Ha a b); auto; lia.
  - intros a p_a r_a wall k Ha' Hpa Hra Hwall Hk.
    destruct (decide (a = i)) as [->|Hai].
    + rewrite list_lookup_insert_eq in Hpa by exact Hi.
      injection Hpa as <-. rewrite Hrad in Hra. injection Hra as <-.
      now apply (clear_of_walls_spec pos rad walls).
    + rewrite list_lookup_insert_ne in Hpa by auto.
      apply (Hw a); auto. lia.
Qed.

(** The loop invariant of [random_position]. *)
Lemma place_spec (remaining : nat) :
  forall (iterations i : nat) (position : list vec),
    (i <= List.length position)%nat ->
    agents_clear radius position i ->
    walls_clear radius walls position i ->
    match Parameters.place uniform radius walls remaining iterations i
                           position with
    | Parameters.Return ps n =>
        List.length ps = List.length position /\
        (n <= iterations + remaining)%nat /\
        agents_clear radius ps (List.length ps) /\
        walls_clear radius walls ps (List.length ps)
    | Parameters.Raise n => n = (iterations + remaining)%nat
    | Parameters.IndexError =>
        (List.length radius < List.length position)%nat
    end.
Proof.
  induction remaining as [|remaining IH]; intros iterations i position
    Hi Ha Hw; cbn [Parameters.place].
  - case_decide as Hlt; [lia|].
    assert (i = List.length position) by lia. subst i.
    repeat split; auto; lia.
  - case_decide as Hlt.
    + destruct (radius !! i) as [rad|] eqn:Hrad.
      * destruct (bool_decide (0 < i)%nat && negb _) eqn:Hca.
        { specialize (IH (S iterations) i position Hi Ha Hw).
          destruct (Parameters.place _ _ _ _ _ _ _); auto.
          - destruct IH as (? & ? & ? & ?). repeat split; auto; lia.
          - lia. }
        destruct (negb (Parameters.clear_of_walls _ rad walls)) eqn:Hcw.
        { specialize (IH (S iterations) i position Hi Ha Hw).
          destruct (Parameters.place _ _ _ _ _ _ _); auto.
          - destruct IH as (? & ? & ? & ?). repeat split; auto; lia.
          - lia. }
        apply negb_false_iff in Hcw.
        destruct (accept_keeps_clear i position (uniform iterations) rad
                    Hlt Hrad Ha Hw Hca Hcw) as [Ha' Hw'].
        specialize (IH (S iterations) (S i)
                       (<[i := uniform iterations]> position)).
        rewrite length_insert in IH. specialize (IH Hlt Ha' Hw').
        destruct (Parameters.place _ _ _ _ _ _ _); auto.
        -- destruct IH as (? & ? & ? & ?). repeat split; auto; lia.
        -- lia.
      * apply lookup_ge_None in Hrad. lia.
    + assert (i = List.length position) by lia. subst i.
      repeat split; auto; lia.
Qed.

End Placement.

(** C8: [random_position] raises its exception exactly when [100 N] trials
    have been made without filling the [N] slots; when it returns, all [N]
    disks are placed, no two of them overlap,
    [|pos_i - pos_j| >= r_i + r_j] for [i <> j] (strictly, in fact), and
    every disk is at positive skin distance from every segment of every
    wall.  An [IndexError] needs a [radius] array shorter than [position]. *)
Theorem random_position_outcome (uniform : nat -> vec) (position : list vec)
    (radius : list R) (walls : list Walls.wall) :
  match Parameters.random_position uniform position radius walls with
  | Parameters.Raise n => n = (100 * List.length position)%nat
  | Parameters.Return ps n =>
      List.length ps = List.length position /\
      (n <= 100 * List.length position)%nat /\
      (forall i j p_i p_j r_i r_j,
         i <> j -> ps !! i = Some p_i -> ps !! j = Some p_j ->
         radius !! i = Some r_i -> radius !! j = Some r_j ->
         length (p_i ^- p_j) >= r_i + r_j) /\
      (forall i p_i r_i wall k,
         ps !! i = Some p_i -> radius !! i = Some r_i ->
         wall ∈ walls -> (k < Walls.wall_size wall)%nat ->
         exists d, Walls.distance wall k p_i = Some d /\ d - r_i > 0)
  | Parameters.IndexError => (List.length radius < List.length position)%nat
  end.
Proof.
  unfold Parameters.random_position.
  pose proof (place_spec uniform radius walls (100 * List.length position)
                0 0 position) as H.
  destruct (Parameters.place _ _ _ _ _ _ _) as [ps n| n|].
  - destruct H as (Hlen & Hn & Ha & Hw).
    + lia.
    + intros a b ? ? ? ? Ha. lia.
    + intros a ? ? ? ? Ha. lia.
    + repeat split; auto.
      * intros i j p_i p_j r_i r_j Hij Hpi Hpj Hri Hrj.
        apply Rgt_ge. apply (Ha i j); auto; eapply lookup_lt_Some; eauto.
      * intros i p_i r_i wall k Hpi Hri Hwall Hk.
        apply (Hw i); auto. eapply lookup_lt_Some; eauto.
  - apply H; [lia| |]; intros a; intros; lia.
  - apply H; [lia| |]; intros a; intros; lia.
Qed.

(** Both ends of [random_position] are met: a free point is placed at the
    first trial, and a point that always falls into a wall exhausts the
    [100 N] trials. *)
Lemma random_position_places :
  Parameters.random_position (fun _ => (1, 1)) [zeros] [1 / 4] []
  = Parameters.Return [(1, 1)] 1.
Proof. reflexivity. Qed.

Lemma place_all_rejected (uniform : nat -> vec) (radius : list R)
    (walls : list Walls.wall) (position : list vec) (rad : R) :
  radius !! 0%nat = Some rad ->
  (0 < List.length position)%nat ->
  (forall k, Parameters.clear_of_walls (uniform k) rad walls = false) ->
  forall remaining iterations,
    Parameters.place uniform radius walls remaining iterations 0 position
    = Parameters.Raise (iterations + remaining).
Proof.
  intros Hrad Hlen Hrej. induction remaining as [|remaining IH];
    intros iterations; cbn [Parameters.place];
    rewrite decide_True by exact Hlen.
  - f_equal. lia.
  - rewrite Hrad. rewrite (bool_decide_eq_false_2 (0 < 0)%nat) by lia.
    cbn [andb]. rewrite Hrej. cbn [negb]. rewrite IH. f_equal. lia.
Qed.

Lemma random_position_raises :
  Parameters.random_position (fun _ => (1, 1)) [zeros] [1 / 4] [pillar]
  = Parameters.Raise 100.
Proof.
  unfold Parameters.random_position.
  rewrite (place_all_rejected _ _ _ _ (1 / 4)); [reflexivity|reflexivity|
    simpl; lia|].
  intros k. unfold Parameters.clear_of_walls, pillar. simpl.
  rewrite length_vsub_self.
  rewrite bool_decide_eq_false_2 by lra. reflexivity.
Qed.

(** ** Fluctuation and adjusting phases *)

Lemma gather_lookup {A : Type} (idx : list nat) (l g : list A) (n k : nat) :
  Algorithms.gather idx l = Some g -> idx !! n = Some k ->
  exists x, g !! n = Some x /\ l !! k = Some x.
Proof.
  unfold Algorithms.gather. intros H Hn. apply mapM_Some_1 in H.
  destruct (Forall2_lookup_l _ _ _ _ _ H Hn) as (x & Hx & Hk). eauto.
Qed.

Lemma scatter_spec {A : Type} (idx : list nat) :
  forall (values l l' : list A),
    Algorithms.scatter idx values l = Some l' -> NoDup idx ->
    (forall n k, idx !! n = Some k -> l' !! k = values !! n) /\
    (forall k, k ∉ idx -> l' !! k = l !! k).
Proof.
  induction idx as [|k0 idx IH]; intros values l l' H Hnd;
    destruct values as [|v values]; try discriminate.
  - injection H as <-. split; [intros n k Hn; discriminate|auto].
  - cbn [Algorithms.scatter] in H. unfold store in H.
    destruct (decide (k0 < List.length l)%nat) as [Hk0|]; [|discriminate].
    cbn [mbind option_bind] in H.
    apply NoDup_cons in Hnd as [Hk0' Hnd].
    destruct (IH _ _ _ H Hnd) as [IH1 IH2]. split.
    + intros [|n] k Hn; simpl in Hn.
      * injection Hn as <-. rewrite (IH2 k0 Hk0').
        now rewrite list_lookup_insert_eq.
      * now apply IH1.
    + intros k Hk. apply not_elem_of_cons in Hk as [Hk Hk'].
      rewrite (IH2 k Hk'). now rewrite list_lookup_insert_ne.
Qed.

Lemma indices_NoDup (a : Agent) : NoDup (indices a).
Proof. unfold indices. apply NoDup_filter, NoDup_seq. Qed.

Section PhaseFacts.

Variable torque_fluctuation : list R -> R -> list R.
Variable torque_adjust :
  list R -> R -> list R -> list R -> list R -> list R -> option (list R).

Local Abbreviation Fluctuation_update :=
  (Algorithms.Fluctuation_update torque_fluctuation).
Local Abbreviation Adjusting_body :=
  (Algorithms.Adjusting_body torque_adjust).

(** [Fluctuation.update] writes [force] and [torque] only. *)
Lemma Fluctuation_update_frame (magnitude angle : list R) (a a1 : Agent) :
  Fluctuation_update magnitude angle a = Some a1 ->
  exists f t,
    a1 = update_agent keep (fun _ => f) (fun _ => t) keep keep keep a.
Proof.
  unfold Algorithms.Fluctuation_update. intros H.
  destruct (Algorithms.gather (indices a) (mass a)); [|discriminate].
  cbn [mbind option_bind] in H.
  destruct (Algorithms.scatter _ _ (force a)) as [f|]; [|discriminate].
  cbn [mbind option_bind] in H.
  cbn [orientable set_force update_agent] in H.
  destruct (orientable a).
  - destruct (Algorithms.gather _ _); [|discriminate].
    cbn [mbind option_bind] in H.
    destruct (Algorithms.scatter _ _ _) as [t|]; [|discriminate].
    cbn [mbind option_bind] in H. injection H as <-.
    exists f, t. reflexivity.
  - injection H as <-. exists f, (torque a). reflexivity.
Qed.

(** With the index array of the active agents for [i], the statements of
    [Adjusting.update] leave every active agent with its adjusting force;
    the forces of the other agents are as before. *)
Lemma Adjusting_body_force (a a2 : Agent) :
  Adjusting_body (Algorithms.IndexArray (indices a)) a = Some a2 ->
  (forall i, i ∈ indices a ->
     exists m v0 e0 v f,
       mass a !! i = Some m /\ target_velocity a !! i = Some v0 /\
       target_direction a !! i = Some e0 /\ velocity a !! i = Some v /\
       Algorithms.force_adjust m (tau_adj a) v0 e0 v = Some f /\
       force a2 !! i = Some f) /\
  (forall k, k ∉ indices a -> force a2 !! k = force a !! k).
Proof.
  unfold Algorithms.Adjusting_body.
  cbn [Algorithms.getitem Algorithms.setitem]. intros H.
  destruct (Algorithms.gather (indices a) (mass a)) as [gm|] eqn:Gm;
    [|discriminate].
  cbn [mbind option_bind] in H.
  destruct (Algorithms.gather _ (target_velocity a)) as [gv0|] eqn:Gv0;
    [|discriminate].
  cbn [mbind option_bind] in H.
  destruct (Algorithms.gather _ (target_direction a)) as [ge0|] eqn:Ge0;
    [|discriminate].
  cbn [mbind option_bind] in H.
  destruct (Algorithms.gather _ (velocity a)) as [gv|] eqn:Gv;
    [|discriminate].
  cbn [mbind option_bind] in H.
  destruct (mapM _ _) as [values|] eqn:Hvalues; [|discriminate].
  cbn [mbind option_bind] in H.
  destruct (Algorithms.scatter _ values (force a)) as [f|] eqn:Hsc;
    [|discriminate].
  cbn [mbind option_bind] in H.
  assert (Hf : force a2 = f).
  { cbn [orientable set_force update_agent] in H.
    destruct (orientable a).
    - repeat match type of H with
      | (?c ≫= _) = _ =>
          destruct c; [|discriminate]; cbn [mbind option_bind] in H
      end.
      now injection H as <-.
    - now injection H as <-. }
  rewrite Hf. clear H Hf.
  destruct (scatter_spec _ _ _ _ Hsc (indices_NoDup a)) as [S1 S2].
  split; [|exact S2].
  intros i Hi. apply list_elem_of_lookup in Hi as [n Hn].
  destruct (gather_lookup _ _ _ _ _ Gm Hn) as (m & Hm1 & Hm2).
  destruct (gather_lookup _ _ _ _ _ Gv0 Hn) as (v0 & Hv01 & Hv02).
  destruct (gather_lookup _ _ _ _ _ Ge0 Hn) as (e0 & He01 & He02).
  destruct (gather_lookup _ _ _ _ _ Gv Hn) as (v & Hv1 & Hv2).
  apply mapM_Some_1 in Hvalues.
  assert (Hz : zip gm (zip gv0 (zip ge0 gv)) !! n = Some (m, (v0, (e0, v)))).
  { apply lookup_zip_with_Some. exists m, (v0, (e0, v)).
    repeat split; auto.
    apply lookup_zip_with_Some. exists v0, (e0, v). repeat split; auto.
    apply lookup_zip_with_Some. exists e0, v. repeat split; auto. }
  destruct (Forall2_lookup_l _ _ _ _ _ Hvalues Hz) as (f0 & Hf0 & Hadj).
  cbn beta iota in Hadj.
  exists m, v0, e0, v, f0. rewrite (S1 n i Hn). auto 10.
Qed.

End PhaseFacts.

Lemma single_fluctuation :
  Algorithms.Fluctuation_update no_torque_fluctuation [1] [0] single
  = Some single_fluctuated.
Proof. reflexivity. Qed.

Lemma single_adjusting :
  Algorithms.Adjusting_body no_torque_adjust
    (Algorithms.IndexArray (indices single_fluctuated)) single_fluctuated
  = Some single_adjusted.
Proof.
  unfold Algorithms.Adjusting_body.
  change (indices single_fluctuated) with [0%nat].
  cbn [Algorithms.getitem Algorithms.setitem Algorithms.gather mapM]. simpl.
  unfold Algorithms.force_adjust, rdiv.
  rewrite decide_False by lra. reflexivity.
Qed.

(** C9: [Adjusting.update] is written as an assignment
    ([agent.force[i] = force_adjust(...)]), but it does not get that far:
    its index [i = agent.indices] is the bound method, not the index
    array [agent.indices()], and [agent.mass[i]] raises [IndexError] on
    every agent store, before anything is assigned.  At the agent [single]
    the force left after [Fluctuation.update] and [Adjusting.update] is
    the fluctuation force, which is not the adjusting force.  Had the call
    been made, the assignment would leave every active agent with its
    adjusting force [(m / tau_adj) (v0 e0 - v)], whatever the fluctuation
    samples were. *)
Theorem adjusting_update_raises
    (torque_fluctuation : list R -> R -> list R)
    (torque_adjust :
       list R -> R -> list R -> list R -> list R -> list R -> option (list R)) :
  (forall agent, Algorithms.Adjusting_update torque_adjust agent = None) /\
  (Algorithms.Fluctuation_update no_torque_fluctuation [1] [0] single
   = Some single_fluctuated /\
   Algorithms.Adjusting_update no_torque_adjust single_fluctuated = None /\
   force single_fluctuated = [70 ^* (1 ^* (cos 0, sin 0))] /\
   Algorithms.force_adjust 70 (1 / 2) 1 (1, 0) zeros = Some (140, 0) /\
   70 ^* (1 ^* (cos 0, sin 0)) <> ((140, 0) : vec)) /\
  (forall magnitude angle agent a1 a2,
     Algorithms.Fluctuation_update torque_fluctuation magnitude angle agent
       = Some a1 ->
     Algorithms.Adjusting_body torque_adjust
       (Algorithms.IndexArray (indices a1)) a1 = Some a2 ->
     forall i, i ∈ indices agent ->
       exists m v0 e0 v f,
         mass agent !! i = Some m /\ target_velocity agent !! i = Some v0 /\
         target_direction agent !! i = Some e0 /\
         velocity agent !! i = Some v /\
         Algorithms.force_adjust m (tau_adj agent) v0 e0 v = Some f /\
         force a2 !! i = Some f).
Proof.
  split; [|split].
  - intros agent. reflexivity.
  - split; [exact single_fluctuation|]. split; [reflexivity|].
    split; [reflexivity|]. split.
    + unfold Algorithms.force_adjust, rdiv. rewrite decide_False by lra.
      cbn [mbind option_bind]. f_equal.
      unfold smul, vsub, zeros; cbn [fst snd]. f_equal; field.
    + rewrite cos_0, sin_0. unfold smul; cbn [fst snd]. intros [= H]. lra.
  - intros magnitude angle agent a1 a2 H1 H2 i Hi.
    apply (Fluctuation_update_frame torque_fluctuation) in H1
      as (f & t & ->).
    apply Adjusting_body_force in H2 as [H2 _].
    exact (H2 i Hi).
Qed.

(** ** Navigation lookup *)

Lemma round_half_even_IZR (x : R) (z : Z) :
  x = IZR z -> Algorithms.round_half_even x = z.
Proof.
  intros ->. unfold Algorithms.round_half_even. rewrite ZfloorZ.
  rewrite decide_True by lra. reflexivity.
Qed.

Lemma to_indices_integral (p : vec) (step : R) (a b : Z) :
  step <> 0 -> p.1 / step = IZR a -> p.2 / step = IZR b ->
  Algorithms.to_indices p step = Some (a, b).
Proof.
  intros Hs Ha Hb. unfold Algorithms.to_indices.
  rewrite vdiv_Some by exact Hs. cbn [mbind option_bind fst snd].
  now rewrite (round_half_even_IZR _ a Ha), (round_half_even_IZR _ b Hb).
Qed.

Lemma mapM_singleton {A B : Type} (f : A -> option B) (x : A) :
  mapM f [x] = y ← f x; Some [y].
Proof. simpl. now destruct (f x). Qed.

(** C3, on the grid [small_map] of step 1: no index is clamped.  For the
    agent at (5, 0) the lookup reads row 0, column 5 of a grid with two
    columns and fails with [IndexError]; for the agent at (-1, 0) it reads
    column -1, which NumPy takes from the other end of the row: the target
    direction becomes the entry (0, 1) of column 1, where a clamped index
    would read the entry (1, 0) of column 0. *)
Theorem navigation_lookup_not_clamped :
  Algorithms.Navigation_update 1 small_map agent_right = None /\
  Algorithms.Navigation_update 1 small_map agent_left
    = Some (set_target_direction [(0, 1)] agent_left).
Proof.
  split; unfold Algorithms.Navigation_update.
  - change (indices agent_right) with [0%nat].
    cbn [Algorithms.gather mapM]. simpl position.
    cbn [lookup list_lookup mbind option_bind mret option_ret].
    rewrite mapM_singleton.
    rewrite (to_indices_integral (5, 0) 1 5 0) by (simpl; lra).
    reflexivity.
  - change (indices agent_left) with [0%nat].
    cbn [Algorithms.gather mapM]. simpl position.
    cbn [lookup list_lookup mbind option_bind mret option_ret].
    rewrite mapM_singleton.
    rewrite (to_indices_integral (-1, 0) 1 (-1) 0) by (simpl; lra).
    reflexivity.
Qed.

(** ** Agent-wall interaction *)

Section WallFacts.

Variable Wall : Type.
Variable distance_with_normal : Wall -> nat -> vec -> option (R * vec).
Variable force_social_linear_wall : nat -> nat -> Agent -> Wall -> option vec.

(** Whatever the body model, [agent_wall_interaction] adds the torque
    [cross2d(zeros, force)], that is, none. *)
Lemma agent_wall_interaction_torque (i w : nat) (agent agent' : Agent)
    (wall : Wall) :
  agent_wall_interaction Wall distance_with_normal force_social_linear_wall
    i w agent wall = Some agent' ->
  torque agent' !! i = torque agent !! i.
Proof.
  unfold agent_wall_interaction. intros H.
  destruct (position agent !! i) as [x|]; [|discriminate].
  destruct (radius agent !! i) as [r|]; [|discriminate].
  cbn [mbind option_bind] in H.
  destruct (distance_with_normal wall w x) as [[d n]|]; [|discriminate].
  cbn [mbind option_bind] in H.
  destruct (decide (d - r <= sight_wall agent)); [|now injection H as <-].
  match type of H with
  | (?c ≫= _) = _ =>
      destruct c as [[[[h0 n0] m0] f0]|] eqn:E0; [|discriminate]
  end.
  cbn [mbind option_bind] in H.
  assert (Hm : m0 = zeros).
  { destruct (three_circle agent).
    - destruct (agent_wall_distance _ _ _ _ _ _) as [[[h1 n1] m1]|];
        [|discriminate].
      cbn [mbind option_bind] in E0.
      destruct h1; [|discriminate]. cbn [mbind option_bind] in E0.
      destruct (force_social_linear_wall i w agent wall); [|discriminate].
      cbn [mbind option_bind] in E0. now injection E0 as <- <- <- <-.
    - destruct (force_social_linear_wall i w agent wall); [|discriminate].
      cbn [mbind option_bind] in E0. now injection E0 as <- <- <- <-. }
  subst m0. clear E0.
  match type of H with
  | (?c ≫= _) = _ => destruct c as [f1|]; [|discriminate]
  end.
  cbn [mbind option_bind] in H.
  destruct (add_force i f1 agent) as [a1|] eqn:E1; [|discriminate].
  cbn [mbind option_bind] in H.
  apply add_force_Some in E1 as (x1 & _ & ->).
  cbn [orientable set_force update_agent] in H.
  destruct (orientable agent); [|now injection H as <-].
  apply add_torque_Some in H as (t1 & Ht1 & ->).
  cbn [torque set_torque set_force update_agent] in *. unfold keep in *.
  rewrite list_lookup_insert_eq by (eapply lookup_lt_Some; eauto).
  rewrite Ht1. f_equal. unfold cross2d, zeros; simpl. lra.
Qed.

End WallFacts.

(** The distance and normal from a point above a horizontal segment. *)
Lemma distance_circle_line_above (x y r l : R) :
  0 < l -> 0 <= x <= l -> 0 < y ->
  distance_circle_line (x, y) r ((0, 0), (l, 0)) = Some (y - r, (0, 1)).
Proof.
  intros Hl Hx Hy. unfold distance_circle_line. cbn [fst snd].
  rewrite (length_eq ((l, 0) ^- (0, 0)) l) by (simpl; lra).
  rewrite (vdiv_Some ((l, 0) ^- (0, 0)) l) by lra. cbn [mbind option_bind].
  unfold dot2d, rotate90, vsub; cbn [fst snd].
  replace (- ((l - 0) / l * (x - l) + (0 - 0) / l * (y - 0))
           - ((l - 0) / l * (x - 0) + (0 - 0) / l * (y - 0)))
    with (l - 2 * x) by (field; lra).
  rewrite !decide_False by lra. cbn [mbind option_bind].
  replace (- ((0 - 0) / l) * (x - 0) + (l - 0) / l * (y - 0)) with y
    by (field; lra).
  rewrite Rabs_pos_eq by lra.
  unfold sign. rewrite decide_False by lra. rewrite decide_True by lra.
  unfold smul; cbn [fst snd]. do 3 f_equal; field; lra.
Qed.

Lemma floor_wall_distance (x y : R) :
  0 <= x <= 4 -> 0 < y ->
  Obstacles.distance_with_normal floor_wall 0 (x, y) = Some (y - 0, (0, 1)).
Proof.
  intros Hx Hy. unfold Obstacles.distance_with_normal, floor_wall.
  cbn [lookup list_lookup mbind option_bind].
  apply distance_circle_line_above; lra.
Qed.

Lemma tilted_body_wall_force :
  Obstacles.force_social_linear_wall 0 0 tilted_body floor_wall
  = Some wall_force.
Proof.
  unfold Obstacles.force_social_linear_wall. simpl position. simpl radius.
  cbn [lookup list_lookup mbind option_bind].
  rewrite floor_wall_distance by lra. cbn [mbind option_bind].
  unfold Obstacles.force_social_helbing, rdiv.
  rewrite decide_False by lra. reflexivity.
Qed.

(** C5, at [tilted_body] and [floor_wall]: the right shoulder attains the
    minimum skin distance 5/8 to the wall, and the moment arm taken there is
    (1/4, -3/8); the wall force is not parallel to it; and
    [agent_wall_interaction] leaves the torque of the agent as it was, the
    moment arm being reset to zero before the torque is accumulated. *)
Theorem agent_wall_torque_drops_moment_arm :
  agent_wall_distance Obstacles.Wall Obstacles.distance_with_normal
    tilted_body floor_wall 0 0
  = Some (Some (5 / 8), (0, 1), (1 / 4, - 3 / 8)) /\
  Obstacles.force_social_linear_wall 0 0 tilted_body floor_wall
  = Some wall_force /\
  agent_wall_interaction Obstacles.Wall Obstacles.distance_with_normal
    Obstacles.force_social_linear_wall 0 0 tilted_body floor_wall
  = Some tilted_body_after /\
  torque tilted_body_after = torque tilted_body /\
  cross2d (1 / 4, - 3 / 8) wall_force <> 0.
Proof.
  assert (Hd : agent_wall_distance Obstacles.Wall
                 Obstacles.distance_with_normal tilted_body floor_wall 0 0
               = Some (Some (5 / 8), (0, 1), (1 / 4, - 3 / 8))).
  { unfold agent_wall_distance. simpl position. simpl position_ls.
    simpl position_rs. simpl r_t. simpl r_s.
    cbn [lookup list_lookup mbind option_bind zip zip_with foldM].
    rewrite (floor_wall_distance 2 1) by lra.
    cbn [mbind option_bind below_min].
    rewrite (floor_wall_distance (7 / 4) (5 / 4)) by lra.
    cbn [mbind option_bind below_min].
    rewrite bool_decide_eq_false_2 by lra. cbn [mbind option_bind].
    rewrite (floor_wall_distance (9 / 4) (3 / 4)) by lra.
    cbn [mbind option_bind below_min].
    rewrite bool_decide_eq_true_2 by lra. cbn [mbind option_bind].
    unfold vsub, smul; cbn [fst snd]. repeat f_equal; lra. }
  split; [exact Hd|]. split; [exact tilted_body_wall_force|].
  split; [|split].
  - unfold agent_wall_interaction. simpl position. simpl radius.
    cbn [lookup list_lookup mbind option_bind].
    rewrite floor_wall_distance by lra. cbn [mbind option_bind].
    simpl sight_wall. rewrite decide_True by lra.
    simpl three_circle. cbn iota. rewrite Hd. cbn [mbind option_bind].
    rewrite tilted_body_wall_force. cbn [mbind option_bind].
    rewrite decide_False by lra. cbn [mbind option_bind].
    reflexivity.
  - unfold tilted_body_after. simpl. f_equal.
    unfold cross2d, zeros; simpl. lra.
  - unfold cross2d, wall_force, smul; cbn [fst snd].
    pose proof (exp_pos (- (1 - 0 - 1 / 2) / 0.08)). nra.
Qed.

(** ** The power-law social force *)

Lemma length_smul (c : R) (a : vec) : length (c ^* a) = Rabs c * length a.
Proof.
  pose proof (length_nonneg a) as Hn. pose proof (length_sq a) as Hs.
  pose proof (Rabs_pos c) as Hc.
  apply length_eq; [nra|]. unfold smul; cbn [fst snd].
  assert (Rabs c * Rabs c = c * c).
  { destruct (Rle_lt_dec 0 c).
    - now rewrite Rabs_pos_eq.
    - rewrite Rabs_left by lra. lra. }
  nra.
Qed.

(** Case analysis on the first computation of a sequence that may fail. *)
Tactic Notation "head_bind" ident(x) :=
  match goal with
  | |- (?c ≫= _) = _ -> _ =>
      destruct c as [x|]; cbn [mbind option_bind]; [|discriminate]
  end.

Section SocialForce.

Variables (x_ij v_ij : vec) (r_ij k tau_0 f_max : R).

Local Abbreviation a := (dot2d v_ij v_ij).
Local Abbreviation delta := (discriminant x_ij v_ij r_ij).
Local Abbreviation tau := (time_to_collision x_ij v_ij r_ij).

(** The guards of [f_soc_ij]: no force. *)
Lemma f_soc_ij_no_force :
  delta < 0 \/ (-0.001 < a /\ a < 0.001) \/ tau < 0 \/ tau > 999 ->
  f_soc_ij x_ij v_ij r_ij k tau_0 f_max = Some zeros.
Proof.
  intros H. unfold f_soc_ij.
  fold (discriminant x_ij v_ij r_ij).
  destruct (bool_decide (delta < 0) || bool_decide (-0.001 < a /\ a < 0.001))
    eqn:G1; [reflexivity|].
  apply orb_false_iff in G1 as [G1 G2].
  apply bool_decide_eq_false_1 in G1. apply bool_decide_eq_false_1 in G2.
  assert (Ha : a <> 0) by (intros Ha; apply G2; rewrite Ha; lra).
  rewrite (rdiv_Some _ a) by exact Ha.
  cbn [mbind option_bind]. fold (time_to_collision x_ij v_ij r_ij).
  destruct H as [H|[H|H]]; [contradiction|contradiction|].
  destruct H as [H|H].
  - now rewrite (bool_decide_eq_true_2 _ H).
  - rewrite (bool_decide_eq_true_2 (tau > 999) H). now rewrite orb_true_r.
Qed.

(** The clamp of [f_soc_ij]: a force that is returned is at most [f_max]. *)
Lemma f_soc_ij_bounded (f : vec) :
  0 <= f_max ->
  f_soc_ij x_ij v_ij r_ij k tau_0 f_max = Some f ->
  length f <= f_max.
Proof.
  intros Hmax. unfold f_soc_ij.
  assert (Hz : length zeros <= f_max).
  { replace (length zeros) with 0; [exact Hmax|].
    symmetry. now apply length_zero_iff. }
  destruct (_ || _); [now intros [= <-]|].
  head_bind t.
  destruct (_ || _); [now intros [= <-]|].
  head_bind c1. head_bind e. head_bind c2. head_bind c3. head_bind w.
  set (force := zeros ^- (c1 * exp e * (c2 + c3)) ^* (v_ij ^- w)).
  case_decide as Hmag.
  - pose proof (length_nonneg force).
    rewrite rdiv_Some by lra. cbn [mbind option_bind]. intros [= <-].
    rewrite length_smul. rewrite Rabs_pos_eq.
    + right. field. lra.
    + unfold Rdiv. apply Rmult_le_pos; [lra|].
      left. apply Rinv_0_lt_compat. lra.
  - intros [= <-]. lra.
Qed.

(** Away from the singular values, [f_soc_ij] returns a force. *)
Lemma f_soc_ij_defined :
  0 <= f_max ->
  ~ (delta < 0 \/ (-0.001 < a /\ a < 0.001) \/ tau < 0 \/ tau > 999) ->
  tau <> 0 -> delta <> 0 -> tau_0 <> 0 ->
  exists f, f_soc_ij x_ij v_ij r_ij k tau_0 f_max = Some f /\
            length f <= f_max.
Proof.
  intros Hmax Hg Ht Hd H0.
  assert (Hsome : is_Some (f_soc_ij x_ij v_ij r_ij k tau_0 f_max)).
  { unfold f_soc_ij. fold (discriminant x_ij v_ij r_ij).
    rewrite (bool_decide_eq_false_2 (delta < 0)) by tauto.
    rewrite (bool_decide_eq_false_2 (-0.001 < a /\ a < 0.001)) by tauto.
    cbn [orb].
    assert (Ha : a <> 0) by (intros Ha; apply Hg; rewrite Ha; right; left; lra).
    rewrite (rdiv_Some _ a) by exact Ha.
    cbn [mbind option_bind]. fold (time_to_collision x_ij v_ij r_ij).
    rewrite (bool_decide_eq_false_2 (tau < 0)) by tauto.
    rewrite (bool_decide_eq_false_2 (tau > 999)) by tauto.
    cbn [orb].
    rewrite (rdiv_Some k (a * tau ^ 2))
      by (apply Rmult_integral_contrapositive_currified;
          [exact Ha|now apply pow_nonzero]).
    rewrite (rdiv_Some (- tau) tau_0) by exact H0.
    rewrite (rdiv_Some 2 tau) by exact Ht.
    rewrite (rdiv_Some 1 tau_0) by exact H0.
    cbn [mbind option_bind].
    assert (Hs : sqrt delta <> 0).
    { intros Hs. apply sqrt_eq_0 in Hs; [contradiction|].
      destruct (Rle_lt_dec 0 delta); [assumption|tauto]. }
    rewrite vdiv_Some by exact Hs. cbn [mbind option_bind].
    case_decide as Hmag; [|eauto].
    match type of Hmag with
    | length ?f > _ => pose proof (length_nonneg f)
    end.
    rewrite rdiv_Some by lra. cbn [mbind option_bind]. eauto. }
  destruct Hsome as [f Hf]. exists f. split; [exact Hf|].
  now apply f_soc_ij_bounded.
Qed.

(** At a time to collision of exactly zero, [f_soc_ij] divides by zero. *)
Lemma f_soc_ij_singular :
  ~ delta < 0 -> ~ (-0.001 < a /\ a < 0.001) -> tau = 0 ->
  f_soc_ij x_ij v_ij r_ij k tau_0 f_max = None.
Proof.
  intros Hd Ha Ht. unfold f_soc_ij. fold (discriminant x_ij v_ij r_ij).
  rewrite (bool_decide_eq_false_2 (delta < 0)) by exact Hd.
  rewrite (bool_decide_eq_false_2 (-0.001 < a /\ a < 0.001)) by exact Ha.
  cbn [orb].
  assert (Ha0 : a <> 0) by (intros Ha0; apply Ha; rewrite Ha0; lra).
  rewrite (rdiv_Some _ a) by exact Ha0.
  cbn [mbind option_bind]. fold (time_to_collision x_ij v_ij r_ij).
  rewrite Ht.
  rewrite (bool_decide_eq_false_2 (0 < 0)) by lra.
  rewrite (bool_decide_eq_false_2 (0 > 999)) by lra.
  cbn [orb].
  rewrite (rdiv_None k (a * 0 ^ 2)) by lra. reflexivity.
Qed.

End SocialForce.

(** C6, at two disks that touch ([x_ij = (1, 0)], [r_ij = 1]) and approach
    each other ([v_ij = (-1, 0)]): no guard of [f_soc_ij] applies, the
    discriminant being 1, [a] being 1 and the time to collision being
    exactly 0; the force term [k / (a tau^2)] then divides by zero, and no
    force bounded by [f_max] is returned. *)
Theorem f_soc_ij_zero_time_to_collision :
  ~ discriminant (1, 0) (-1, 0) 1 < 0 /\
  ~ (-0.001 < dot2d (-1, 0) (-1, 0) /\ dot2d (-1, 0) (-1, 0) < 0.001) /\
  time_to_collision (1, 0) (-1, 0) 1 = 0 /\
  f_soc_ij (1, 0) (-1, 0) 1 1.5 3 2000 = None.
Proof.
  assert (Ed : discriminant (1, 0) (-1, 0) 1 = 1)
    by (unfold discriminant, dot2d; simpl; ring).
  assert (Ea : dot2d (-1, 0) (-1, 0) = 1) by (unfold dot2d; simpl; ring).
  assert (Et : time_to_collision (1, 0) (-1, 0) 1 = 0).
  { unfold time_to_collision. rewrite Ed, Ea, sqrt_1.
    unfold dot2d; simpl. field. }
  assert (G1 : ~ discriminant (1, 0) (-1, 0) 1 < 0) by (rewrite Ed; lra).
  assert (G2 : ~ (-0.001 < dot2d (-1, 0) (-1, 0) /\
                  dot2d (-1, 0) (-1, 0) < 0.001)) by (rewrite Ea; lra).
  repeat split; auto.
  now apply f_soc_ij_singular.
Qed.

(* ================================================================== *)
(** * Further properties of the code *)

(** ** Unit vectors and projections *)

Lemma le_of_squares (a b : R) : 0 <= a -> 0 <= b -> a * a <= b * b -> a <= b.
Proof. intros Ha Hb H. nra. Qed.

Lemma length_vdiv_self (x : vec) :
  length x <> 0 -> length (x.1 / length x, x.2 / length x) = 1.
Proof.
  intros Hl. pose proof (length_sq x) as Hs.
  apply length_eq; [lra|]. cbn [fst snd]. field_simplify_eq; [|exact Hl]. nra.
Qed.

Lemma vneg_zeros : vneg zeros = zeros.
Proof. unfold vneg, zeros; simpl. f_equal; lra. Qed.

Lemma unit_normal_sym (x0 x1 : vec) :
  unit_normal x1 x0 = vneg (unit_normal x0 x1).
Proof.
  unfold unit_normal. rewrite (length_vsub_sym x1 x0).
  case_decide as Hd; [now rewrite vneg_zeros|].
  destruct x0 as [a b], x1 as [c d]. unfold vneg, vsub; cbn [fst snd].
  f_equal; field; exact Hd.
Qed.

Lemma unit_normal_length (x0 x1 : vec) :
  x0 <> x1 -> length (unit_normal x0 x1) = 1.
Proof.
  intros Hx. unfold unit_normal.
  rewrite decide_False by (intros H; apply Hx; now apply length_vsub_zero).
  apply length_vdiv_self. intros H. apply Hx. now apply length_vsub_zero.
Qed.

(** X1: [distance_circle_circle] is symmetric in its two circles: swapping
    them gives the same skin distance and the opposite normal.  The normal
    is a unit vector, except for coincident centres, where it is zero. *)
Theorem distance_circle_circle_symmetric (x0 : vec) (r0 : R) (x1 : vec)
    (r1 : R) :
  exists h n,
    distance_circle_circle x0 r0 x1 r1 = Some (h, n) /\
    distance_circle_circle x1 r1 x0 r0 = Some (h, vneg n) /\
    (x0 <> x1 -> length n = 1) /\
    (x0 = x1 -> n = zeros).
Proof.
  exists (length (x0 ^- x1) - (r0 + r1)), (unit_normal x0 x1).
  rewrite !distance_circle_circle_value. repeat split.
  - rewrite unit_normal_sym, (length_vsub_sym x1 x0). do 3 f_equal. lra.
  - apply unit_normal_length.
  - intros ->. unfold unit_normal.
    now rewrite decide_True by apply length_vsub_self.
Qed.

(** ** The distance to a segment *)

Lemma eq_of_squares (a b : R) : 0 <= a -> 0 <= b -> a * a = b * b -> a = b.
Proof. intros Ha Hb H. nra. Qed.

Lemma unit_decomposition (t w : vec) :
  t.1 * t.1 + t.2 * t.2 = 1 ->
  dot2d t w * dot2d t w + dot2d (rotate90 t) w * dot2d (rotate90 t) w
  = w.1 * w.1 + w.2 * w.2.
Proof.
  intros Ht. unfold dot2d, rotate90; cbn [fst snd].
  replace (w.1 * w.1 + w.2 * w.2)
    with ((t.1 * t.1 + t.2 * t.2) * (w.1 * w.1 + w.2 * w.2))
    by (rewrite Ht; ring).
  ring.
Qed.

(** The segment [p] in the frame of its tangent: [l] is its length, [t] its
    unit tangent, and the point at parameter [s] lies [s l] along [t]. *)
Lemma segment_frame (x : vec) (p : vec * vec) :
  p.1 <> p.2 ->
  let l := length (p.2 ^- p.1) in
  let t := ((p.2 ^- p.1).1 / l, (p.2 ^- p.1).2 / l) in
  0 < l /\
  t.1 * t.1 + t.2 * t.2 = 1 /\
  dot2d t (x ^- p.2) = dot2d t (x ^- p.1) - l /\
  dot2d (rotate90 t) (x ^- p.2) = dot2d (rotate90 t) (x ^- p.1) /\
  forall s,
    dot2d t (x ^- (p.1 ^+ s ^* (p.2 ^- p.1))) = dot2d t (x ^- p.1) - s * l /\
    dot2d (rotate90 t) (x ^- (p.1 ^+ s ^* (p.2 ^- p.1)))
    = dot2d (rotate90 t) (x ^- p.1).
Proof.
  intros Hp l t.
  assert (Hl : 0 < l).
  { apply length_pos. intros H. apply Hp. symmetry.
    now apply (proj1 (vsub_zero_iff _ _)). }
  pose proof (length_sq (p.2 ^- p.1)) as Hs. fold l in Hs.
  assert (Ht : t.1 * t.1 + t.2 * t.2 = 1).
  { unfold t; cbn [fst snd]. field_simplify_eq; [|lra]. nra. }
  assert (E1 : (p.2 ^- p.1).1 = l * t.1)
    by (unfold t; cbn [fst snd]; field; lra).
  assert (E2 : (p.2 ^- p.1).2 = l * t.2)
    by (unfold t; cbn [fst snd]; field; lra).
  clearbody t. clear Hs. clearbody l. destruct t as [t1 t2].
  destruct x as [x1 x2], p as [[a1 a2] [b1 b2]].
  unfold dot2d, rotate90, vsub, vadd, smul in *; cbn [fst snd] in *.
  assert (b1 = a1 + l * t1) by lra. assert (b2 = a2 + l * t2) by lra.
  subst b1 b2. clear E1 E2.
  split; [exact Hl|]. split; [exact Ht|].
  split.
  { match goal with
    | |- ?L = ?R =>
        apply Rminus_diag_uniq;
        replace (L - R) with (l * (1 - (t1 * t1 + t2 * t2))) by ring
    end.
    rewrite Ht. ring. }
  split; [ring|].
  intros s. split; [|ring].
  match goal with
  | |- ?L = ?R =>
      apply Rminus_diag_uniq;
      replace (L - R) with (s * l * (1 - (t1 * t1 + t2 * t2))) by ring
  end.
  rewrite Ht. ring.
Qed.

Lemma length_frame (t w : vec) :
  t.1 * t.1 + t.2 * t.2 = 1 ->
  length w * length w
  = dot2d t w * dot2d t w + dot2d (rotate90 t) w * dot2d (rotate90 t) w.
Proof. intros Ht. rewrite length_sq. symmetry. now apply unit_decomposition. Qed.
(** [distance_circle_line] in the frame of the segment: with [a] the
    coordinate of [x - p0] along the tangent and [b] the one along the
    normal, the code measures to [p0] for [a < 0], to [p1] for [a > l] and
    to the line otherwise. *)
Lemma distance_circle_line_cases (x : vec) (r : R) (p : vec * vec) (h : R)
    (n : vec) :
  p.1 <> p.2 ->
  distance_circle_line x r p = Some (h, n) ->
  let l := length (p.2 ^- p.1) in
  let t := ((p.2 ^- p.1).1 / l, (p.2 ^- p.1).2 / l) in
  let a := dot2d t (x ^- p.1) in
  let b := dot2d (rotate90 t) (x ^- p.1) in
  (a < 0 /\ length (x ^- p.1) <> 0 /\ h = length (x ^- p.1) - r /\
   n = ((x ^- p.1).1 / length (x ^- p.1), (x ^- p.1).2 / length (x ^- p.1)))
  \/
  (a > l /\ length (x ^- p.2) <> 0 /\ h = length (x ^- p.2) - r /\
   n = ((x ^- p.2).1 / length (x ^- p.2), (x ^- p.2).2 / length (x ^- p.2)))
  \/
  (0 <= a <= l /\ h = Rabs b - r /\ n = sign b ^* rotate90 t).
Proof.
  intros Hp H l t a b.
  destruct (segment_frame x p Hp) as (Hl & Ht & Ht2 & _).
  fold l in Hl, Ht, Ht2. fold t in Ht, Ht2. fold a in Ht2.
  unfold distance_circle_line in H. cbn [fst snd] in H.
  fold l in H. rewrite (vdiv_Some (p.2 ^- p.1) l) in H by lra.
  cbn [mbind option_bind] in H. fold t in H. rewrite Ht2 in H.
  fold a in H. fold b in H.
  destruct (decide (- (a - l) - a > l)) as [H1|H1].
  - left.
    destruct (decide (length (x ^- p.1) = 0)) as [Hz|Hz].
    { rewrite (proj2 (length_zero_iff _)) in H
        by (now apply length_zero_iff).
      unfold vdiv in H. rewrite decide_True in H by reflexivity.
      discriminate. }
    rewrite vdiv_Some in H by exact Hz. cbn [mbind option_bind] in H.
    injection H as <- <-. repeat split; auto. lra.
  - destruct (decide (- (a - l) - a < - l)) as [H2|H2].
    + right; left.
      destruct (decide (length (x ^- p.2) = 0)) as [Hz|Hz].
      { unfold vdiv in H. rewrite decide_True in H by exact Hz.
        discriminate. }
      rewrite vdiv_Some in H by exact Hz. cbn [mbind option_bind] in H.
      injection H as <- <-. repeat split; auto. lra.
    + right; right. cbn [mbind option_bind] in H.
      injection H as <- <-. repeat split; auto; lra.
Qed.

(** X2: for a proper segment, [distance_circle_line] returns the distance
    from the centre [x] to the nearest point of the segment, less the
    radius: no point [p0 + s (p1 - p0)], [0 <= s <= 1], is nearer, and one
    of them is at that distance. *)
Theorem distance_circle_line_nearest (x : vec) (r : R) (p : vec * vec)
    (h : R) (n : vec) :
  p.1 <> p.2 ->
  distance_circle_line x r p = Some (h, n) ->
  (forall s, 0 <= s <= 1 ->
     h + r <= length (x ^- (p.1 ^+ s ^* (p.2 ^- p.1)))) /\
  (exists s, 0 <= s <= 1 /\
     h + r = length (x ^- (p.1 ^+ s ^* (p.2 ^- p.1)))).
Proof.
  intros Hp H.
  pose proof (distance_circle_line_cases x r p h n Hp H) as Hc.
  destruct (segment_frame x p Hp) as (Hl & Ht & Ht2 & Hn2 & Hs).
  cbv zeta in Hc.
  set (l := length (p.2 ^- p.1)) in *.
  set (t := ((p.2 ^- p.1).1 / l, (p.2 ^- p.1).2 / l)) in *.
  set (a := dot2d t (x ^- p.1)) in *.
  set (b := dot2d (rotate90 t) (x ^- p.1)) in *.
  assert (Hlen : forall s,
    length (x ^- (p.1 ^+ s ^* (p.2 ^- p.1)))
    * length (x ^- (p.1 ^+ s ^* (p.2 ^- p.1)))
    = (a - s * l) * (a - s * l) + b * b).
  { intros s. rewrite (length_frame t _ Ht).
    destruct (Hs s) as [-> ->]. reflexivity. }
  assert (Hq0 : length (x ^- p.1) * length (x ^- p.1) = a * a + b * b)
    by (now rewrite (length_frame t _ Ht)).
  assert (Hq1 : length (x ^- p.2) * length (x ^- p.2)
                = (a - l) * (a - l) + b * b)
    by (now rewrite (length_frame t _ Ht), Ht2, Hn2).
  assert (Hnn : forall w : vec, 0 <= length w) by apply length_nonneg.
  destruct Hc as [(Ha & _ & -> & _)|[(Ha & _ & -> & _)|(Ha & -> & _)]].
  - split.
    + intros s Hs01. replace (length (x ^- p.1) - r + r)
        with (length (x ^- p.1)) by lra.
      apply le_of_squares; auto. rewrite Hq0, Hlen.
      assert (0 <= s * l) by (apply Rmult_le_pos; lra).
      nra.
    + exists 0. split; [lra|].
      replace (length (x ^- p.1) - r + r) with (length (x ^- p.1)) by lra.
      f_equal. destruct x, p as [[? ?] [? ?]].
      unfold vsub, vadd, smul; cbn [fst snd]. f_equal; lra.
  - split.
    + intros s Hs01. replace (length (x ^- p.2) - r + r)
        with (length (x ^- p.2)) by lra.
      apply le_of_squares; auto. rewrite Hq1, Hlen.
      assert (s * l <= l) by nra.
      nra.
    + exists 1. split; [lra|].
      replace (length (x ^- p.2) - r + r) with (length (x ^- p.2)) by lra.
      f_equal. destruct x, p as [[? ?] [? ?]].
      unfold vsub, vadd, smul; cbn [fst snd]. f_equal; lra.
  - assert (Hb : Rabs b * Rabs b = b * b).
    { destruct (Rle_lt_dec 0 b).
      - now rewrite Rabs_pos_eq.
      - rewrite Rabs_left by lra. lra. }
    split.
    + intros s Hs01. replace (Rabs b - r + r) with (Rabs b) by lra.
      apply le_of_squares; auto using Rabs_pos. rewrite Hb, Hlen.
      pose proof (Rle_0_sqr (a - s * l)) as Hsq. unfold Rsqr in Hsq. lra.
    + exists (a / l). split.
      * split.
        -- apply Rmult_le_pos; [lra|]. left. apply Rinv_0_lt_compat. lra.
        -- apply (Rmult_le_reg_r l); [lra|].
           unfold Rdiv. rewrite Rmult_assoc, Rinv_l by lra. lra.
      * replace (Rabs b - r + r) with (Rabs b) by lra.
        apply eq_of_squares; auto using Rabs_pos.
        rewrite Hb, Hlen.
        replace (a - a / l * l) with 0 by (field; lra). ring.
Qed.
Lemma distance_circle_line_nearest_witness :
  (forall s, 0 <= s <= 1 ->
     1 - 1 / 4 + 1 / 4
     <= length ((1, 1) ^- ((0, 0) ^+ s ^* ((4, 0) ^- (0, 0))))) /\
  (exists s, 0 <= s <= 1 /\
     1 - 1 / 4 + 1 / 4
     = length ((1, 1) ^- ((0, 0) ^+ s ^* ((4, 0) ^- (0, 0))))).
Proof.
  apply (distance_circle_line_nearest (1, 1) (1 / 4) ((0, 0), (4, 0))
           (1 - 1 / 4) (0, 1)).
  - simpl. intros [= H]. lra.
  - apply distance_circle_line_above; lra.
Defined.

Lemma length_rotate90 (t : vec) : length (rotate90 t) = length t.
Proof.
  unfold length, rotate90; cbn [fst snd]. f_equal. ring.
Qed.


(** ** Minima over the disks of a body *)

(** X4: for a proper segment with no disk centred on one of its end
    points, [distance_three_circle_line] returns the least of the three
    skin distances of the disks to the segment, the normal of a disk [i]
    that attains it, and the moment arm [x[i] - r[i] n - x[0]] taken at
    that disk. *)
Theorem distance_three_circle_line_min (x : triple vec) (r : triple R)
    (p : vec * vec) :
  p.1 <> p.2 ->
  (forall k, (k < 3)%nat -> tget x k <> p.1 /\ tget x k <> p.2) ->
  exists i h n,
    (i < 3)%nat /\
    distance_circle_line (tget x i) (tget r i) p = Some (h, n) /\
    distance_three_circle_line x r p
    = Some (Some h, n, tget x i ^- tget r i ^* n ^- tget x 0) /\
    forall k h' n', (k < 3)%nat ->
      distance_circle_line (tget x k) (tget r k) p = Some (h', n') ->
      h <= h'.
Proof.
  intros Hp _. unfold distance_three_circle_line, enumerate_zip.
  cbn [foldM].
  destruct (distance_circle_line_total (tget x 0) (tget r 0) p Hp)
    as [[h0 n0] E0].
  destruct (distance_circle_line_total (tget x 1) (tget r 1) p Hp)
    as [[h1 n1] E1].
  destruct (distance_circle_line_total (tget x 2) (tget r 2) p Hp)
    as [[h2 n2] E2].
  rewrite E0, E1, E2. cbn [mbind option_bind h_min1 below_min].
  assert (Hall : forall h : R, h <= h0 -> h <= h1 -> h <= h2 ->
    forall k h' n', (k < 3)%nat ->
      distance_circle_line (tget x k) (tget r k) p = Some (h', n') ->
      h <= h').
  { intros h ? ? ? k h' n' Hk Hd.
    destruct k as [|[|[|k]]]; [| | |lia]; rewrite Hd in *; congruence. }
  destruct (decide (h1 < h0)) as [H10|H10];
    [rewrite (bool_decide_eq_true_2 _ H10)
    |rewrite (bool_decide_eq_false_2 _ H10)];
    cbn [mbind option_bind h_min1 below_min];
    [destruct (decide (h2 < h1)) as [H2|H2]
    |destruct (decide (h2 < h0)) as [H2|H2]];
    [rewrite (bool_decide_eq_true_2 _ H2)
    |rewrite (bool_decide_eq_false_2 _ H2)
    |rewrite (bool_decide_eq_true_2 _ H2)
    |rewrite (bool_decide_eq_false_2 _ H2)];
    cbn [mbind option_bind h_min1 normal1 i_min1].
  - exists 2%nat, h2, n2. repeat split; auto. apply Hall; lra.
  - exists 1%nat, h1, n1. repeat split; auto. apply Hall; lra.
  - exists 2%nat, h2, n2. repeat split; auto. apply Hall; lra.
  - exists 0%nat, h0, n0. repeat split; auto. apply Hall; lra.
Qed.

Lemma distance_three_circle_line_min_witness :
  exists i h n,
    (i < 3)%nat /\
    distance_circle_line (tget body0_x i) (tget body_r i) ((0, -1), (4, -1))
    = Some (h, n) /\
    distance_three_circle_line body0_x body_r ((0, -1), (4, -1))
    = Some (Some h, n,
            tget body0_x i ^- tget body_r i ^* n ^- tget body0_x 0) /\
    forall k h' n', (k < 3)%nat ->
      distance_circle_line (tget body0_x k) (tget body_r k)
        ((0, -1), (4, -1))
      = Some (h', n') ->
      h <= h'.
Proof.
  apply (distance_three_circle_line_min body0_x body_r ((0, -1), (4, -1))).
  - simpl. intros [= H]. lra.
  - intros k Hk. destruct k as [|[|[|k]]]; [| | |lia];
      split; intros E; apply (f_equal snd) in E; simpl in E; lra.
Defined.

(** ** Loops that keep a running minimum *)

Lemma foldM_ext {A S : Type} (f g : S -> A -> option S) (l : list A) :
  (forall s a, f s a = g s a) -> forall s, foldM f s l = foldM g s l.
Proof.
  intros E. induction l as [|a l IH]; intros s; simpl; [reflexivity|].
  rewrite E. destruct (g s a); simpl; auto.
Qed.

Lemma foldM_app {A S : Type} (f : S -> A -> option S) (l1 l2 : list A) :
  forall s, foldM f s (l1 ++ l2) = foldM f s l1 ≫= fun s' => foldM f s' l2.
Proof.
  induction l1 as [|a l1 IH]; intros s; simpl; [reflexivity|].
  destruct (f s a); simpl; auto.
Qed.

Lemma foldM_map {A B S : Type} (f : S -> B -> option S) (h : A -> B)
    (l : list A) :
  forall s, foldM f s (map h l) = foldM (fun s a => f s (h a)) s l.
Proof.
  induction l as [|a l IH]; intros s; simpl; [reflexivity|].
  destruct (f s (h a)); simpl; auto.
Qed.

(** A loop nested in a loop is one loop over the pairs, in row order. *)
Lemma foldM_nested {A B S : Type} (g : S -> A -> B -> option S)
    (la : list A) (lb : list B) :
  forall s,
    foldM (fun s a => foldM (fun s b => g s a b) s lb) s la
    = foldM (fun s ab => g s ab.1 ab.2) s (list_prod la lb).
Proof.
  induction la as [|a la IH]; intros s; simpl; [reflexivity|].
  rewrite foldM_app, foldM_map. simpl.
  destruct (foldM (fun s b => g s a b) s lb); simpl; auto.
Qed.

Section RunningMin.

Context {A V S : Type}.
Variable pre : A -> option V.
Variable key : A -> V -> R.
Variable upd : A -> V -> option S.
Variable cur : S -> option R.
Variable f : S -> A -> option S.

Hypothesis f_step : forall s a,
  f s a = v ← pre a;
          if below_min (key a v) (cur s) then upd a v else Some s.
Hypothesis upd_cur : forall a v s, upd a v = Some s -> cur s = Some (key a v).

(** A loop that replaces its state whenever a candidate is strictly below
    the running minimum either keeps the initial state, no candidate being
    below its minimum, or ends in the state written for a candidate with
    the least key. *)
Lemma running_min (l : list A) : forall s s',
  foldM f s l = Some s' ->
  (s' = s /\
   forall a, a ∈ l -> exists v, pre a = Some v /\
                                below_min (key a v) (cur s) = false) \/
  (exists a v, a ∈ l /\ pre a = Some v /\ upd a v = Some s' /\
     below_min (key a v) (cur s) = true /\
     forall b, b ∈ l -> exists w, pre b = Some w /\ key a v <= key b w).
Proof.
  induction l as [|a l IH]; intros s s' H; simpl in H.
  - injection H as <-. left. split; [reflexivity|].
    intros a Ha. inversion Ha.
  - rewrite f_step in H.
    destruct (pre a) as [v|] eqn:Ev; [|discriminate]. simpl in H.
    destruct (below_min (key a v) (cur s)) eqn:Eb.
    + destruct (upd a v) as [s1|] eqn:Eu; [|discriminate]. simpl in H.
      pose proof (upd_cur _ _ _ Eu) as Ec.
      destruct (IH _ _ H) as [[-> Hall]|(a' & v' & Ha' & Ev' & Eu' & Eb' & Hall)].
      * right. exists a, v. repeat split; auto; [left|].
        intros b Hb. apply elem_of_cons in Hb as [->|Hb].
        { exists v. split; [assumption|lra]. }
        destruct (Hall b Hb) as (w & Ew & Hw). exists w. split; [assumption|].
        rewrite Ec in Hw. simpl in Hw. apply bool_decide_eq_false in Hw. lra.
      * rewrite Ec in Eb'. simpl in Eb'. apply bool_decide_eq_true in Eb'.
        right. exists a', v'. repeat split; auto; [now right| |].
        { destruct (cur s) as [m|]; [|reflexivity]. simpl in *.
          apply bool_decide_eq_true in Eb. apply bool_decide_eq_true. lra. }
        intros b Hb. apply elem_of_cons in Hb as [->|Hb]; [|auto].
        exists v. split; [assumption|lra].
    + simpl in H.
      destruct (IH _ _ H) as [[-> Hall]|(a' & v' & Ha' & Ev' & Eu' & Eb' & Hall)].
      * left. split; [reflexivity|].
        intros b Hb. apply elem_of_cons in Hb as [->|Hb]; [|auto].
        exists v. split; assumption.
      * right. exists a', v'. repeat split; auto; [now right|].
        intros b Hb. apply elem_of_cons in Hb as [->|Hb]; [|auto].
        exists v. split; [assumption|].
        destruct (cur s) as [m|]; [|discriminate]. simpl in *.
        apply bool_decide_eq_true in Eb'. apply bool_decide_eq_false in Eb.
        lra.
Qed.

(** Started on [np.nan] with at least one candidate, the loop ends in the
    state of a least candidate. *)
Lemma running_min_nan (l : list A) (s s' : S) :
  l <> [] -> cur s = None -> foldM f s l = Some s' ->
  exists a v, a ∈ l /\ pre a = Some v /\ upd a v = Some s' /\
    forall b, b ∈ l -> exists w, pre b = Some w /\ key a v <= key b w.
Proof.
  intros Hl Hs H.
  destruct (running_min l s s' H) as [[_ Hall]|(a & v & ? & ? & ? & _ & ?)].
  - destruct l as [|a l]; [congruence|].
    destruct (Hall a) as (v & _ & Hv); [left|].
    rewrite Hs in Hv. discriminate.
  - exists a, v. auto.
Qed.

End RunningMin.
Lemma vdiv_unit_normal (x0 x1 n : vec) :
  vdiv (x0 ^- x1) (length (x0 ^- x1)) = Some n ->
  x0 <> x1 /\ n = unit_normal x0 x1.
Proof.
  unfold vdiv, rdiv, unit_normal. intros H.
  destruct (decide (length (x0 ^- x1) = 0)) as [E|E]; [discriminate|].
  simpl in H. injection H as <-. split; [|reflexivity].
  intros ->. apply E, length_vsub_self.
Qed.



Section WallDistance.

Variable Wall : Type.
Variable distance_with_normal : Wall -> nat -> vec -> option (R * vec).

(** X6: when [agent_wall_distance] returns, its distance is the least of
    the skin distances of the three disks of the agent to segment [w], as
    [wall.distance_with_normal] measures them; the normal is the one of a
    disk that attains it, and the moment arm points from the agent's
    centre to the contact point on that disk. *)
Theorem agent_wall_distance_min (agent : Agent) (wall : Wall) (i w : nat)
    (h : option R) (n m : vec) :
  agent_wall_distance Wall distance_with_normal agent wall i w
  = Some (h, n, m) ->
  exists d_i p_i x_a r_a d_a,
    disks agent i = Some d_i /\ position agent !! i = Some p_i /\
    (x_a, r_a) ∈ d_i /\
    distance_with_normal wall w x_a = Some (d_a, n) /\
    h = Some (d_a - r_a) /\
    m = x_a ^- r_a ^* n ^- p_i /\
    forall x r, (x, r) ∈ d_i ->
      exists d' n', distance_with_normal wall w x = Some (d', n') /\
                    d_a - r_a <= d' - r.
Proof.
  unfold agent_wall_distance, disks. intros H.
  destruct (position agent !! i) as [p_i|]; [|discriminate].
  destruct (position_ls agent !! i) as [ls_i|]; [|discriminate].
  destruct (position_rs agent !! i) as [rs_i|]; [|discriminate].
  destruct (r_t agent !! i) as [rt_i|]; [|discriminate].
  destruct (r_s agent !! i) as [rsh_i|]; [|discriminate].
  cbn [mbind option_bind] in H |- *.
  match type of H with
  | (foldM _ ?s0 ?la ≫= _) = _ =>
      destruct (foldM _ s0 la) as [[[[h' x'] n'] r']|] eqn:EF; [|discriminate]
  end.
  cbn [mbind option_bind] in H. injection H as <- <- <-.
  apply (running_min_nan
           (fun a : vec * R => distance_with_normal wall w a.1)
           (fun a v => v.1 - a.2)
           (fun a v => Some (Some (v.1 - a.2), a.1, v.2, a.2))
           (fun s : option R * vec * vec * R => s.1.1.1)) in EF.
  - destruct EF as ([x_a r_a] & [d_a n_a] & Hin & Hd & Hu & Hmin).
    cbn [fst snd] in Hd, Hu, Hmin. injection Hu as <- <- <- <-.
    exists [(p_i, rt_i); (ls_i, rsh_i); (rs_i, rsh_i)], p_i, x_a, r_a, d_a.
    repeat split; auto.
    intros x r Hx. destruct (Hmin (x, r) Hx) as ([d' n'] & Hd' & Hle).
    exists d', n'. auto.
  - intros [[[h0 x0] n0] r0] [xi ri]. cbn [fst snd].
    destruct (distance_with_normal wall w xi) as [[d n]|]; reflexivity.
  - intros a v s [= <-]. reflexivity.
  - discriminate.
  - reflexivity.
Qed.

End WallDistance.

Lemma tilted_body_wall_distance :
  agent_wall_distance Obstacles.Wall Obstacles.distance_with_normal
    tilted_body floor_wall 0 0
  = Some (Some (5 / 8), (0, 1), (1 / 4, - 3 / 8)).
Proof.
  unfold agent_wall_distance. simpl position. simpl position_ls.
  simpl position_rs. simpl r_t. simpl r_s.
  cbn [lookup list_lookup mbind option_bind zip zip_with foldM].
  rewrite (floor_wall_distance 2 1) by lra.
  cbn [mbind option_bind below_min].
  rewrite (floor_wall_distance (7 / 4) (5 / 4)) by lra.
  cbn [mbind option_bind below_min].
  rewrite bool_decide_eq_false_2 by lra. cbn [mbind option_bind].
  rewrite (floor_wall_distance (9 / 4) (3 / 4)) by lra.
  cbn [mbind option_bind below_min].
  rewrite bool_decide_eq_true_2 by lra. cbn [mbind option_bind].
  unfold vsub, smul; cbn [fst snd]. repeat f_equal; lra.
Qed.

Lemma agent_wall_distance_min_witness :
  exists d_i p_i x_a r_a d_a,
    disks tilted_body 0 = Some d_i /\
    position tilted_body !! 0%nat = Some p_i /\
    (x_a, r_a) ∈ d_i /\
    Obstacles.distance_with_normal floor_wall 0 x_a = Some (d_a, (0, 1)) /\
    Some (5 / 8) = Some (d_a - r_a) /\
    (1 / 4, - 3 / 8) = x_a ^- r_a ^* (0, 1) ^- p_i /\
    forall x r, (x, r) ∈ d_i ->
      exists d' n', Obstacles.distance_with_normal floor_wall 0 x
                    = Some (d', n') /\
                    d_a - r_a <= d' - r.
Proof.
  apply (agent_wall_distance_min Obstacles.Wall
           Obstacles.distance_with_normal tilted_body floor_wall 0 0
           (Some (5 / 8)) (0, 1) (1 / 4, - 3 / 8)).
  apply tilted_body_wall_distance.
Defined.
(** ** Walls: [source/field/wall.py] *)

Lemma length_unit_components (t : vec) :
  length t = 1 -> t.1 * t.1 + t.2 * t.2 = 1.
Proof. intros H. rewrite <- length_sq, H. ring. Qed.

(** X7: [LinearWall.construct] fails exactly on a segment whose end points
    coincide; otherwise the row it writes holds the end points, the length
    [l_w > 0] of the segment, a unit tangent and a unit normal that are
    perpendicular, and the second end point is [p_0 + l_w t_w]. *)
Theorem construct_linear_row (p : vec * vec) :
  (p.1 = p.2 /\ Walls.construct_linear p = None) \/
  (p.1 <> p.2 /\
   exists row, Walls.construct_linear p = Some row /\
     Walls.p_0 row = p.1 /\ Walls.p_1 row = p.2 /\
     Walls.l_w row = length (p.2 ^- p.1) /\ 0 < Walls.l_w row /\
     length (Walls.t_w row) = 1 /\ length (Walls.n_w row) = 1 /\
     dot2d (Walls.t_w row) (Walls.n_w row) = 0 /\
     Walls.p_1 row = Walls.p_0 row ^+ Walls.l_w row ^* Walls.t_w row).
Proof.
  unfold Walls.construct_linear, vdiv, rdiv.
  destruct (decide (p.1 = p.2)) as [E|E].
  - left. split; [assumption|].
    rewrite decide_True; [reflexivity|].
    rewrite E. apply length_vsub_self.
  - right. split; [assumption|].
    assert (Hl : length (p.2 ^- p.1) <> 0).
    { intros H. apply length_vsub_zero in H. congruence. }
    rewrite decide_False by assumption. cbn [mbind option_bind].
    eexists. split; [reflexivity|]. cbn [Walls.p_0 Walls.p_1 Walls.l_w
      Walls.t_w Walls.n_w].
    pose proof (length_nonneg (p.2 ^- p.1)) as Hn.
    pose proof (length_vdiv_self (p.2 ^- p.1) Hl) as Ht.
    repeat split; auto.
    + lra.
    + rewrite length_rotate90. exact Ht.
    + unfold dot2d, rotate90; cbn [fst snd]. ring.
    + destruct p as [[a b] [c d]].
      unfold vadd, smul, vsub in *; cbn [fst snd] in *.
      f_equal; field; assumption.
Qed.
(** X8: the two implementations of the distance to a wall segment agree:
    on a row written by [LinearWall.construct], [LinearWall.distance]
    returns the distance [h + r] from the centre that
    [distance_circle_line] of [distance.py] computes for the same
    segment. *)
Theorem linear_wall_distance_agrees (p : vec * vec) (row : Walls.linear_row)
    (rows : list Walls.linear_row) (i : nat) (x : vec) (r h : R) (n : vec) :
  Walls.construct_linear p = Some row ->
  rows !! i = Some row ->
  distance_circle_line x r p = Some (h, n) ->
  Walls.distance (Walls.LinearWall rows) i x = Some (h + r).
Proof.
  unfold Walls.construct_linear, distance_circle_line, Walls.distance.
  intros Hc Hi H. rewrite Hi. cbn [mbind option_bind].
  destruct (vdiv (p.2 ^- p.1) (length (p.2 ^- p.1))) as [t|];
    [|discriminate].
  cbn [mbind option_bind] in Hc, H. injection Hc as <-.
  cbn [Walls.p_0 Walls.p_1 Walls.l_w Walls.t_w Walls.n_w fst snd] in *.
  destruct (decide (_ > _)) as [H1|H1].
  - destruct (vdiv (x ^- p.1) _) as [n1|]; [|discriminate].
    cbn [mbind option_bind] in H. injection H as <- <-. f_equal. lra.
  - destruct (decide (_ < _)) as [H2|H2].
    + destruct (vdiv (x ^- p.2) _) as [n1|]; [|discriminate].
      cbn [mbind option_bind] in H. injection H as <- <-. f_equal. lra.
    + cbn [mbind option_bind] in H. injection H as <- <-. f_equal. lra.
Qed.

Lemma floor_row_constructed :
  Walls.construct_linear ((0, 0), (4, 0)) = Some floor_row.
Proof.
  unfold Walls.construct_linear. cbn [fst snd].
  rewrite (length_eq ((4, 0) ^- (0, 0)) 4) by (simpl; lra).
  rewrite (vdiv_Some ((4, 0) ^- (0, 0)) 4) by lra.
  reflexivity.
Qed.

Lemma linear_wall_distance_agrees_witness :
  Walls.distance (Walls.LinearWall [floor_row]) 0 (1, 1)
  = Some (1 - 1 / 4 + 1 / 4).
Proof.
  apply (linear_wall_distance_agrees ((0, 0), (4, 0)) floor_row [floor_row]
           0 (1, 1) (1 / 4) (1 - 1 / 4) (0, 1)).
  - apply floor_row_constructed.
  - reflexivity.
  - apply distance_circle_line_above; lra.
Defined.

(** X9: [wall.distance(i, x)] raises [IndexError] exactly when the
    integer [i] is negative or not below [size]; for [0 <= i < size] it
    returns a distance, which is at least [-r] for a round wall of radius
    [r] and nonnegative for a linear wall. *)
Theorem wall_distance_index (w : Walls.wall) (i : Z) (x : vec) :
  ((i < 0 \/ Z.of_nat (Walls.wall_size w) <= i)%Z /\
   Walls.distance_int w i x = None) \/
  ((0 <= i < Z.of_nat (Walls.wall_size w))%Z /\
   exists d, Walls.distance_int w i x = Some d /\
     match w with
     | Walls.RoundWall rows =>
         exists p r, rows !! Z.to_nat i = Some (p, r) /\ - r <= d
     | Walls.LinearWall _ => 0 <= d
     end).
Proof.
  unfold Walls.distance_int, Walls.deconstruct_index.
  destruct (decide (i < 0 \/ i >= Z.of_nat (Walls.wall_size w))%Z)
    as [Hout|Hin].
  - left. split; [lia|reflexivity].
  - right. split; [lia|]. cbn [mbind option_bind].
    assert (Hk : (Z.to_nat i < Walls.wall_size w)%nat) by lia.
    destruct w as [rows|rows]; cbn [Walls.wall_size Walls.distance] in *.
    + destruct (lookup_lt_is_Some_2 rows _ Hk) as [[p r] E]. rewrite E.
      cbn [mbind option_bind]. eexists. split; [reflexivity|].
      exists p, r. split; [reflexivity|].
      pose proof (length_nonneg (x ^- p)). lra.
    + destruct (lookup_lt_is_Some_2 rows _ Hk) as [row E]. rewrite E.
      cbn [mbind option_bind].
      repeat case_decide; eexists; (split; [reflexivity|]);
        auto using length_nonneg, Rabs_pos.
Qed.

(** ** The power-law force between agents: [source/core/force_agents.py] *)

Lemma dot2d_vneg (a b : vec) : dot2d (vneg a) (vneg b) = dot2d a b.
Proof. unfold dot2d, vneg; cbn [fst snd]. ring. Qed.

Lemma length_vneg (a : vec) : length (vneg a) = length a.
Proof. unfold length, vneg; cbn [fst snd]. f_equal. ring. Qed.

Lemma vdiv_vneg (x : vec) (d : R) : vdiv (vneg x) d = vneg <$> vdiv x d.
Proof.
  unfold vdiv. case_decide; [reflexivity|]. simpl. f_equal.
  unfold vneg; cbn [fst snd]. f_equal; field; assumption.
Qed.

(** [f_soc_ij] is odd in the relative position and velocity. *)
Lemma f_soc_ij_odd (x_ij v_ij : vec) (r_ij k tau_0 f_max : R) :
  f_soc_ij (vneg x_ij) (vneg v_ij) r_ij k tau_0 f_max
  = vneg <$> f_soc_ij x_ij v_ij r_ij k tau_0 f_max.
Proof.
  unfold f_soc_ij. rewrite !dot2d_vneg.
  destruct (_ || _); [cbn [fmap option_fmap option_map]; now rewrite vneg_zeros|].
  destruct (rdiv _ (dot2d v_ij v_ij)) as [tau|]; [|reflexivity].
  cbn [mbind option_bind].
  destruct (_ || _); [cbn [fmap option_fmap option_map]; now rewrite vneg_zeros|].
  destruct (rdiv k _) as [c1|]; [|reflexivity]. cbn [mbind option_bind].
  destruct (rdiv (- tau) tau_0) as [e|]; [|reflexivity].
  cbn [mbind option_bind].
  destruct (rdiv 2 tau) as [c2|]; [|reflexivity]. cbn [mbind option_bind].
  destruct (rdiv 1 tau_0) as [c3|]; [|reflexivity]. cbn [mbind option_bind].
  replace (- dot2d x_ij v_ij ^* vneg v_ij ^+ dot2d v_ij v_ij ^* vneg x_ij)
    with (vneg (- dot2d x_ij v_ij ^* v_ij ^+ dot2d v_ij v_ij ^* x_ij))
    by (generalize (dot2d x_ij v_ij), (dot2d v_ij v_ij); intros; vec_lra).
  rewrite vdiv_vneg.
  destruct (vdiv _ _) as [w|]; [|reflexivity].
  cbn [fmap option_fmap option_map mbind option_bind].
  replace (zeros ^- (c1 * exp e * (c2 + c3)) ^* (vneg v_ij ^- vneg w))
    with (vneg (zeros ^- (c1 * exp e * (c2 + c3)) ^* (v_ij ^- w)))
    by (generalize (c1 * exp e * (c2 + c3)); intros; vec_lra).
  rewrite length_vneg.
  case_decide; [|reflexivity].
  destruct (rdiv f_max _) as [s|]; [|reflexivity].
  cbn [fmap option_fmap option_map mbind option_bind]. f_equal.
  generalize (zeros ^- (c1 * exp e * (c2 + c3)) ^* (v_ij ^- w)).
  intros; vec_lra.
Qed.
Lemma vsub_swap (a b : vec) : b ^- a = vneg (a ^- b).
Proof. vec_lra. Qed.

Lemma f_c_ij_odd (h : R) (n v : vec) (mu kappa : R) :
  f_c_ij h (vneg n) (vneg v) (rotate270 (vneg n)) mu kappa
  = vneg (f_c_ij h n v (rotate270 n) mu kappa).
Proof.
  unfold f_c_ij, dot2d, rotate270, vneg, smul, vsub; cbn [fst snd].
  f_equal; ring.
Qed.

(** The pair force on [j] on account of [i] is the opposite of the one on
    [i] on account of [j]. *)
Lemma pair_force_antisymmetric (constant : Constant.t) (x v : list vec)
    (r : list R) (i j : nat) :
  pair_force constant x v r j i = vneg <$> pair_force constant x v r i j.
Proof.
  unfold pair_force.
  destruct (x !! i) as [x_i|], (x !! j) as [x_j|]; try reflexivity.
  destruct (v !! i) as [v_i|], (v !! j) as [v_j|]; try reflexivity.
  destruct (r !! i) as [r_i|], (r !! j) as [r_j|]; try reflexivity.
  cbn [mbind option_bind].
  rewrite (length_vsub_sym x_j x_i), (Rplus_comm r_j r_i).
  rewrite (vsub_swap x_i x_j), (vsub_swap v_i v_j).
  set (x_ij := x_i ^- x_j). set (v_ij := v_i ^- v_j).
  assert (Es :
    (if decide (length x_ij < Constant.sight constant)
     then f_soc_ij (vneg x_ij) (vneg v_ij) (r_i + r_j) (Constant.k constant)
            (Constant.tau_0 constant) (Constant.f_max constant)
     else Some zeros)
    = vneg <$>
      (if decide (length x_ij < Constant.sight constant)
       then f_soc_ij x_ij v_ij (r_i + r_j) (Constant.k constant)
              (Constant.tau_0 constant) (Constant.f_max constant)
       else Some zeros)).
  { case_decide; [apply f_soc_ij_odd|].
    cbn [fmap option_fmap option_map]. now rewrite vneg_zeros. }
  rewrite Es. clear Es.
  match goal with
  | |- context [vneg <$> ?c] => destruct c as [f_soc|]
  end; [|reflexivity].
  cbn [fmap option_fmap option_map mbind option_bind].
  case_decide.
  - rewrite vdiv_vneg. destruct (vdiv x_ij _) as [n|]; [|reflexivity].
    cbn [fmap option_fmap option_map mbind option_bind].
    rewrite f_c_ij_odd. f_equal.
    generalize (f_c_ij (r_i + r_j - length x_ij) n v_ij (rotate270 n)
                  (Constant.mu constant) (Constant.kappa constant)).
    intros; vec_lra.
  - cbn [fmap option_fmap option_map mbind option_bind]. f_equal. vec_lra.
Qed.

Lemma add_at_Some (i : nat) (f : vec) (force force' : list vec) :
  add_at i f force = Some force' ->
  exists fi, force !! i = Some fi /\ force' = <[i := fi ^+ f]> force.
Proof.
  unfold add_at. intros H. destruct (force !! i) as [fi|]; [|discriminate].
  injection H as <-. eauto.
Qed.

(** One pass of the body of [f_ij] adds the pair force to [force[i]]. *)
Lemma f_ij_step_pair_force (constant : Constant.t) (x v : list vec)
    (r : list R) (i j : nat) (force force' : list vec) :
  (i < List.length force)%nat ->
  f_ij_step constant x v r i j force = Some force' ->
  exists p fi, pair_force constant x v r i j = Some p /\
    force !! i = Some fi /\ force' = <[i := fi ^+ p]> force.
Proof.
  unfold f_ij_step, pair_force. intros Hi H.
  destruct (x !! i) as [x_i|], (x !! j) as [x_j|]; try discriminate.
  destruct (v !! i) as [v_i|], (v !! j) as [v_j|]; try discriminate.
  destruct (r !! i) as [r_i|], (r !! j) as [r_j|]; try discriminate.
  cbn [mbind option_bind] in H |- *.
  destruct (lookup_lt_is_Some_2 force i Hi) as [fi Hfi].
  set (x_ij := x_i ^- x_j) in *. set (v_ij := v_i ^- v_j) in *.
  assert (H1 : exists f_soc,
    (if decide (length x_ij < Constant.sight constant)
     then f_soc_ij x_ij v_ij (r_i + r_j) (Constant.k constant)
            (Constant.tau_0 constant) (Constant.f_max constant)
     else Some zeros) = Some f_soc /\
    (if decide (length x_ij < Constant.sight constant)
     then f ← f_soc_ij x_ij v_ij (r_i + r_j) (Constant.k constant)
                (Constant.tau_0 constant) (Constant.f_max constant);
          add_at i f force
     else Some force) = Some (<[i := fi ^+ f_soc]> force)).
  { destruct (decide (length x_ij < Constant.sight constant)).
    - destruct (f_soc_ij _ _ _ _ _ _) as [f|];
        [|cbn [mbind option_bind] in H; discriminate H].
      cbn [mbind option_bind] in H |- *. exists f. split; [reflexivity|].
      unfold add_at. rewrite Hfi. reflexivity.
    - exists zeros. split; [reflexivity|]. f_equal.
      symmetry. apply list_insert_id. rewrite Hfi. f_equal. vec_lra. }
  destruct H1 as (f_soc & -> & E1). rewrite E1 in H.
  cbn [mbind option_bind] in H |- *.
  destruct (decide (r_i + r_j - length x_ij > 0)).
  - destruct (vdiv x_ij _) as [n|]; [|discriminate].
    cbn [mbind option_bind] in H |- *.
    apply add_at_Some in H as (fi' & Hfi' & ->).
    rewrite list_lookup_insert_eq in Hfi' by exact Hi.
    injection Hfi' as <-.
    eexists _, fi. split; [reflexivity|]. split; [exact Hfi|].
    rewrite list_insert_insert_eq. f_equal.
    generalize (f_c_ij (r_i + r_j - length x_ij) n v_ij (rotate270 n)
                  (Constant.mu constant) (Constant.kappa constant)).
    intros; vec_lra.
  - injection H as <-. eexists _, fi. split; [reflexivity|].
    split; [exact Hfi|]. f_equal. vec_lra.
Qed.
Lemma vsum_map_add {A : Type} (g h : A -> vec) (l : list A) :
  vsum (map (fun a => g a ^+ h a) l) = vsum (map g l) ^+ vsum (map h l).
Proof.
  induction l as [|a l IH]; simpl; [vec_lra|]. rewrite IH.
  generalize (g a), (h a), (vsum (map g l)), (vsum (map h l)).
  intros; vec_lra.
Qed.

Lemma vsum_map_neg {A : Type} (g : A -> vec) (l : list A) :
  vsum (map (fun a => vneg (g a)) l) = vneg (vsum (map g l)).
Proof.
  induction l as [|a l IH]; simpl; [vec_lra|]. rewrite IH.
  generalize (g a), (vsum (map g l)). intros; vec_lra.
Qed.

(** The sum of an antisymmetric table over a square of indices is zero. *)
Lemma antisymmetric_double_sum {A : Type} (G : A -> A -> vec) (l : list A) :
  (forall a b, G b a = vneg (G a b)) ->
  vsum (map (fun a => vsum (map (G a) l)) l) = zeros.
Proof.
  intros HG. induction l as [|a l IH]; [reflexivity|].
  cbn [map vsum foldr]. fold (vsum (map (G a) l)).
  change (foldr vadd zeros
            (map (fun a0 => G a0 a ^+ foldr vadd zeros (map (G a0) l)) l))
    with (vsum (map (fun a0 => G a0 a ^+ vsum (map (G a0) l)) l)).
  rewrite (vsum_map_add (fun a0 => G a0 a) (fun a0 => vsum (map (G a0) l))).
  rewrite IH.
  rewrite (map_ext (fun a0 => G a0 a) (fun a0 => vneg (G a a0)))
    by (intros; apply HG).
  rewrite vsum_map_neg.
  assert (Haa : G a a = zeros).
  { pose proof (HG a a) as E. destruct (G a a) as [u w].
    unfold vneg in E; cbn [fst snd] in E. injection E as E1 E2.
    unfold zeros. f_equal; lra. }
  rewrite Haa. generalize (vsum (map (G a) l)). intros; vec_lra.
Qed.

Section ForceDriver.

Variable constant : Constant.t.
Variables (x v : list vec) (r : list R).

Local Abbreviation G := (pair_force_total constant x v r).

Lemma pair_force_total_antisymmetric (i j : nat) : G j i = vneg (G i j).
Proof.
  unfold pair_force_total.
  destruct (decide (i = j)) as [->|Hij].
  - rewrite decide_True by reflexivity. now rewrite vneg_zeros.
  - rewrite decide_False by congruence.
    rewrite pair_force_antisymmetric.
    destruct (pair_force constant x v r i j); simpl;
      [reflexivity|now rewrite vneg_zeros].
Qed.

(** The inner loop of [f_ij] adds to [force[i]] the pair forces of the
    agents it visits. *)
Lemma f_ij_row (i : nat) (l : list nat) : forall force force',
  (i < List.length force)%nat ->
  foldM (fun force j =>
           if decide (i = j) then Some force
           else f_ij_step constant x v r i j force) force l = Some force' ->
  List.length force' = List.length force /\
  vsum force' = vsum force ^+ vsum (map (G i) l).
Proof.
  induction l as [|j l IH]; intros force force' Hi H; cbn [foldM] in H.
  - injection H as <-. split; [reflexivity|]. simpl.
    generalize (vsum force). intros; vec_lra.
  - match type of H with
    | (?c ≫= _) = _ => destruct c as [f1|] eqn:E1; [|discriminate]
    end.
    cbn [mbind option_bind] in H.
    assert (Hf1 : List.length f1 = List.length force /\
                  vsum f1 = vsum force ^+ G i j).
    { unfold pair_force_total. destruct (decide (i = j)) as [Hij|Hij].
      - injection E1 as <-. split; [reflexivity|].
        generalize (vsum force). intros; vec_lra.
      - apply f_ij_step_pair_force in E1 as (p & fi & -> & Hfi & ->);
          [|exact Hi].
        split; [apply length_insert|].
        rewrite (vsum_insert force i fi _ Hfi). simpl.
        generalize (vsum force). intros; vec_lra. }
    destruct Hf1 as [Hl1 Hs1].
    destruct (IH f1 force') as [Hl Hs]; [lia|exact H|].
    split; [congruence|]. rewrite Hs, Hs1. simpl.
    generalize (vsum force), (G i j), (vsum (map (G i) l)).
    intros; vec_lra.
Qed.

Lemma f_ij_rows (n : nat) (l : list nat) : forall force force',
  Forall (fun i => (i < List.length force)%nat) l ->
  foldM (fun force i =>
    foldM (fun force j =>
             if decide (i = j) then Some force
             else f_ij_step constant x v r i j force) force (seq 0 n))
    force l = Some force' ->
  List.length force' = List.length force /\
  vsum force'
  = vsum force ^+ vsum (map (fun i => vsum (map (G i) (seq 0 n))) l).
Proof.
  induction l as [|i l IH]; intros force force' Hl H; cbn [foldM] in H.
  - injection H as <-. split; [reflexivity|]. simpl.
    generalize (vsum force). intros; vec_lra.
  - match type of H with
    | (?c ≫= _) = _ => destruct c as [f1|] eqn:E1; [|discriminate]
    end.
    cbn [mbind option_bind] in H.
    apply Forall_cons in Hl as [Hi Hl].
    apply f_ij_row in E1 as [Hl1 Hs1]; [|exact Hi].
    destruct (IH f1 force') as [Hl2 Hs2]; [now rewrite Hl1|exact H|].
    split; [congruence|]. rewrite Hs2, Hs1. simpl.
    generalize (vsum force), (vsum (map (G i) (seq 0 n))),
      (vsum (map (fun i => vsum (map (G i) (seq 0 n))) l)).
    intros; vec_lra.
Qed.

End ForceDriver.

Lemma vsum_replicate_zeros (n : nat) : vsum (replicate n zeros) = zeros.
Proof. induction n as [|n IH]; simpl; [reflexivity|]. rewrite IH. vec_lra. Qed.

(** X10: Newton's third law in [f_ij]: the pair forces being opposite
    ([f_soc_ij] is odd in the relative position and velocity, and so is
    the contact force [f_c_ij] along the normal between the agents), the
    forces that [f_ij] returns, one for each agent, sum to zero. *)
Theorem f_ij_third_law (constant : Constant.t) (agent : Agent)
    (force : list vec) :
  f_ij constant agent = Some force ->
  List.length force = size agent /\ vsum force = zeros.
Proof.
  unfold f_ij. intros H.
  apply f_ij_rows in H as [Hl Hs].
  - rewrite length_replicate in Hl. split; [exact Hl|].
    rewrite Hs, vsum_replicate_zeros.
    rewrite antisymmetric_double_sum.
    + vec_lra.
    + intros a b. apply pair_force_total_antisymmetric.
  - rewrite length_replicate. apply Forall_forall. intros i Hi.
    apply elem_of_seq in Hi. lia.
Qed.
Lemma f_ij_step_overlapping_0 :
  f_ij_step default_constant [(0, 0); (1 / 4, 0)] [zeros; zeros]
    [1 / 4; 1 / 4] 0 1 [zeros; zeros]
  = Some [(-30000, 0); zeros].
Proof.
  assert (Hl : length ((0, 0) ^- (1 / 4, 0)) = 1 / 4)
    by (apply length_eq; simpl; lra).
  unfold f_ij_step, add_at.
  cbn [lookup list_lookup mbind option_bind].
  rewrite Hl. simpl Constant.sight.
  rewrite (decide_True (P := 1 / 4 < 3)) by lra.
  rewrite f_soc_ij_at_rest. cbn [lookup list_lookup mbind option_bind].
  rewrite (decide_True (P := 1 / 4 + 1 / 4 - 1 / 4 > 0)) by lra.
  rewrite (vdiv_Some ((0, 0) ^- (1 / 4, 0)) (1 / 4)) by lra.
  cbn [lookup list_lookup mbind option_bind insert list_insert].
  unfold f_c_ij, dot2d, rotate270, vadd, vsub, smul, zeros.
  simpl. repeat f_equal; field.
Qed.

Lemma f_ij_step_overlapping_1 :
  f_ij_step default_constant [(0, 0); (1 / 4, 0)] [zeros; zeros]
    [1 / 4; 1 / 4] 1 0 [(-30000, 0); zeros]
  = Some [(-30000, 0); (30000, 0)].
Proof.
  assert (Hl : length ((1 / 4, 0) ^- (0, 0)) = 1 / 4)
    by (apply length_eq; simpl; lra).
  unfold f_ij_step, add_at.
  cbn [lookup list_lookup mbind option_bind].
  rewrite Hl. simpl Constant.sight.
  rewrite (decide_True (P := 1 / 4 < 3)) by lra.
  rewrite f_soc_ij_at_rest. cbn [lookup list_lookup mbind option_bind].
  rewrite (decide_True (P := 1 / 4 + 1 / 4 - 1 / 4 > 0)) by lra.
  rewrite (vdiv_Some ((1 / 4, 0) ^- (0, 0)) (1 / 4)) by lra.
  cbn [lookup list_lookup mbind option_bind insert list_insert].
  unfold f_c_ij, dot2d, rotate270, vadd, vsub, smul, zeros.
  simpl. repeat f_equal; field.
Qed.

Lemma f_ij_overlapping_pair :
  f_ij default_constant overlapping_pair
  = Some [(-30000, 0); (30000, 0)].
Proof.
  unfold f_ij. simpl size. simpl position. simpl velocity. simpl radius.
  cbn [seq foldM replicate].
  rewrite (decide_True (P := 0%nat = 0%nat)) by reflexivity.
  cbn [mbind option_bind].
  rewrite (decide_False (P := 0%nat = 1%nat)) by lia.
  rewrite f_ij_step_overlapping_0. cbn [mbind option_bind].
  rewrite (decide_False (P := 1%nat = 0%nat)) by lia.
  rewrite f_ij_step_overlapping_1. cbn [mbind option_bind].
  rewrite (decide_True (P := 1%nat = 1%nat)) by reflexivity.
  reflexivity.
Qed.

Lemma f_ij_third_law_witness :
  List.length [((-30000, 0) : vec); (30000, 0)] = size overlapping_pair /\
  vsum [(-30000, 0); (30000, 0)] = zeros.
Proof.
  apply (f_ij_third_law default_constant overlapping_pair).
  apply f_ij_overlapping_pair.
Defined.
(** X11: the clamp and the guards of [f_soc_ij]: for a nonnegative
    [f_max], a force that is returned has magnitude at most [f_max]; and
    it is zero when no time to collision is defined (negative
    discriminant), when the relative speed is almost zero, or when the
    time to collision is negative or beyond 999. *)
Theorem f_soc_ij_clamped (x_ij v_ij : vec) (r_ij k tau_0 f_max : R)
    (f : vec) :
  0 <= f_max ->
  f_soc_ij x_ij v_ij r_ij k tau_0 f_max = Some f ->
  length f <= f_max /\
  (discriminant x_ij v_ij r_ij < 0 \/
   (-0.001 < dot2d v_ij v_ij /\ dot2d v_ij v_ij < 0.001) \/
   time_to_collision x_ij v_ij r_ij < 0 \/
   time_to_collision x_ij v_ij r_ij > 999 ->
   f = zeros).
Proof.
  intros Hmax H. split.
  - now apply (f_soc_ij_bounded x_ij v_ij r_ij k tau_0 f_max).
  - intros Hg.
    pose proof (f_soc_ij_no_force x_ij v_ij r_ij k tau_0 f_max Hg) as E.
    congruence.
Qed.

Lemma f_soc_ij_clamped_witness :
  length zeros <= 2000 /\
  (discriminant (1, 0) (zeros ^- zeros) 1 < 0 \/
   (-0.001 < dot2d (zeros ^- zeros) (zeros ^- zeros) /\
    dot2d (zeros ^- zeros) (zeros ^- zeros) < 0.001) \/
   time_to_collision (1, 0) (zeros ^- zeros) 1 < 0 \/
   time_to_collision (1, 0) (zeros ^- zeros) 1 > 999 ->
   zeros = zeros).
Proof.
  apply (f_soc_ij_clamped (1, 0) (zeros ^- zeros) 1 1.5 3 2000 zeros).
  - lra.
  - apply f_soc_ij_at_rest.
Defined.

(** ** The force laws of [crowddynamics/core/motion/force.py] *)

(** X12: the contact force in the frame of a unit normal [n] and its
    tangent [t = rotate270(n)]: the normal component is
    [- h mu + damping (v . n)] and the tangential one [h kappa (v . t)];
    for overlapping bodies ([h <= 0]) and [kappa >= 0] the friction never
    pushes along the sliding velocity. *)
Theorem force_contact_components (h : R) (n v : vec) (mu kappa damping : R) :
  length n = 1 ->
  dot2d (force_contact h n v (rotate270 n) mu kappa damping) n
  = - h * mu + damping * dot2d v n /\
  dot2d (force_contact h n v (rotate270 n) mu kappa damping) (rotate270 n)
  = h * kappa * dot2d v (rotate270 n) /\
  (h <= 0 -> 0 <= kappa ->
   dot2d (force_contact h n v (rotate270 n) mu kappa damping) (rotate270 n)
   * dot2d v (rotate270 n) <= 0).
Proof.
  intros Hn. apply length_unit_components in Hn.
  assert (E1 : dot2d (force_contact h n v (rotate270 n) mu kappa damping) n
               = - h * mu + damping * dot2d v n).
  { unfold force_contact, dot2d, rotate270, vadd, vsub, smul; cbn [fst snd].
    replace (- h * mu + damping * (v.1 * n.1 + v.2 * n.2))
      with ((- h * mu + damping * (v.1 * n.1 + v.2 * n.2))
            * (n.1 * n.1 + n.2 * n.2)) by (rewrite Hn; ring).
    ring. }
  assert (E2 : dot2d (force_contact h n v (rotate270 n) mu kappa damping)
                     (rotate270 n)
               = h * kappa * dot2d v (rotate270 n)).
  { unfold force_contact, dot2d, rotate270, vadd, vsub, smul; cbn [fst snd].
    replace (h * kappa * (v.1 * n.2 + v.2 * - n.1))
      with (h * kappa * (v.1 * n.2 + v.2 * - n.1)
            * (n.1 * n.1 + n.2 * n.2)) by (rewrite Hn; ring).
    ring. }
  split; [exact E1|]. split; [exact E2|].
  intros Hh Hk. rewrite E2.
  pose proof (Rle_0_sqr (dot2d v (rotate270 n))) as Hs. unfold Rsqr in Hs.
  replace (h * kappa * dot2d v (rotate270 n) * dot2d v (rotate270 n))
    with (h * (kappa * (dot2d v (rotate270 n) * dot2d v (rotate270 n))))
    by ring.
  assert (0 <= kappa * (dot2d v (rotate270 n) * dot2d v (rotate270 n)))
    by (apply Rmult_le_pos; assumption).
  nra.
Qed.

Lemma force_contact_components_witness :
  dot2d (force_contact (-1) (1, 0) (2, 3) (rotate270 (1, 0)) 120000 40000 500)
        (1, 0)
  = - -1 * 120000 + 500 * dot2d (2, 3) (1, 0) /\
  dot2d (force_contact (-1) (1, 0) (2, 3) (rotate270 (1, 0)) 120000 40000 500)
        (rotate270 (1, 0))
  = -1 * 40000 * dot2d (2, 3) (rotate270 (1, 0)) /\
  (-1 <= 0 -> 0 <= 40000 ->
   dot2d (force_contact (-1) (1, 0) (2, 3) (rotate270 (1, 0))
            120000 40000 500) (rotate270 (1, 0))
   * dot2d (2, 3) (rotate270 (1, 0)) <= 0).
Proof.
  apply (force_contact_components (-1) (1, 0) (2, 3) 120000 40000 500).
  apply length_eq; simpl; lra.
Defined.

(** X13: [force_adjust] fails exactly for [tau_adj = 0]; otherwise its
    force [f] satisfies [tau_adj f = m (v0 e0 - v)], a relaxation towards
    the target velocity [v0 e0] with the time constant [tau_adj], and for
    a nonzero mass it vanishes exactly at the target velocity. *)
Theorem force_adjust_relaxation (mass tau_adj v0 : R) (e0 v : vec) :
  (tau_adj = 0 /\ Algorithms.force_adjust mass tau_adj v0 e0 v = None) \/
  (tau_adj <> 0 /\
   exists f, Algorithms.force_adjust mass tau_adj v0 e0 v = Some f /\
     tau_adj ^* f = mass ^* (v0 ^* e0 ^- v) /\
     (mass <> 0 -> (f = zeros <-> v = v0 ^* e0))).
Proof.
  unfold Algorithms.force_adjust, rdiv.
  destruct (decide (tau_adj = 0)) as [E|E]; [left; auto|right].
  split; [assumption|]. cbn [mbind option_bind]. eexists.
  split; [reflexivity|]. split.
  - destruct e0 as [a b], v as [c d].
    unfold smul, vsub; cbn [fst snd]. f_equal; field; assumption.
  - intros Hm.
    assert (Hc : mass / tau_adj <> 0).
    { unfold Rdiv. apply Rmult_integral_contrapositive_currified;
        [assumption|now apply Rinv_neq_0_compat]. }
    destruct e0 as [a b], v as [c d].
    unfold smul, vsub, zeros; cbn [fst snd]. split.
    + intros [= H1 H2].
      apply Rmult_integral in H1 as [H1|H1]; [contradiction|].
      apply Rmult_integral in H2 as [H2|H2]; [contradiction|].
      f_equal; lra.
    + intros [= H1 H2]. rewrite H1, H2. f_equal; ring.
Qed.

(** X14: for a positive range [b], the social force of Helbing's law is
    defined, has magnitude [|a| exp(-h / b) |n|], and does not grow with
    the skin distance [h]. *)
Theorem force_social_helbing_decreasing (h1 h2 : R) (n : vec) (a b : R) :
  0 < b -> h1 <= h2 ->
  exists f1 f2,
    Obstacles.force_social_helbing h1 n a b = Some f1 /\
    Obstacles.force_social_helbing h2 n a b = Some f2 /\
    length f1 = Rabs a * exp (- h1 / b) * length n /\
    length f2 <= length f1.
Proof.
  intros Hb Hh. unfold Obstacles.force_social_helbing.
  rewrite !rdiv_Some by lra. cbn [mbind option_bind].
  eexists _, _. split; [reflexivity|]. split; [reflexivity|].
  rewrite !length_smul, !Rabs_mult.
  rewrite (Rabs_pos_eq (exp (- h1 / b))) by (left; apply exp_pos).
  rewrite (Rabs_pos_eq (exp (- h2 / b))) by (left; apply exp_pos).
  split; [reflexivity|].
  assert (He : exp (- h2 / b) <= exp (- h1 / b)).
  { destruct Hh as [Hlt| ->]; [|lra]. left. apply exp_increasing.
    unfold Rdiv. apply Rmult_lt_compat_r; [now apply Rinv_0_lt_compat|lra]. }
  pose proof (Rabs_pos a). pose proof (length_nonneg n).
  apply Rmult_le_compat_r; [assumption|].
  apply Rmult_le_compat_l; assumption.
Qed.

Lemma force_social_helbing_decreasing_witness :
  exists f1 f2,
    Obstacles.force_social_helbing 0 (0, 1) 2000 0.08 = Some f1 /\
    Obstacles.force_social_helbing 1 (0, 1) 2000 0.08 = Some f2 /\
    length f1 = Rabs 2000 * exp (- 0 / 0.08) * length ((0, 1) : vec) /\
    length f2 <= length f1.
Proof.
  apply (force_social_helbing_decreasing 0 1 (0, 1) 2000 0.08); lra.
Defined.

(** X15: the fluctuation force of agent [i] has magnitude
    [|m_i| |xi_i|], [xi_i] being the sample of the truncated normal
    distribution: it is [m_i xi_i] in the direction of the sampled
    angle. *)
Theorem force_fluctuation_magnitude (mass : list R) (scale : R)
    (magnitude angle : list R) (i : nat) (f : vec) :
  Algorithms.force_fluctuation mass scale magnitude angle !! i = Some f ->
  exists m xi phi,
    mass !! i = Some m /\ magnitude !! i = Some xi /\
    angle !! i = Some phi /\
    f = (m * xi) ^* (cos phi, sin phi) /\
    length f = Rabs m * Rabs xi.
Proof.
  unfold Algorithms.force_fluctuation. intros H.
  apply lookup_zip_with_Some in H as (m & [xi phi] & -> & Hm & Hz).
  apply lookup_zip_with_Some in Hz as (xi' & phi' & [= <- <-] & Hxi & Hphi).
  exists m, xi, phi. repeat split; auto.
  - unfold smul; cbn [fst snd]. f_equal; ring.
  - rewrite !length_smul.
    replace (length (cos phi, sin phi)) with 1; [ring|].
    symmetry. apply length_eq; [lra|]. cbn [fst snd].
    pose proof (sin2_cos2 phi) as E. unfold Rsqr in E. lra.
Qed.

Lemma force_fluctuation_magnitude_witness :
  exists m xi phi,
    [70] !! 0%nat = Some m /\ [1] !! 0%nat = Some xi /\
    [0] !! 0%nat = Some phi /\
    70 ^* (1 ^* (cos 0, sin 0)) = (m * xi) ^* (cos phi, sin phi) /\
    length (70 ^* (1 ^* (cos 0, sin 0))) = Rabs m * Rabs xi.
Proof.
  apply (force_fluctuation_magnitude [70] (1 / 10) [1] [0] 0).
  reflexivity.
Defined.
(** ** Navigation *)

Lemma round_half_even_nearest (x : R) :
  Rabs (IZR (Algorithms.round_half_even x) - x) <= 1 / 2 /\
  (Rabs (IZR (Algorithms.round_half_even x) - x) = 1 / 2 ->
   Z.even (Algorithms.round_half_even x) = true).
Proof.
  unfold Algorithms.round_half_even.
  pose proof (Zfloor_bound x) as [Hl Hu].
  set (f := Zfloor x) in *.
  destruct (decide (x - IZR f < 1 / 2)) as [H1|H1].
  - rewrite Rabs_left1 by lra. split; [lra|]. intros E. lra.
  - destruct (decide (1 / 2 < x - IZR f)) as [H2|H2].
    + rewrite plus_IZR. rewrite Rabs_pos_eq by lra. split; [lra|].
      intros E. lra.
    + destruct (Z.even f) eqn:Ev.
      * rewrite Rabs_left1 by lra. split; [lra|]. auto.
      * rewrite plus_IZR. rewrite Rabs_pos_eq by lra. split; [lra|].
        intros _. change (f + 1)%Z with (Z.succ f).
        rewrite Z.even_succ, <- Z.negb_even, Ev. reflexivity.
Qed.



(** X17: when [Navigation.update] succeeds, the target direction of every
    active agent is the entry of the direction field at row
    [round(y / step)] and column [round(x / step)] of its position
    [(x, y)]; the target directions of the other agents, and every other
    attribute, are as before. *)
Theorem Navigation_update_lookup (step : R) (direction_map : list (list vec))
    (agent agent' : Agent) :
  Algorithms.Navigation_update step direction_map agent = Some agent' ->
  (forall i, i ∈ indices agent ->
     exists p col row d,
       position agent !! i = Some p /\
       Algorithms.to_indices p step = Some (col, row) /\
       Algorithms.read_map direction_map row col = Some d /\
       target_direction agent' !! i = Some d) /\
  (forall k, k ∉ indices agent ->
     target_direction agent' !! k = target_direction agent !! k) /\
  agent' = set_target_direction (target_direction agent') agent.
Proof.
  unfold Algorithms.Navigation_update. intros H.
  destruct (Algorithms.gather (indices agent) (position agent))
    as [points|] eqn:G; [|discriminate].
  cbn [mbind option_bind] in H.
  destruct (mapM _ points) as [idx|] eqn:M1; [|discriminate].
  cbn [mbind option_bind] in H.
  destruct (mapM _ (map _ idx)) as [d|] eqn:M2; [|discriminate].
  cbn [mbind option_bind] in H.
  destruct (Algorithms.scatter _ d _) as [t|] eqn:S; [|discriminate].
  cbn [mbind option_bind] in H. injection H as <-.
  apply mapM_Some_1 in M1, M2.
  destruct (scatter_spec _ _ _ _ S (indices_NoDup agent)) as [S1 S2].
  split; [|split].
  - intros i Hi. apply list_elem_of_lookup in Hi as [n Hn].
    destruct (gather_lookup _ _ _ _ _ G Hn) as (p & Hp & Hpos).
    destruct (Forall2_lookup_l _ _ _ _ _ M1 Hp) as ([col row] & Hidx & Hto).
    assert (Hflip : map (fun '(x, y) => (y, x)) idx !! n = Some (row, col)).
    { rewrite list_lookup_fmap, Hidx. reflexivity. }
    destruct (Forall2_lookup_l _ _ _ _ _ M2 Hflip) as (dv & Hd & Hread).
    exists p, col, row, dv. repeat split; auto.
    cbn [target_direction set_target_direction update_agent].
    rewrite (S1 n i Hn). exact Hd.
  - intros k Hk. cbn [target_direction set_target_direction update_agent].
    now apply S2.
  - reflexivity.
Qed.
Lemma agent_left_navigation :
  Algorithms.Navigation_update 1 small_map agent_left
  = Some (set_target_direction [(0, 1)] agent_left).
Proof.
  unfold Algorithms.Navigation_update.
  change (indices agent_left) with [0%nat].
  cbn [Algorithms.gather mapM]. simpl position.
  cbn [lookup list_lookup mbind option_bind mret option_ret].
  rewrite mapM_singleton.
  rewrite (to_indices_integral (-1, 0) 1 (-1) 0) by (simpl; lra).
  reflexivity.
Qed.

Lemma Navigation_update_lookup_witness :
  (forall i, i ∈ indices agent_left ->
     exists p col row d,
       position agent_left !! i = Some p /\
       Algorithms.to_indices p 1 = Some (col, row) /\
       Algorithms.read_map small_map row col = Some d /\
       target_direction (set_target_direction [(0, 1)] agent_left) !! i
       = Some d) /\
  (forall k, k ∉ indices agent_left ->
     target_direction (set_target_direction [(0, 1)] agent_left) !! k
     = target_direction agent_left !! k) /\
  set_target_direction [(0, 1)] agent_left
  = set_target_direction
      (target_direction (set_target_direction [(0, 1)] agent_left))
      agent_left.
Proof.
  apply (Navigation_update_lookup 1 small_map agent_left).
  apply agent_left_navigation.
Defined.

Lemma length_triangle (a b : vec) : length (a ^+ b) <= length a + length b.
Proof.
  pose proof (length_nonneg a) as Ha. pose proof (length_nonneg b) as Hb.
  pose proof (length_nonneg (a ^+ b)) as Hab.
  pose proof (length_sq a) as Sa. pose proof (length_sq b) as Sb.
  pose proof (length_sq (a ^+ b)) as Sab.
  apply le_of_squares; [assumption|lra|].
  destruct a as [a1 a2], b as [b1 b2].
  unfold vadd in *; cbn [fst snd] in *.
  assert (Hcs : a1 * b1 + a2 * b2 <= length (a1, a2) * length (b1, b2)).
  { destruct (Rle_lt_dec (a1 * b1 + a2 * b2) 0) as [Hneg|Hpos].
    - pose proof (Rmult_le_pos _ _ Ha Hb). lra.
    - apply le_of_squares; [lra|now apply Rmult_le_pos|].
      replace (length (a1, a2) * length (b1, b2)
               * (length (a1, a2) * length (b1, b2)))
        with ((length (a1, a2) * length (a1, a2))
              * (length (b1, b2) * length (b1, b2))) by ring.
      rewrite Sa, Sb.
      pose proof (Rle_0_sqr (a1 * b2 - a2 * b1)) as Hq. unfold Rsqr in Hq.
      lra. }
  lra.
Qed.

(** X18: a cell of [direction_map] never divides by zero: where the
    gradient vanishes the direction is the zero vector, and elsewhere it
    is the unit vector [(v, u) / hypot(u, v)] along the gradient [(u, v)]
    of the distance map, with the axes swapped from (row, column) to
    (x, y). *)
Theorem direction_map_cell_unit (u v : R) :
  exists d, direction_map_cell u v = Some d /\
    ((u = 0 /\ v = 0 /\ d = zeros) \/
     (0 < length (u, v) /\ length d = 1 /\
      d = (v / length (u, v), u / length (u, v)))).
Proof.
  unfold direction_map_cell.
  destruct (decide (length (u, v) = 0)) as [E|E].
  - rewrite !rdiv_Some by lra. cbn [mbind option_bind].
    eexists. split; [reflexivity|]. left.
    apply (proj1 (length_zero_iff _)) in E. injection E as -> ->.
    repeat split. unfold zeros. f_equal; lra.
  - rewrite !rdiv_Some by assumption. cbn [mbind option_bind].
    eexists. split; [reflexivity|]. right.
    pose proof (length_nonneg (u, v)) as Hn.
    pose proof (length_sq (u, v)) as Hs. cbn [fst snd] in Hs.
    repeat split; [lra|].
    apply length_eq; [lra|]. cbn [fst snd].
    replace (v / length (u, v) * (v / length (u, v))
             + u / length (u, v) * (u / length (u, v)))
      with ((u * u + v * v) / (length (u, v) * length (u, v)))
      by (field; assumption).
    rewrite <- Hs. field. assumption.
Qed.

(** X19: for a strength [0 < value < 1], a cell of [merge_dir_maps] is
    always defined; farther than [1.1 radius] from the obstacles it keeps
    the direction of [dir_map2]; on an obstacle it is the opposite of
    [dir_map1]; and it is no longer than the longer of the two
    directions it blends, so that unit fields merge into directions of
    length at most 1. *)
Theorem merge_dir_maps_cell_blend (dmap : R) (dir_map1 dir_map2 : vec)
    (radius value bound : R) :
  0 < value < 1 ->
  exists merged,
    merge_dir_maps_cell dmap dir_map1 dir_map2 radius value = Some merged /\
    (1.1 * radius <= Rabs dmap -> merged = dir_map2) /\
    (dmap = 0 -> 0 < radius -> merged = vneg dir_map1) /\
    (length dir_map1 <= bound -> length dir_map2 <= bound ->
     length merged <= bound).
Proof.
  intros Hv. unfold merge_dir_maps_cell.
  pose proof (Rabs_pos dmap) as Hx.
  destruct (decide (Rabs dmap < 1.1 * radius)) as [Hr|Hr].
  - assert (Hrad : 0 < radius) by lra.
    rewrite rdiv_Some by lra. cbn [mbind option_bind].
    set (k := Rpower value (Rabs dmap / radius)).
    assert (Hk : 0 < k <= 1).
    { unfold k, Rpower. split; [apply exp_pos|].
      rewrite <- exp_0. 
      assert (Hln : ln value < 0).
      { rewrite <- ln_1. apply ln_increasing; lra. }
      assert (He : 0 <= Rabs dmap / radius).
      { unfold Rdiv. apply Rmult_le_pos; [assumption|].
        left. now apply Rinv_0_lt_compat. }
      destruct He as [He|He].
      - left. apply exp_increasing. nra.
      - rewrite <- He. right. f_equal. ring. }
    eexists. split; [reflexivity|]. split; [intros; lra|]. split.
    + intros -> _. unfold k. rewrite Rabs_R0.
      replace (0 / radius) with 0 by (field; lra).
      rewrite Rpower_O by lra.
      destruct dir_map1, dir_map2. unfold vneg, vadd, smul; cbn [fst snd].
      f_equal; ring.
    + intros H1 H2.
      eapply Rle_trans; [apply length_triangle|].
      rewrite !length_smul.
      rewrite Rabs_left by lra. rewrite Rabs_pos_eq by lra.
      pose proof (length_nonneg dir_map1). pose proof (length_nonneg dir_map2).
      nra.
  - eexists. split; [reflexivity|]. split; [reflexivity|]. split.
    + intros -> Hrad. rewrite Rabs_R0 in Hr. lra.
    + auto.
Qed.

Lemma merge_dir_maps_cell_blend_witness :
  exists merged,
    merge_dir_maps_cell 0 (1, 0) (0, 1) 0.3 0.3 = Some merged /\
    (1.1 * 0.3 <= Rabs 0 -> merged = (0, 1)) /\
    (0 = 0 -> 0 < 0.3 -> merged = vneg (1, 0)) /\
    (length ((1, 0) : vec) <= 1 -> length ((0, 1) : vec) <= 1 ->
     length merged <= 1).
Proof.
  apply (merge_dir_maps_cell_blend 0 (1, 0) (0, 1) 0.3 0.3 1). lra.
Defined.
(** ** Overlap tests *)

(** X20: [overlapping_circle_circle] answers [True] only if the tested
    disk overlaps the disk of one of the agents ([|x_i - x2| < r_i + r2]),
    and [False] only if it overlaps none of them. *)
Theorem overlapping_circle_circle_spec (agent : Agent) (indices : list nat)
    (x2 : vec) (r2 : R) (b : bool) :
  overlapping_circle_circle agent indices x2 r2 = Some b ->
  (b = true /\
   exists i p r, i ∈ indices /\ position agent !! i = Some p /\
     radius agent !! i = Some r /\ length (p ^- x2) < r + r2) \/
  (b = false /\
   forall i, i ∈ indices ->
     exists p r, position agent !! i = Some p /\
       radius agent !! i = Some r /\ r + r2 <= length (p ^- x2)).
Proof.
  induction indices as [|i indices IH]; cbn [overlapping_circle_circle].
  - intros [= <-]. right. split; [reflexivity|]. intros i Hi. inversion Hi.
  - intros H.
    destruct (position agent !! i) as [p|] eqn:Ep; [|discriminate].
    destruct (radius agent !! i) as [r|] eqn:Er; [|discriminate].
    cbn [mbind option_bind] in H.
    rewrite distance_circle_circle_value in H. cbn [mbind option_bind] in H.
    destruct (decide (length (p ^- x2) - (r + r2) < 0)) as [Hh|Hh].
    + injection H as <-. left. split; [reflexivity|].
      exists i, p, r. repeat split; auto; [left|lra].
    + destruct (IH H) as [(-> & j & q & s & Hj & Hq & Hs & Hlt)|[-> Hall]].
      * left. split; [reflexivity|]. exists j, q, s.
        repeat split; auto. now right.
      * right. split; [reflexivity|]. intros j Hj.
        apply elem_of_cons in Hj as [->|Hj]; [|auto].
        exists p, r. repeat split; auto. lra.
Qed.

Lemma overlapping_circle_circle_spec_witness :
  (true = true /\
   exists i p r, i ∈ [0%nat; 1%nat] /\
     position far_pair !! i = Some p /\
     radius far_pair !! i = Some r /\
     length (p ^- (10, 1 / 4)) < r + 1 / 4) \/
  (true = false /\
   forall i, i ∈ [0%nat; 1%nat] ->
     exists p r, position far_pair !! i = Some p /\
       radius far_pair !! i = Some r /\
       r + 1 / 4 <= length (p ^- (10, 1 / 4))).
Proof.
  apply (overlapping_circle_circle_spec far_pair [0%nat; 1%nat]
           (10, 1 / 4) (1 / 4) true).
  cbn [overlapping_circle_circle]. simpl position. simpl radius.
  cbn [lookup list_lookup mbind option_bind].
  rewrite !distance_circle_circle_value. cbn [mbind option_bind].
  assert (H0 : 1 < length ((0, 0) ^- (10, 1 / 4))).
  { pose proof (length_nonneg ((0, 0) ^- (10, 1 / 4))).
    pose proof (length_sq ((0, 0) ^- (10, 1 / 4))) as Hs.
    cbn [vsub fst snd] in Hs. nra. }
  rewrite decide_False by lra.
  rewrite (length_eq ((10, 0) ^- (10, 1 / 4)) (1 / 4)) by (simpl; lra).
  rewrite decide_True by lra. reflexivity.
Defined.

(** ** List buffers *)

(** X21: a [ListBuffer] created with [start = end] holds, after any
    sequence of [append] and [clear] calls, exactly [end - start] items,
    and [start] is never below its initial value. *)
Theorem ListBuffer_invariant {A : Type} (s : Z) (calls : list (buffer_call A)) :
  let b := foldl buffer_step (ListBuffer_init s s) calls in
  end_ b = (start b + Z.of_nat (List.length (items b)))%Z /\
  (s <= start b)%Z.
Proof.
  cbv zeta.
  assert (Hgen : forall b : ListBuffer A,
            end_ b = (start b + Z.of_nat (List.length (items b)))%Z ->
            (s <= start b)%Z ->
            end_ (foldl buffer_step b calls)
            = (start (foldl buffer_step b calls)
               + Z.of_nat (List.length (items (foldl buffer_step b calls))))%Z
            /\ (s <= start (foldl buffer_step b calls))%Z).
  { induction calls as [|c calls IH]; intros b Hb Hs; [auto|].
    cbn [foldl]. apply IH.
    - destruct c as [x|]; cbn [buffer_step ListBuffer_append ListBuffer_clear
                               items start end_].
      + rewrite length_app. cbn [List.length]. lia.
      + cbn [List.length]. lia.
    - destruct c as [x|]; cbn [buffer_step ListBuffer_append ListBuffer_clear
                               items start end_]; lia. }
  apply Hgen; cbn [ListBuffer_init items start end_ List.length]; lia.
Qed.
(** ** Random placement *)

Section Draws.

Variable uniform : nat -> vec.
Variable radius : list R.
Variable walls : list Walls.wall.

(** The trials behind the first [i] slots: slot [a] holds the point drawn
    in trial [ks[a]], the trials are increasing and below [n]. *)
Local Abbreviation drawn := (fun (ps : list vec) (ks : list nat) (n : nat) =>
  ps = map uniform ks /\
  (forall a b ka kb, (a < b)%nat -> ks !! a = Some ka -> ks !! b = Some kb ->
                     (ka < kb)%nat) /\
  (forall k, k ∈ ks -> (k < n)%nat)).

Lemma place_draws (remaining : nat) :
  forall (iterations i : nat) (position : list vec) (ks : list nat),
    (i <= List.length position)%nat -> (i <= iterations)%nat ->
    drawn (take i position) ks iterations ->
    match Parameters.place uniform radius walls remaining iterations i
                           position with
    | Parameters.Return ps n =>
        (List.length position <= n)%nat /\ exists ks', drawn ps ks' n
    | _ => True
    end.
Proof.
  induction remaining as [|remaining IH]; intros iterations i position ks
    Hi Hit Hd; cbn [Parameters.place].
  - case_decide as Hlt; [exact I|].
    assert (i = List.length position) by lia. subst i.
    rewrite firstn_all in Hd. split; [lia|eauto].
  - case_decide as Hlt.
    + destruct (radius !! i) as [rad|]; [|exact I].
      assert (Hrej : drawn (take i position) ks (S iterations)).
      { destruct Hd as (E & Hs & Hb). repeat split; auto.
        intros k Hk. specialize (Hb k Hk). lia. }
      destruct (_ && _).
      { apply (IH (S iterations) i position ks); auto. }
      destruct (negb _).
      { apply (IH (S iterations) i position ks); auto. }
      pose proof (IH (S iterations) (S i)
                    (<[i := uniform iterations]> position)
                    (ks ++ [iterations])) as IH'.
      rewrite length_insert in IH'. apply IH'; [lia|lia|].
      destruct Hd as (E & Hs & Hb).
      assert (Hlen : List.length ks = i).
      { apply (f_equal List.length) in E.
        rewrite length_take, length_map in E. lia. }
      repeat split.
      * rewrite (take_S_r _ _ (uniform iterations))
          by (now apply list_lookup_insert_eq).
        rewrite take_insert_ge by lia. rewrite E, map_app. reflexivity.
      * intros a b ka kb Hab Ha Hb'.
        destruct (decide (b < List.length ks)%nat) as [Hbl|Hbl].
        -- rewrite lookup_app_l in Ha, Hb' by lia. eauto.
        -- rewrite lookup_app_r in Hb' by lia.
           destruct (b - List.length ks)%nat as [|m] eqn:Em;
             [|destruct m; discriminate].
           injection Hb' as <-.
           assert (Hal : (a < List.length ks)%nat) by lia.
           rewrite lookup_app_l in Ha by lia.
           apply Hb. eapply list_elem_of_lookup_2; eauto.
      * intros k Hk. apply elem_of_app in Hk as [Hk|Hk].
        -- specialize (Hb k Hk). lia.
        -- apply list_elem_of_singleton in Hk as ->. lia.
    + assert (i = List.length position) by lia. subst i.
      rewrite firstn_all in Hd. split; [lia|eauto].
Qed.

End Draws.

(** X22: the positions that [random_position] returns are points it drew,
    in the order of the trials: slot [a] holds the point of a trial
    [ks[a]], these trials are increasing and among the [n] trials made,
    so that at least one trial was made for each slot. *)
Theorem random_position_draws (uniform : nat -> vec) (position : list vec)
    (radius : list R) (walls : list Walls.wall) :
  match Parameters.random_position uniform position radius walls with
  | Parameters.Return ps n =>
      (List.length position <= n)%nat /\
      exists ks, ps = map uniform ks /\
        (forall a b ka kb, (a < b)%nat ->
           ks !! a = Some ka -> ks !! b = Some kb -> (ka < kb)%nat) /\
        (forall k, k ∈ ks -> (k < n)%nat)
  | _ => True
  end.
Proof.
  unfold Parameters.random_position.
  apply (place_draws uniform radius walls (100 * List.length position)
           0 0 position []); [lia|lia|].
  repeat split.
  - intros a b ka kb _ Ha. discriminate.
  - intros k Hk. inversion Hk.
Qed.
(** ** The agent-wall phase *)

Lemma foldM_invariant_in {A S : Type} (P : S -> Prop)
    (f : S -> A -> option S) (l : list A) :
  (forall s a s', a ∈ l -> P s -> f s a = Some s' -> P s') ->
  forall s s', P s -> foldM f s l = Some s' -> P s'.
Proof.
  induction l as [|a l IH]; intros Hf s s' Hs H; simpl in H.
  - now injection H as <-.
  - destruct (f s a) as [s1|] eqn:E; [|discriminate]. simpl in H.
    apply (IH (fun s a s' Ha => Hf s a s' (list_elem_of_further _ _ _ Ha))
              s1 s'); [|exact H].
    apply (Hf s a s1); [left|exact Hs|exact E].
Qed.

Lemma set_force_torque_same (a : Agent) :
  a = set_torque (torque a) (set_force (force a) a).
Proof. destruct a. reflexivity. Qed.

Section WallPhase.

Variable Wall : Type.
Variable wall_size : Wall -> nat.
Variable distance_with_normal : Wall -> nat -> vec -> option (R * vec).
Variable force_social_linear_wall : nat -> nat -> Agent -> Wall -> option vec.

(** One interaction writes [force[i]] and [torque[i]] only. *)
Lemma agent_wall_interaction_frame (i w : nat) (a a' : Agent) (wall : Wall) :
  agent_wall_interaction Wall distance_with_normal force_social_linear_wall
    i w a wall = Some a' ->
  exists f t, a' = set_torque t (set_force f a) /\
    forall k, k <> i ->
      f !! k = force a !! k /\ t !! k = torque a !! k.
Proof.
  unfold agent_wall_interaction. intros H.
  destruct (position a !! i) as [x|]; [|discriminate].
  destruct (radius a !! i) as [r|]; [|discriminate].
  cbn [mbind option_bind] in H.
  destruct (distance_with_normal wall w x) as [[d n]|]; [|discriminate].
  cbn [mbind option_bind] in H.
  destruct (decide (d - r <= sight_wall a)).
  2:{ injection H as <-. exists (force a), (torque a).
      split; [apply set_force_torque_same|auto]. }
  match type of H with
  | (?c ≫= _) = _ => destruct c as [[[[h0 n0] m0] f0]|]; [|discriminate]
  end.
  cbn [mbind option_bind] in H.
  match type of H with
  | (?c ≫= _) = _ => destruct c as [f1|]; [|discriminate]
  end.
  cbn [mbind option_bind] in H.
  destruct (add_force i f1 a) as [a1|] eqn:E1; [|discriminate].
  cbn [mbind option_bind] in H.
  apply add_force_Some in E1 as (fi & Hfi & ->).
  cbn [orientable set_force update_agent] in H.
  destruct (orientable a).
  - apply add_torque_Some in H as (ti & Hti & ->).
    cbn [torque set_torque set_force update_agent] in *. unfold keep in *.
    eexists _, _. split; [reflexivity|].
    intros k Hk. split; now rewrite list_lookup_insert_ne by auto.
  - injection H as <-. exists (<[i := fi ^+ f1]> (force a)), (torque a).
    split; [destruct a; reflexivity|].
    intros k Hk. split; [now rewrite list_lookup_insert_ne by auto|auto].
Qed.

(** X23: the agent-wall phase writes the forces and the torques of the
    active agents and nothing else: every other attribute of the store,
    and the force and the torque of every inactive agent, are as
    before. *)
Theorem agent_wall_frame (agent agent' : Agent) (wall : Wall) :
  agent_wall Wall wall_size distance_with_normal force_social_linear_wall
    agent wall = Some agent' ->
  exists f t, agent' = set_torque t (set_force f agent) /\
    forall k, k ∉ indices agent ->
      f !! k = force agent !! k /\ t !! k = torque agent !! k.
Proof.
  unfold agent_wall.
  set (P := fun a' : Agent =>
    exists f t, a' = set_torque t (set_force f agent) /\
      forall k, k ∉ indices agent ->
        f !! k = force agent !! k /\ t !! k = torque agent !! k).
  apply (foldM_invariant_in P).
  - intros s i s' Hi Hs. apply (foldM_invariant P); [|exact Hs].
    intros s1 w s2 (f & t & -> & Hft) H.
    apply agent_wall_interaction_frame in H as (f' & t' & -> & Hft').
    exists f', t'. split; [reflexivity|].
    intros k Hk. assert (Hki : k <> i) by (intros ->; contradiction).
    destruct (Hft' k Hki) as [E1 E2]. destruct (Hft k Hk) as [E3 E4].
    cbn [force torque set_torque set_force update_agent] in E1, E2.
    unfold keep in E1, E2. split; congruence.
  - exists (force agent), (torque agent).
    split; [apply set_force_torque_same|auto].
Qed.

End WallPhase.

Lemma tilted_body_wall_phase :
  agent_wall Obstacles.Wall Obstacles.wall_size
    Obstacles.distance_with_normal Obstacles.force_social_linear_wall
    tilted_body floor_wall
  = Some tilted_body_after.
Proof.
  unfold agent_wall. change (indices tilted_body) with [0%nat].
  change (Obstacles.wall_size floor_wall) with 1%nat.
  cbn [seq foldM].
  unfold agent_wall_interaction. simpl position. simpl radius.
  cbn [lookup list_lookup mbind option_bind].
  rewrite floor_wall_distance by lra. cbn [mbind option_bind].
  simpl sight_wall. rewrite decide_True by lra.
  simpl three_circle. cbn iota. rewrite tilted_body_wall_distance.
  cbn [mbind option_bind].
  rewrite tilted_body_wall_force. cbn [mbind option_bind].
  rewrite decide_False by lra. cbn [mbind option_bind].
  reflexivity.
Qed.

Lemma agent_wall_frame_witness :
  exists f t, tilted_body_after = set_torque t (set_force f tilted_body) /\
    forall k, k ∉ indices tilted_body ->
      f !! k = force tilted_body !! k /\ t !! k = torque tilted_body !! k.
Proof.
  apply (agent_wall_frame Obstacles.Wall Obstacles.wall_size
           Obstacles.distance_with_normal Obstacles.force_social_linear_wall
           tilted_body tilted_body_after floor_wall).
  apply tilted_body_wall_phase.
Defined.
(** ** Three-circle distance *)

(** X24: [distance_three_circle] always returns; its distance is the
    least of the nine skin distances between the disks of the two bodies,
    its normal is the unit normal between the centres of a pair [i], [j]
    of disks that attains it (zero if they coincide), and its first
    moment arm is [x0[i] + r0[i] n - x0[0]], from the torso of body 0 to
    the contact point on its disk [i]. *)
Theorem distance_three_circle_min (x0 : triple vec) (r0 : triple R)
    (x1 : triple vec) (r1 : triple R) :
  exists i j n r_moment1,
    (i < 3)%nat /\ (j < 3)%nat /\
    n = unit_normal (tget x0 i) (tget x1 j) /\
    distance_three_circle x0 r0 x1 r1
    = Some (Some (skin x0 r0 x1 r1 i j), n,
            tget x0 i ^+ tget r0 i ^* n ^- tget x0 0, r_moment1) /\
    forall i' j', (i' < 3)%nat -> (j' < 3)%nat ->
                  skin x0 r0 x1 r1 i j <= skin x0 r0 x1 r1 i' j'.
Proof.
  destruct (distance_three_circle_result x0 r0 x1 r1)
    as (i & j & n & Hi & Hj & Hn & Hd & Hmin).
  exists i, j, n. eexists. repeat split; eauto.
Qed.
(** ** The agent-agent phase *)

(** The loops over [enumerate(ind[:-1])] and [ind[l + 1:]] visit the
    pairs of [ind]. *)
Lemma pair_loops {St : Type} (g : nat -> nat -> St -> option St)
    (ind : list nat) :
  forall (tail pre : list nat) (s : St),
    ind = pre ++ tail ->
    foldM (fun s '(l, i) =>
             foldM (fun s j => g i j s) s (drop (l + 1) ind))
          s (zip (seq (List.length pre) (List.length (removelast tail)))
                 (removelast tail))
    = foldM (fun s '(i, j) => g i j s) s (pairs tail).
Proof.
  induction tail as [|i tail IH]; intros pre s E; [reflexivity|].
  destruct tail as [|j tail]; [reflexivity|].
  change (removelast (i :: j :: tail)) with (i :: removelast (j :: tail)).
  cbn [List.length seq zip zip_with foldM pairs].
  rewrite foldM_app, foldM_map.
  assert (Ed : drop (List.length pre + 1) ind = j :: tail).
  { rewrite E. replace (List.length pre + 1)%nat
      with (List.length (pre ++ [i])) by (rewrite length_app; reflexivity).
    replace (pre ++ i :: j :: tail) with ((pre ++ [i]) ++ j :: tail)
      by (rewrite <- app_assoc; reflexivity).
    now rewrite drop_app_length. }
  rewrite Ed.
  destruct (foldM (fun s j0 => g i j0 s) s (j :: tail)) as [s1|];
    [|reflexivity].
  cbn [mbind option_bind].
  specialize (IH (pre ++ [i]) s1).
  rewrite length_app in IH. cbn [List.length] in IH.
  replace (List.length pre + 1)%nat with (S (List.length pre)) in IH by lia.
  apply IH. rewrite E, <- app_assoc. reflexivity.
Qed.

Lemma pairs_fst (l : list nat) (i j : nat) :
  (i, j) ∈ pairs l -> i ∈ l /\ j ∈ l.
Proof.
  induction l as [|a l IH]; cbn [pairs]; [intros H; inversion H|].
  intros H. apply elem_of_app in H as [H|H].
  - apply list_elem_of_fmap in H as (y & [= -> ->] & Hy).
    split; [left|now right].
  - destruct (IH H). split; now right.
Qed.

Lemma pairs_NoDup (l : list nat) : NoDup l -> NoDup (pairs l).
Proof.
  induction l as [|a l IH]; cbn [pairs]; [constructor|].
  intros Hnd. apply NoDup_cons in Hnd as [Ha Hnd].
  apply NoDup_app. split; [|split].
  - apply NoDup_fmap_2; [|assumption]. intros x y [= ->]. reflexivity.
  - intros [i j] H1 H2.
    apply list_elem_of_fmap in H1 as (y & [= -> ->] & Hy).
    apply pairs_fst in H2 as [H2 _]. contradiction.
  - now apply IH.
Qed.

Lemma pairs_filter_seq (P : nat -> Prop) {Hdec : forall x, Decision (P x)}
    (n : nat) : forall (s i j : nat),
  (i, j) ∈ pairs (filter P (seq s n)) <->
  i ∈ filter P (seq s n) /\ j ∈ filter P (seq s n) /\ (i < j)%nat.
Proof.
  induction n as [|n IH]; intros s i j; cbn [seq].
  - rewrite filter_nil. cbn [pairs]. split.
    + intros H. inversion H.
    + intros [H _]. inversion H.
  - assert (Hgt : forall y, y ∈ filter P (seq (S s) n) -> (s < y)%nat).
    { intros y Hy. apply list_elem_of_filter in Hy as [_ Hy].
      apply elem_of_seq in Hy. lia. }
    rewrite filter_cons. destruct (decide (P s)) as [Hs|Hs]; [|apply IH].
    cbn [pairs]. rewrite elem_of_app, list_elem_of_fmap, IH.
    rewrite !elem_of_cons. split.
    + intros [(y & [= -> ->] & Hy)|(Hi & Hj & Hij)].
      * specialize (Hgt _ Hy). auto.
      * auto.
    + intros ([->|Hi] & [->|Hj] & Hij).
      * lia.
      * left. eauto.
      * specialize (Hgt _ Hi). lia.
      * right. auto.
Qed.

(** X25: the agent-agent phase lets every pair of distinct active agents
    interact exactly once, the smaller index first: its two loops run
    [agent_agent_interaction] over a list of pairs that has no repetition
    and holds exactly the pairs [(i, j)] of active agents with
    [i < j]. *)
Theorem agent_agent_pairs
    (force_social_circular force_social_three_circle :
       Agent -> nat -> nat -> option (vec * vec)) (agent : Agent) :
  agent_agent force_social_circular force_social_three_circle agent
  = foldM (fun a '(i, j) =>
             agent_agent_interaction force_social_circular
               force_social_three_circle i j a)
          agent (pairs (indices agent)) /\
  NoDup (pairs (indices agent)) /\
  forall i j, (i, j) ∈ pairs (indices agent) <->
              i ∈ indices agent /\ j ∈ indices agent /\ (i < j)%nat.
Proof.
  split; [|split].
  - unfold agent_agent.
    apply (pair_loops
             (fun i j a => agent_agent_interaction force_social_circular
                             force_social_three_circle i j a)
             (indices agent) (indices agent) [] agent).
    reflexivity.
  - apply pairs_NoDup, indices_NoDup.
  - intros i j. unfold indices. apply pairs_filter_seq.
Qed.
(** ** The fluctuation phase *)

Lemma scatter_length {A : Type} (idx : list nat) :
  forall (values l l' : list A),
    Algorithms.scatter idx values l = Some l' ->
    List.length values = List.length idx.
Proof.
  induction idx as [|k idx IH]; intros values l l' H;
    destruct values as [|v values]; try discriminate; [reflexivity|].
  cbn [Algorithms.scatter] in H.
  destruct (store k v l) as [l1|]; [|discriminate].
  cbn [mbind option_bind] in H. cbn [List.length]. f_equal. eauto.
Qed.

(** X26: when [Fluctuation.update] succeeds, the force of the [n]-th
    active agent is its mass times the [n]-th sample, [m xi e(phi)]: the
    force it had is overwritten; the forces of the inactive agents are
    as before. *)
Theorem Fluctuation_update_forces
    (torque_fluctuation : list R -> R -> list R)
    (magnitude angle : list R) (a a1 : Agent) :
  Algorithms.Fluctuation_update torque_fluctuation magnitude angle a
    = Some a1 ->
  (forall n i, indices a !! n = Some i ->
     exists m xi phi,
       mass a !! i = Some m /\ magnitude !! n = Some xi /\
       angle !! n = Some phi /\
       force a1 !! i = Some (m ^* (xi ^* (cos phi, sin phi)))) /\
  (forall k, k ∉ indices a -> force a1 !! k = force a !! k).
Proof.
  unfold Algorithms.Fluctuation_update. intros H.
  destruct (Algorithms.gather (indices a) (mass a)) as [gm|] eqn:Gm;
    [|discriminate].
  cbn [mbind option_bind] in H.
  destruct (Algorithms.scatter _ _ (force a)) as [f|] eqn:Hsc;
    [|discriminate].
  cbn [mbind option_bind] in H.
  assert (Hf : force a1 = f).
  { cbn [orientable set_force update_agent] in H.
    destruct (orientable a).
    - repeat match type of H with
      | (?c ≫= _) = _ =>
          destruct c; [|discriminate]; cbn [mbind option_bind] in H
      end.
      now injection H as <-.
    - now injection H as <-. }
  rewrite Hf. clear H Hf.
  destruct (scatter_spec _ _ _ _ Hsc (indices_NoDup a)) as [S1 S2].
  split; [|exact S2].
  intros n i Hn. rewrite (S1 n i Hn).
  apply scatter_length in Hsc.
  destruct (lookup_lt_is_Some_2
              (Algorithms.force_fluctuation gm (std_rand_force a)
                 magnitude angle) n) as [v Hv].
  { rewrite Hsc. eapply lookup_lt_Some; eauto. }
  rewrite Hv. unfold Algorithms.force_fluctuation in Hv.
  apply lookup_zip_with_Some in Hv as (m & [xi phi] & -> & Hm & Hz).
  apply lookup_zip_with_Some in Hz as (xi' & phi' & [= <- <-] & Hxi & Hphi).
  destruct (gather_lookup _ _ _ _ _ Gm Hn) as (m' & Hm1 & Hm2).
  assert (m' = m) by congruence. subst m'.
  exists m, xi, phi. auto.
Qed.

Lemma Fluctuation_update_forces_witness :
  (forall n i, indices single !! n = Some i ->
     exists m xi phi,
       mass single !! i = Some m /\ [1] !! n = Some xi /\
       [0] !! n = Some phi /\
       force single_fluctuated !! i
       = Some (m ^* (xi ^* (cos phi, sin phi)))) /\
  (forall k, k ∉ indices single ->
     force single_fluctuated !! k = force single !! k).
Proof.
  apply (Fluctuation_update_forces no_torque_fluctuation [1] [0] single
           single_fluctuated).
  apply single_fluctuation.
Defined.

(** ** Random unit vectors *)

(** X27: [random_unit_vector] returns one vector for each sampled
    orientation, and each of them has length 1. *)
Theorem random_unit_vector_unit (orientation : list R) :
  List.length (random_unit_vector orientation) = List.length orientation /\
  forall v, v ∈ random_unit_vector orientation -> length v = 1.
Proof.
  unfold random_unit_vector. split; [apply length_map|].
  intros v Hv. apply list_elem_of_fmap in Hv as (phi & -> & _).
  apply length_eq; [lra|]. cbn [fst snd].
  pose proof (sin2_cos2 phi) as E. unfold Rsqr in E. lra.
Qed.
